(** * LRHMC: zero-variance control variates for Bayesian logistic regression

    Shallow embedding of [hmc/lrhmc.py] (class [LRHMC]): the gradient
    materialisation of [fit], the control-variate pass of [postprocess] and
    the held-out scoring of [logloss].

    Modelling conventions.
    - A Python/numpy float is an exact rational ([Qc]); rounding, overflow
      and the values nan and inf are outside the model.  Where numpy would
      go on with nan or inf (a mean or covariance over too few rows) the
      model stops with the outcome [NonFinite].
    - What depends on rounding is read on a second embedding of
      [postprocess] and [logloss], module [Double], on binary64 numbers.
    - A 1-D array is a list, a 2-D array a list of rows.  The width of a
      2-D array without rows is not recorded.
    - Arrays reachable from [self] live in a store indexed by references;
      [postprocess] and [logloss] read them through the store at every
      access, and [out_sample] is a reference allocated by [np.zeros].
    - Python exceptions are values of [exn]; an exception leaves the store
      as it was when it was raised.
    - The sampler, [grad_log_prob] and scikit-learn's [log_loss] are
      collaborators, taken as parameters; pickling and file output are not
      modelled. *)

From Stdlib Require Import QArith Qcanon ZArith List Lia Permutation.
From Stdlib Require PrimFloat Uint63.
From stdpp Require Import gmap list.

Local Open Scope Qc_scope.

(** ** Numbers, vectors and matrices *)

(** [float(z)] for a Python integer [z]. *)
Definition of_Z (z : Z) : Qc := Q2Qc (inject_Z z).
Definition of_nat (n : nat) : Qc := of_Z (Z.of_nat n).

Definition zeros (k : nat) : list Qc := repeat 0 k.
Definition vadd (u v : list Qc) : list Qc := zip_with Qcplus u v.
Definition vsub (u v : list Qc) : list Qc := zip_with Qcminus u v.
Definition vscale (c : Qc) (v : list Qc) : list Qc := map (Qcmult c) v.
Definition vopp (v : list Qc) : list Qc := map Qcopp v.
Definition vsum (v : list Qc) : Qc := foldr Qcplus 0 v.
Definition dot (u v : list Qc) : Qc := vsum (zip_with Qcmult u v).

(** [m[i, j]], with 0 outside the array (bounds are checked by the
    accessors below, this is the raw read). *)
Definition entry (m : list (list Qc)) (i j : nat) : Qc := nth j (nth i m []) 0.

(** [m.shape] *)
Definition nrows (m : list (list Qc)) : nat := length m.
Definition ncols (m : list (list Qc)) : nat := length (hd [] m).

(** A rectangular [n] x [w] array. *)
Definition rect (n w : nat) (m : list (list Qc)) : Prop :=
  length m = n ∧ Forall (λ r, length r = w) m.

(** [m.T] for a rectangular array: row [k] of the result is column [k]. *)
Definition column (k : nat) (m : list (list Qc)) : list Qc := map (λ r, nth k r 0) m.
Definition transpose (m : list (list Qc)) : list (list Qc) :=
  map (λ k, column k m) (seq 0 (ncols m)).

Definition identity (n : nat) : list (list Qc) :=
  map (λ i, map (λ j, if decide (i = j) then 1 else 0) (seq 0 n)) (seq 0 n).

(** Finite sums [f 0 + ... + f (n-1)], used to state what the array
    operations compute. *)
Fixpoint bigsum (n : nat) (f : nat → Qc) : Qc :=
  match n with
  | O => 0
  | S k => bigsum k f + f k
  end.

Definition delta (i j : nat) : Qc := if decide (i = j) then 1 else 0.

(** ** Outcomes of a Python call *)

Inductive exn : Set :=
  | IndexError | ValueError | TypeError | ZeroDivisionError | LinAlgError.

Inductive outcome (A : Type) : Type :=
  | Ok (a : A)
  | Raise (e : exn)
  | NonFinite.
Arguments Ok {A} a.
Arguments Raise {A} e.
Arguments NonFinite {A}.

Definition obind {A B} (o : outcome A) (f : A → outcome B) : outcome B :=
  match o with
  | Ok a => f a
  | Raise e => Raise e
  | NonFinite => NonFinite
  end.

#[global] Instance outcome_ret : MRet outcome := λ A a, Ok a.
#[global] Instance outcome_bind : MBind outcome := λ A B f o, obind o f.

(** A pure loop [for x in l: acc = body(x, acc)] that stops at the first
    exception. *)
Fixpoint ofold {A B} (l : list A) (acc : B) (body : A → B → outcome B) : outcome B :=
  match l with
  | [] => Ok acc
  | x :: xs => obind (body x acc) (λ acc', ofold xs acc' body)
  end.

(** ** numpy and Python primitives *)

(** [x / y] on Python floats. *)
Definition py_div (x y : Qc) : outcome Qc :=
  if decide (y = 0) then Raise ZeroDivisionError else Ok (x / y).

(** [m[i, :]] *)
Definition row_at (m : list (list Qc)) (i : nat) : outcome (list Qc) :=
  match m !! i with
  | Some r => Ok r
  | None => Raise IndexError
  end.

(** [v[j]] *)
Definition item_at (v : list Qc) (j : nat) : outcome Qc :=
  match v !! j with
  | Some x => Ok x
  | None => Raise IndexError
  end.

(** [m[i, j]] *)
Definition item2_at (m : list (list Qc)) (i j : nat) : outcome Qc :=
  obind (row_at m i) (λ r, item_at r j).

(** [m[i, j] = x] *)
Definition set_item2 (m : list (list Qc)) (i j : nat) (x : Qc) : outcome (list (list Qc)) :=
  match m !! i with
  | Some r => if decide (j < length r)%nat
              then Ok (<[i := <[j := x]> r]> m)
              else Raise IndexError
  | None => Raise IndexError
  end.

(** [m[i, :] = v]: [v] must have the width of [m], or length 1, in which
    case it is broadcast. *)
Definition set_row (m : list (list Qc)) (i : nat) (v : list Qc) : outcome (list (list Qc)) :=
  match m !! i with
  | Some r =>
      if decide (length v = length r) then Ok (<[i := v]> m)
      else match v with
           | [x] => Ok (<[i := repeat x (length r)]> m)
           | _ => Raise ValueError
           end
  | None => Raise IndexError
  end.

(** [np.zeros(shape)] *)
Definition np_zeros (n w : nat) : list (list Qc) := repeat (zeros w) n.

(** [np.mean(m, axis=0)]: the column means; nan (no value here) when [m]
    has no rows. *)
Definition colsum (m : list (list Qc)) : list Qc :=
  match m with
  | [] => []
  | r :: rs => fold_left vadd rs r
  end.

Definition np_mean0 (m : list (list Qc)) : option (list Qc) :=
  match m with
  | [] => None
  | _ => Some (map (λ s, s / of_nat (length m)) (colsum m))
  end.

(** The result of [np.cov]: after [squeeze], a 0-d array when there is a
    single variable, a 2-D array otherwise; [ArrNaN] is an array of nan. *)
Inductive ndarray : Type :=
  | ArrNaN
  | Arr0 (x : Qc)
  | Arr2 (m : list (list Qc)).

Definition center (x : list Qc) : list Qc :=
  let avg := vsum x / of_nat (length x) in map (λ v, v - avg) x.

(** [c.squeeze()] for a 2-D array [c]: the axes of length 1 are removed,
    which changes the rank only for a 1 x 1 array. *)
Definition squeeze (c : list (list Qc)) : ndarray :=
  match c with
  | [[v]] => Arr0 v
  | _ => Arr2 c
  end.

(** The body of [np.cov] once each row of [X] holds one variable: without
    variables the result is the empty array; the normalisation [fact] is
    the number of observations minus one, and the result is nan when that
    is not positive; each variable is centred, [c = dot(X, X.T)] is scaled
    by [1 / fact], and the result is squeezed. *)
Definition cov_variables (X : list (list Qc)) : ndarray :=
  match X with
  | [] => Arr2 []
  | x0 :: _ =>
      let fact := (Z.of_nat (length x0) - 1)%Z in
      if decide (fact ≤ 0)%Z then ArrNaN
      else
        let Xc := map center X in
        squeeze (map (λ xk, map (λ xl, dot xk xl * (1 / of_Z fact)) Xc) Xc)
  end.

(** [np.cov(m, rowvar=0)]: the array is transposed so that each row holds
    one variable, unless it has exactly one row.  An array without rows
    gives nan. *)
Definition np_cov (m : list (list Qc)) : ndarray :=
  match m with
  | [] => ArrNaN
  | _ => cov_variables (if decide (length m = 1%nat) then m else transpose m)
  end.

(** *** Matrix inversion

    [np.linalg.inv] is modelled by Gauss-Jordan elimination on the rows of
    [A | I], kept as pairs (left part, right part); it fails when a column
    has no pivot, which in exact arithmetic happens on singular matrices
    only ([inverse_sound] and [inverse_complete] below).

    In double precision numpy raises only when LAPACK meets a pivot that
    is exactly zero.  A covariance matrix that is singular before rounding
    but not after (a constant gradient column whose mean is not
    representable, two proportional columns) is inverted by the program
    and rejected by this model; the two agree where the covariance is
    computed without rounding, as for a gradient column of zeros.  The
    inversion on binary64 numbers is [Double.np_linalg_inv] below. *)

Fixpoint find_pivot (c : nat) (rows : list (list Qc * list Qc))
  : option (list Qc * list Qc * list (list Qc * list Qc)) :=
  match rows with
  | [] => None
  | r :: rs =>
      if decide (nth c (fst r) 0 = 0)
      then match find_pivot c rs with
           | Some (p, rest) => Some (p, r :: rest)
           | None => None
           end
      else Some (r, rs)
  end.

Definition scale_row (k : Qc) (r : list Qc * list Qc) : list Qc * list Qc :=
  (vscale k (fst r), vscale k (snd r)).

(** [r - (r.left[c]) * p] *)
Definition eliminate (c : nat) (p r : list Qc * list Qc) : list Qc * list Qc :=
  let f := nth c (fst r) 0 in
  (vsub (fst r) (vscale f (fst p)), vsub (snd r) (vscale f (snd p))).

Fixpoint gauss_jordan (cols : list nat) (done todo : list (list Qc * list Qc))
  : option (list (list Qc * list Qc)) :=
  match cols with
  | [] => Some done
  | c :: cs =>
      match find_pivot c todo with
      | None => None
      | Some (p, rest) =>
          let p' := scale_row (/ nth c (fst p) 0) p in
          gauss_jordan cs (map (eliminate c p') done ++ [p']) (map (eliminate c p') rest)
      end
  end.

Definition inverse (A : list (list Qc)) : option (list (list Qc)) :=
  let n := length A in
  match gauss_jordan (seq 0 n) [] (zip A (identity n)) with
  | Some rows => Some (map snd rows)
  | None => None
  end.

(** [np.linalg.inv(a)]: [LinAlgError] on a 0-d array, on an array that is
    not square and on a singular matrix. *)
Definition np_linalg_inv (a : ndarray) : outcome (list (list Qc)) :=
  match a with
  | ArrNaN => NonFinite
  | Arr0 _ => Raise LinAlgError
  | Arr2 m =>
      if forallb (λ r, Nat.eqb (length r) (length m)) m
      then match inverse m with
           | Some b => Ok b
           | None => Raise LinAlgError
           end
      else Raise LinAlgError
  end.

(** [np.dot(u, v)] on 1-D arrays. *)
Definition np_dot (u v : list Qc) : outcome Qc :=
  if decide (length u = length v) then Ok (dot u v) else Raise ValueError.

(** [np.matmul(m, v)] for a 2-D [m] and a 1-D [v]. *)
Definition np_matmul (m : list (list Qc)) (v : list Qc) : outcome (list Qc) :=
  if forallb (λ r, Nat.eqb (length r) (length v)) m && Nat.eqb (ncols m) (length v)
  then Ok (map (λ r, dot r v) m)
  else Raise ValueError.

(** [cur += v] on a 1-D array [cur]: [v] has the length of [cur] or is
    broadcast from length 1. *)
Definition iadd (cur v : list Qc) : outcome (list Qc) :=
  if decide (length v = length cur) then Ok (vadd cur v)
  else match v with
       | [x] => Ok (map (λ c, c + x) cur)
       | _ => Raise ValueError
       end.

(** [int(np.dot(np.squeeze(beta), np.squeeze(x)) >= 0.0)].  [squeeze] turns
    a vector of length 1 into a 0-d array, and the product of a 0-d array
    with a longer vector is a vector, which [int] refuses. *)
Definition predict (beta x : list Qc) : outcome Z :=
  if decide (length beta = length x)
  then Ok (if bool_decide (0 ≤ dot beta x) then 1%Z else 0%Z)
  else if decide (length beta = 1%nat ∨ length x = 1%nat)
       then Raise TypeError
       else Raise ValueError.

(** ** The object, the store and the monad of method bodies *)

Definition loc : Type := positive.

(** The fields of a fitted [LRHMC] object that [postprocess] and [logloss]
    use.  [X_test] and [y_test] are arrays that no method writes to and are
    held by value; [sample] and [logpost_sample] are references into the
    store.  The training data, the Stan model and the fitted Stan object
    are left to the collaborators below. *)
Record LRHMC : Type := mkLRHMC {
  X_test : list (list Qc);
  y_test : list Z;
  d : nat;
  test_size : nat;
  n_iters : nat;
  sample : loc;
  logpost_sample : loc
}.

(** What [print] has written: one line per call, holding the two numbers
    that the format string shows. *)
Record state : Type := mkState {
  self : LRHMC;
  heap : gmap loc (list (list Qc));
  stdout : list (Qc * Qc)
}.

#[warnings="-register-all"]
Inductive pyvalue : Type :=
  | PyNone
  | PyFloat (x : Qc)
  | PyArray (l : loc)
  | PyTuple (vs : list pyvalue).

Definition M (A : Type) : Type := state → state * outcome A.

#[global] Instance M_ret : MRet M := λ A a st, (st, Ok a).
#[global] Instance M_bind : MBind M := λ A B f m st,
  match m st with
  | (st', Ok a) => f a st'
  | (st', Raise e) => (st', Raise e)
  | (st', NonFinite) => (st', NonFinite)
  end.

Definition lift {A} (o : outcome A) : M A := λ st, (st, o).

(** [self.f] *)
Definition attr {A} (f : LRHMC → A) : M A := λ st, (st, Ok (f (self st))).

(** [self.f = v] *)
Definition set_attr (upd : LRHMC → LRHMC) : M unit :=
  λ st, (mkState (upd (self st)) (heap st) (stdout st), Ok tt).

(** The array behind a reference.  A reference that the store does not
    hold reads as the empty array; this cannot happen to a reference of a
    Python object, and the statements below assume live references where
    it matters. *)
Definition deref (l : loc) : M (list (list Qc)) :=
  λ st, (st, Ok (default [] (heap st !! l))).

Definition store (l : loc) (m : list (list Qc)) : M unit :=
  λ st, (mkState (self st) (<[l := m]> (heap st)) (stdout st), Ok tt).

(** A new array object. *)
Definition alloc (m : list (list Qc)) : M loc :=
  λ st, let l := fresh (dom (heap st)) in
        (mkState (self st) (<[l := m]> (heap st)) (stdout st), Ok l).

Definition print (old new : Qc) : M unit :=
  λ st, (mkState (self st) (heap st) (stdout st ++ [(old, new)]), Ok tt).

Definition getitem2 (l : loc) (i j : nat) : M Qc :=
  m ← deref l; lift (item2_at m i j).

Definition getrow (l : loc) (i : nat) : M (list Qc) :=
  m ← deref l; lift (row_at m i).

Definition setitem2 (l : loc) (i j : nat) (x : Qc) : M unit :=
  m ← deref l; m' ← lift (set_item2 m i j x); store l m'.

Definition setrow (l : loc) (i : nat) (v : list Qc) : M unit :=
  m ← deref l; m' ← lift (set_row m i v); store l m'.

(** [for x in l: body(x)] *)
Fixpoint for_each {A} (l : list A) (body : A → M unit) : M unit :=
  match l with
  | [] => mret tt
  | x :: xs => body x;; for_each xs body
  end.

(** A loop that updates a local variable. *)
Fixpoint for_fold {A B} (l : list A) (acc : B) (body : A → B → M B) : M B :=
  match l with
  | [] => mret acc
  | x :: xs => acc' ← body x acc; for_fold xs acc' body
  end.

(** [sample_mean[j]] and [row - grad_mean], where the mean may be nan. *)
Definition mean_item (mean : option (list Qc)) (j : nat) : outcome Qc :=
  match mean with
  | Some v => item_at v j
  | None => NonFinite
  end.

Definition sub_mean (row : list Qc) (mean : option (list Qc)) : outcome (list Qc) :=
  match mean with
  | Some v => Ok (vsub row v)
  | None => NonFinite
  end.

Section Methods.

(** The collaborators: the draws of [beta] that a Stan run of [iter]
    iterations on one chain returns, the gradient of the log posterior of
    the fitted model, and [sklearn.metrics.log_loss]. *)
Variable stan_draws : nat → list (list Qc).
Variable grad_log_prob : list Qc → list Qc.
Variable log_loss : list Z → list Z → outcome Qc.

(** [LRHMC.fit], lines 71-79. *)
Definition fit (n : nat) : M pyvalue :=
  set_attr (λ o, mkLRHMC (X_test o) (y_test o) (d o) (test_size o) n
                         (sample o) (logpost_sample o));;
  n1 ← attr n_iters;
  beta ← alloc (stan_draws (2 * n1));
  set_attr (λ o, mkLRHMC (X_test o) (y_test o) (d o) (test_size o) (n_iters o)
                         beta (logpost_sample o));;
  s ← attr sample;
  shape ← deref s;
  lp ← alloc (np_zeros (nrows shape) (ncols shape));
  set_attr (λ o, mkLRHMC (X_test o) (y_test o) (d o) (test_size o) (n_iters o)
                         (sample o) lp);;
  n2 ← attr n_iters;
  for_each (seq 0 n2) (λ i,
    s ← attr sample;
    r ← getrow s i;
    g ← attr logpost_sample;
    setrow g i (grad_log_prob r));;
  mret PyNone.

(** [LRHMC.logloss], lines 128-136. *)
Definition logloss (sample_arg : loc) : M Qc :=
  n ← attr n_iters;
  for_fold (seq 0 n) 0 (λ m logloss_acc,
    ts ← attr test_size;
    beta ← getrow sample_arg m;
    ts' ← attr test_size;
    y_pred ← for_fold (seq 0 ts') (repeat 0%Z ts) (λ i y_pred,
      xt ← attr X_test;
      x ← lift (row_at xt i);
      b ← lift (predict beta x);
      mret (<[i := b]> y_pred));
    yt ← attr y_test;
    ll ← lift (log_loss yt y_pred);
    n' ← attr n_iters;
    q ← lift (py_div ll (of_nat n'));
    mret (logloss_acc + q)).

(** [LRHMC.postprocess], lines 96-113: the control-variate pass, up to the
    point where [out_sample] is complete.  The arrays bound to [a] and
    [current_cov] on lines 102-103 are never read: both names are bound
    again inside the loop before their first use. *)
Definition postprocess_adjust : M loc :=
  s ← attr sample;
  s_arr ← deref s;
  let sample_mean := np_mean0 s_arr in
  g ← attr logpost_sample;
  g_arr ← deref g;
  let grad_mean := np_mean0 g_arr in
  let var_grad := np_cov g_arr in
  out_sample ← alloc (np_zeros (nrows s_arr) (ncols s_arr));
  dim ← attr d;
  for_each (seq 0 dim) (λ j,
    dim' ← attr d;
    n ← attr n_iters;
    current_cov ← for_fold (seq 0 n) (zeros dim') (λ i current_cov,
      n' ← attr n_iters;
      w ← lift (py_div 1 (of_Z (Z.of_nat n' - 1)));
      s ← attr sample;
      sij ← getitem2 s i j;
      mj ← lift (mean_item sample_mean j);
      g ← attr logpost_sample;
      gi ← getrow g i;
      dev ← lift (sub_mean gi grad_mean);
      lift (iadd current_cov (vscale (w * (sij - mj)) dev)));
    vinv ← lift (np_linalg_inv var_grad);
    prod ← lift (np_matmul vinv current_cov);
    let a := vopp prod in
    n ← attr n_iters;
    for_each (seq 0 n) (λ i,
      s ← attr sample;
      sij ← getitem2 s i j;
      g ← attr logpost_sample;
      gi ← getrow g i;
      dt ← lift (np_dot a gi);
      setitem2 out_sample i j (sij + dt)));;
  mret out_sample.

(** [LRHMC.postprocess], the whole body: the pass above, the two
    evaluations and the [print] statement.  The body has no [return]. *)
Definition postprocess : M pyvalue :=
  out_sample ← postprocess_adjust;
  s ← attr sample;
  oldll ← logloss s;
  newll ← logloss out_sample;
  print oldll newll;;
  mret PyNone.

End Methods.

(** ** The loops as functions of the array contents

    The same statements as in the method bodies, read on the contents [S]
    of [self.sample] and [G] of [self.logpost_sample] instead of through
    the store.  The run lemmas below show that the method bodies compute
    exactly these, because [out_sample] is a new object. *)

(** Lines 107-110, for one [j]. *)
Definition cross_cov_code (n dim : nat) (S G : list (list Qc)) (j : nat)
  : outcome (list Qc) :=
  ofold (seq 0 n) (zeros dim) (λ i current_cov,
    w ← py_div 1 (of_Z (Z.of_nat n - 1));
    sij ← item2_at S i j;
    mj ← mean_item (np_mean0 S) j;
    gi ← row_at G i;
    dev ← sub_mean gi (np_mean0 G);
    iadd current_cov (vscale (w * (sij - mj)) dev)).

(** Lines 107-111, for one [j]. *)
Definition coef_code (n dim : nat) (S G : list (list Qc)) (j : nat)
  : outcome (list Qc) :=
  cc ← cross_cov_code n dim S G j;
  vinv ← np_linalg_inv (np_cov G);
  prod ← np_matmul vinv cc;
  Ok (vopp prod).

(** Line 113, for one [i]. *)
Definition fill_item (S G : list (list Qc)) (a : list Qc) (j i : nat)
    (out : list (list Qc)) : outcome (list (list Qc)) :=
  sij ← item2_at S i j;
  gi ← row_at G i;
  dt ← np_dot a gi;
  set_item2 out i j (sij + dt).

(** Lines 112-113: the contents of [out_sample] after the loop, and how
    the loop ended. *)
Fixpoint fill_col (rows : list nat) (S G : list (list Qc)) (a : list Qc) (j : nat)
    (out : list (list Qc)) : list (list Qc) * outcome unit :=
  match rows with
  | [] => (out, Ok tt)
  | i :: rows' =>
      match fill_item S G a j i out with
      | Ok out' => fill_col rows' S G a j out'
      | Raise e => (out, Raise e)
      | NonFinite => (out, NonFinite)
      end
  end.

(** Lines 107-113, for one [j]. *)
Definition adjust_col (n dim : nat) (S G : list (list Qc)) (j : nat)
    (out : list (list Qc)) : list (list Qc) * outcome unit :=
  match coef_code n dim S G j with
  | Ok a => fill_col (seq 0 n) S G a j out
  | Raise e => (out, Raise e)
  | NonFinite => (out, NonFinite)
  end.

(** Lines 106-113. *)
Fixpoint adjust_cols (cols : list nat) (n dim : nat) (S G out : list (list Qc))
  : list (list Qc) * outcome unit :=
  match cols with
  | [] => (out, Ok tt)
  | j :: cols' =>
      match adjust_col n dim S G j out with
      | (out', Ok _) => adjust_cols cols' n dim S G out'
      | (out', Raise e) => (out', Raise e)
      | (out', NonFinite) => (out', NonFinite)
      end
  end.

Definition adjust_code (n dim : nat) (S G : list (list Qc))
  : list (list Qc) * outcome unit :=
  adjust_cols (seq 0 dim) n dim S G (np_zeros (nrows S) (ncols S)).

(** Lines 130-134, for one draw. *)
Definition predict_code (Xt : list (list Qc)) (ts : nat) (beta : list Qc)
  : outcome (list Z) :=
  ofold (seq 0 ts) (repeat 0%Z ts) (λ i y_pred,
    x ← row_at Xt i;
    b ← predict beta x;
    Ok (<[i := b]> y_pred)).

(** Lines 130-135, for one draw: the term added to the total. *)
Definition draw_loss (log_loss : list Z → list Z → outcome Qc) (o : LRHMC)
    (beta : list Qc) : outcome Qc :=
  y_pred ← predict_code (X_test o) (test_size o) beta;
  ll ← log_loss (y_test o) y_pred;
  py_div ll (of_nat (n_iters o)).

(** Lines 128-136. *)
Definition logloss_code (log_loss : list Z → list Z → outcome Qc) (o : LRHMC)
    (S : list (list Qc)) : outcome Qc :=
  ofold (seq 0 (n_iters o)) 0 (λ m acc,
    beta ← row_at S m;
    q ← draw_loss log_loss o beta;
    Ok (acc + q)).

(** The array that a call returned, read in the store it left. *)
Definition result_array (r : state * outcome loc) : outcome (list (list Qc)) :=
  match r.2 with
  | Ok l => Ok (default [] (heap r.1 !! l))
  | Raise e => Raise e
  | NonFinite => NonFinite
  end.

(** ** The quantities of the specification *)

(** Mean and unbiased covariance (divisor: number of observations minus
    one) of two columns, the means being those of the whole columns. *)
Definition mean (xs : list Qc) : Qc := vsum xs / of_nat (length xs).

Definition covariance (xs ys : list Qc) : Qc :=
  vsum (zip_with (λ x y, (x - mean xs) * (y - mean ys)) xs ys)
  / of_Z (Z.of_nat (length xs) - 1).

(** [var_grad]: the covariance matrix of the gradient columns. *)
Definition var_grad_spec (G : list (list Qc)) : list (list Qc) :=
  map (λ k, map (λ l, covariance (column k G) (column l G)) (seq 0 (ncols G)))
      (seq 0 (ncols G)).

(** [cross_cov_j]: entry [k] is the covariance of sample column [j] with
    gradient column [k]. *)
Definition cross_cov_spec (dim : nat) (S G : list (list Qc)) (j : nat) : list Qc :=
  map (λ k, covariance (column j S) (column k G)) (seq 0 dim).

(** Matrix product and matrix-vector product. *)
Definition mmul (A B : list (list Qc)) : list (list Qc) :=
  map (λ r, map (λ k, dot r (column k B)) (seq 0 (ncols B))) A.
Definition mvmul (A : list (list Qc)) (v : list Qc) : list Qc := map (λ r, dot r v) A.

(** [a_j = - V . cross_cov_j], [V] being the inverse of [var_grad]. *)
Definition coef_spec (V : list (list Qc)) (dim : nat) (S G : list (list Qc)) (j : nat)
  : list Qc :=
  vopp (mvmul V (cross_cov_spec dim S G j)).

(** [adjusted[i, j] = sample[i, j] + dot(a_j, gradient[i, :])] *)
Definition adjusted_spec (V : list (list Qc)) (dim : nat) (S G : list (list Qc))
  : list (list Qc) :=
  map (λ i, map (λ j, entry S i j + dot (coef_spec V dim S G j) (nth i G []))
                (seq 0 dim))
      (seq 0 (length S)).

(** [B] is a two-sided inverse of the square matrix [A]. *)
Definition is_inverse (A B : list (list Qc)) : Prop :=
  mmul A B = identity (length A) ∧ mmul B A = identity (length A).

(** [var_grad] has no inverse (for a single variable, where [np.cov]
    returns a 0-d array: the variance is zero). *)
Definition singular (a : ndarray) : Prop :=
  match a with
  | ArrNaN => False
  | Arr0 x => x = 0
  | Arr2 m => ¬ ∃ b, is_inverse m b
  end.

(** The hard prediction of one held-out row under one draw, and the
    prediction vector of a draw. *)
Definition hard_prediction (beta x : list Qc) : Z :=
  if bool_decide (0 ≤ dot x beta) then 1%Z else 0%Z.

Definition predictions_spec (Xt : list (list Qc)) (beta : list Qc) : list Z :=
  map (hard_prediction beta) Xt.

(** [total += logloss_m / n_iters] for [m] in [0 .. n_iters - 1]. *)
Definition logloss_spec (n : nat) (loss : nat → Qc) : Qc :=
  fold_left (λ total m, total + loss m / of_nat n) (seq 0 n) 0.

(** A fitted chain in the store: both arrays exist and have [n_iters]
    rows of [d] entries. *)
Definition fitted (st : state) (S G : list (list Qc)) : Prop :=
  heap st !! sample (self st) = Some S ∧
  heap st !! logpost_sample (self st) = Some G ∧
  rect (n_iters (self st)) (d (self st)) S ∧
  rect (n_iters (self st)) (d (self st)) G.

(** A held-out set that matches the parameter dimension, as [__init__]
    sets it up. *)
Definition held_out_ok (o : LRHMC) : Prop :=
  test_size o = length (X_test o) ∧ Forall (λ x, length x = d o) (X_test o).

(** ** scikit-learn's [log_loss] on hard predictions

    For binary labels and predictions in {0, 1}, clipped to
    [eps, 1 - eps], the loss of a row is [- log (1 - eps)] when the
    prediction is the (binarised) label and [- log eps] otherwise; the
    result is the average over the rows.  The two logarithms are the
    parameters [pen_hit] and [pen_miss].  The labels are binarised with
    the larger one as the positive class; fewer or more than two classes,
    and arrays of different lengths, are rejected with [ValueError]. *)
Definition penalty (pen_hit pen_miss : Qc) (pos : Z) (t p : Z) : Qc :=
  if bool_decide (t = pos ↔ p = 1%Z) then pen_hit else pen_miss.

Definition label_max (ys : list Z) : Z :=
  match ys with
  | [] => 0%Z
  | y :: ys' => foldr Z.max y ys'
  end.

Definition label_min (ys : list Z) : Z :=
  match ys with
  | [] => 0%Z
  | y :: ys' => foldr Z.min y ys'
  end.

Definition two_classes (ys : list Z) : bool :=
  bool_decide ((label_min ys < label_max ys)%Z ∧
               Forall (λ y, y = label_min ys ∨ y = label_max ys) ys).

Definition sk_log_loss (pen_hit pen_miss : Qc) (y_true y_pred : list Z) : outcome Qc :=
  if decide (length y_true = length y_pred) then
    if two_classes y_true then
      Ok (vsum (zip_with (penalty pen_hit pen_miss (label_max y_true)) y_true y_pred)
          / of_nat (length y_true))
    else Raise ValueError
  else Raise ValueError.

(** ** Auxiliary notions for the proofs *)

(** The state with another store. *)
Definition with_heap (st : state) (h : gmap loc (list (list Qc))) : state :=
  mkState (self st) h (stdout st).

(** The two references of [self] point to arrays of the store, as the
    references of a Python object always do. *)
Definition refs_live (st : state) : Prop :=
  is_Some (heap st !! sample (self st)) ∧
  is_Some (heap st !! logpost_sample (self st)).

(** The whole body of [postprocess] on the array contents: the final
    contents of [out_sample] and the pair that is printed. *)
Definition postprocess_code (log_loss : list Z → list Z → outcome Qc) (o : LRHMC)
    (S G : list (list Qc)) : list (list Qc) * outcome (Qc * Qc) :=
  match adjust_code (n_iters o) (d o) S G with
  | (out, Ok _) =>
      (out, old ← logloss_code log_loss o S;
            new ← logloss_code log_loss o out;
            Ok (old, new))
  | (out, Raise e) => (out, Raise e)
  | (out, NonFinite) => (out, NonFinite)
  end.

Definition printed (r : outcome (Qc * Qc)) : list (Qc * Qc) :=
  match r with
  | Ok p => [p]
  | _ => []
  end.

(** Lines 78-79 of [fit] on the array contents: [D] is [self.sample],
    [cur] is [self.logpost_sample]. *)
Fixpoint grad_rows (rows : list nat) (grad_log_prob : list Qc → list Qc)
    (D cur : list (list Qc)) : list (list Qc) * outcome unit :=
  match rows with
  | [] => (cur, Ok tt)
  | i :: rows' =>
      match r ← row_at D i; set_row cur i (grad_log_prob r) with
      | Ok cur' => grad_rows rows' grad_log_prob D cur'
      | Raise e => (cur, Raise e)
      | NonFinite => (cur, NonFinite)
      end
  end.

(** Invariants of the elimination on [A | I] for an [n] x [n] matrix [A]:
    a row [(l, r)] satisfies [r . A = l]; a matrix [X] solves the system
    [l . X = r] of the rows; [X] is a right inverse of [A]; and, once the
    columns below [k] are done, the left parts of [done] are unit vectors
    there and those of [todo] are zero there. *)
Definition good (n : nat) (A : list (list Qc)) (row : list Qc * list Qc) : Prop :=
  length row.1 = n ∧ length row.2 = n ∧
  ∀ j, (j < n)%nat → bigsum n (λ i, nth i row.2 0 * entry A i j) = nth j row.1 0.

Definition solves (n : nat) (X : nat → nat → Qc) (rows : list (list Qc * list Qc)) : Prop :=
  ∀ row, row ∈ rows → ∀ j, (j < n)%nat →
    bigsum n (λ i, nth i row.1 0 * X i j) = nth j row.2 0.

Definition right_inverse (n : nat) (A : list (list Qc)) (X : nat → nat → Qc) : Prop :=
  ∀ a j, (a < n)%nat → (j < n)%nat → bigsum n (λ i, entry A a i * X i j) = delta a j.

Definition reduced (k : nat) (done todo : list (list Qc * list Qc)) : Prop :=
  length done = k ∧
  (∀ i j, (i < k)%nat → (j < k)%nat → nth j (nth i done ([], [])).1 0 = delta i j) ∧
  (∀ row, row ∈ todo → ∀ j, (j < k)%nat → nth j row.1 0 = 0).

Definition elim_inv (n : nat) (A : list (list Qc)) (k : nat)
    (done todo : list (list Qc * list Qc)) : Prop :=
  length todo = (n - k)%nat ∧
  reduced k done todo ∧
  Forall (good n A) (done ++ todo) ∧
  (∀ X, solves n X (done ++ todo) → right_inverse n A X).


(** ** Example chains

    Three draws of a two-dimensional parameter, with a gradient sample
    whose covariance matrix is invertible, one whose second gradient
    column is zero and one that is zero altogether; a held-out set of two
    rows. *)
Definition q (a : Z) (b : positive) : Qc := Q2Qc (a # b).

Definition ex_S : list (list Qc) :=
  [[q 1 1; q 2 1]; [q 3 1; q 1 1]; [q 2 1; q 5 1]].
Definition ex_G : list (list Qc) :=
  [[q 1 1; q 0 1]; [q 0 1; q 1 1]; [q (-1) 1; q (-1) 1]].
Definition ex_G_zero_column : list (list Qc) :=
  [[q 1 1; q 0 1]; [q 2 1; q 0 1]; [q 4 1; q 0 1]].

Definition ex_self : LRHMC :=
  mkLRHMC [[q 1 1; q (-1) 1]; [q (-1) 1; q 0 1]] [1%Z; 0%Z] 2 2 3 1%positive 2%positive.

Definition ex_state_with (G : list (list Qc)) : state :=
  mkState ex_self (<[1%positive := ex_S]> (<[2%positive := G]> ∅)) [].

Definition ex_state : state := ex_state_with ex_G.

(** A chain of a single draw. *)
Definition ex_state_one : state :=
  mkState (mkLRHMC (X_test ex_self) (y_test ex_self) 2 2 1 1%positive 2%positive)
          (<[1%positive := [[q 1 1; q 2 1]]]> (<[2%positive := [[q 1 1; q 0 1]]]> ∅)) [].

(** An object on which [fit] has not run yet. *)
Definition ex_state_new : state :=
  mkState (mkLRHMC (X_test ex_self) (y_test ex_self) 2 2 0 1%positive 1%positive) ∅ [].

(** Stand-ins for the two penalties [- log (1 - eps)] and [- log eps], a
    sampler that returns [ex_S] whatever is asked, and the gradient of a
    standard normal log density. *)
Definition ex_log_loss : list Z → list Z → outcome Qc :=
  sk_log_loss (q 1 1000) (q 35 1).
Definition ex_stan_draws (iter : nat) : list (list Qc) := ex_S.
Definition ex_grad_log_prob (x : list Qc) : list Qc := vopp x.


(** The example chain with [n_iters] one more than the draws at hand. *)
Definition ex_state_over : state :=
  mkState (mkLRHMC (X_test ex_self) (y_test ex_self) 2 2 4 1%positive 2%positive)
          (heap ex_state) [].

(** The example chain with its first two draws exchanged, and with the two
    held-out rows exchanged together with their labels. *)
Definition ex_S_swapped : list (list Qc) :=
  [[q 3 1; q 1 1]; [q 1 1; q 2 1]; [q 2 1; q 5 1]].

Definition ex_state_draws_swapped : state :=
  mkState ex_self (<[1%positive := ex_S_swapped]> (<[2%positive := ex_G]> ∅)) [].

Definition ex_pairs : list (list Qc * Z) :=
  [([q 1 1; q (-1) 1], 1%Z); ([q (-1) 1; q 0 1], 0%Z)].
Definition ex_pairs_swapped : list (list Qc * Z) :=
  [([q (-1) 1; q 0 1], 0%Z); ([q 1 1; q (-1) 1], 1%Z)].

Definition ex_state_rows_swapped : state :=
  mkState (mkLRHMC (map fst ex_pairs_swapped) (map snd ex_pairs_swapped)
                   2 2 3 1%positive 2%positive)
          (heap ex_state) [].

(** The same chain held by another object at other references. *)
Definition ex_state_moved : state :=
  mkState (mkLRHMC (X_test ex_self) (y_test ex_self) 2 2 3 5%positive 7%positive)
          (<[5%positive := ex_S]> (<[7%positive := ex_G]> (<[1%positive := ex_G]> ∅))) [].

(** The loss of each example draw. *)
Definition ex_loss (m : nat) : Qc :=
  match ex_log_loss (y_test ex_self) (predictions_spec (X_test ex_self) (nth m ex_S [])) with
  | Ok v => v
  | _ => 0
  end.


(** Further example chains: a draw wider than the held-out rows, a
    one-dimensional chain, the example draws doubled, a sample whose first
    column is constant, the example gradient tripled, and the example
    chain as (draw, gradient) pairs, in order and with its first two pairs
    exchanged. *)
Definition ex_state_wide : state :=
  mkState ex_self (<[1%positive := [[q 1 1; q 2 1; q 3 1]]]> ∅) [].

Definition ex_state_scalar : state :=
  mkState (mkLRHMC [[q 1 1]; [q (-1) 1]] [1%Z; 0%Z] 1 2 3 1%positive 2%positive)
          (<[1%positive := [[q 1 1]; [q 3 1]; [q 2 1]]]>
             (<[2%positive := [[q 1 1]; [q 0 1]; [q (-1) 1]]]> ∅)) [].



Definition ex_state_scaled : state :=
  mkState ex_self
          (<[1%positive := ex_S]> (<[2%positive := map (vscale (q 2 1)) ex_S]> ∅)) [].

Definition ex_state_tempered : state :=
  mkState ex_self (<[1%positive := ex_S]> (<[2%positive := map (vscale (q 3 1)) ex_G]> ∅)) [].

Definition ex_rows : list (list Qc * list Qc) :=
  [([q 1 1; q 2 1], [q 1 1; q 0 1]); ([q 3 1; q 1 1], [q 0 1; q 1 1]);
   ([q 2 1; q 5 1], [q (-1) 1; q (-1) 1])].
Definition ex_rows_swapped : list (list Qc * list Qc) :=
  [([q 3 1; q 1 1], [q 0 1; q 1 1]); ([q 1 1; q 2 1], [q 1 1; q 0 1]);
   ([q 2 1; q 5 1], [q (-1) 1; q (-1) 1])].
Definition ex_state_chain_swapped : state :=
  mkState ex_self (<[1%positive := map fst ex_rows_swapped]>
                     (<[2%positive := map snd ex_rows_swapped]> ∅)) [].

(** An object with [n_iters = 2] that holds the three example draws, and
    the same draws with the last two exchanged. *)
Definition ex_S_rotated : list (list Qc) :=
  [[q 1 1; q 2 1]; [q 2 1; q 5 1]; [q 3 1; q 1 1]].

Definition ex_state_two : state :=
  mkState (mkLRHMC (X_test ex_self) (y_test ex_self) 2 2 2 1%positive 2%positive)
          (<[1%positive := ex_S]> (<[2%positive := ex_S_rotated]> ∅)) [].


(** Three gradients whose second entry is always the double nearest to
    0.1, as rationals. *)
Definition ex_G_constant : list (list Qc) :=
  [[q 1 1; q 3602879701896397 36028797018963968];
   [q 2 1; q 3602879701896397 36028797018963968];
   [q 3 1; q 3602879701896397 36028797018963968]].

(** ** [postprocess] and [logloss] in double precision

    Lines 96-136 once more, on IEEE 754 binary64 numbers with rounding to
    nearest: the same statements and the same outcomes as in the loops
    above, with one rounding per arithmetic operation; [NonFinite] still
    stands for the arrays of nan that too few rows give.  Sums are
    accumulated from the left.  [np.linalg.inv] follows the reference
    routines behind LAPACK's [dgesv], called on the identity: an LU
    factorisation with partial pivoting, which reports a singular matrix
    when it meets a pivot that is exactly zero and only then, followed by
    the two triangular solves.  The tests by which these routines skip a
    product with zero are left out; they matter for the sign of a zero and
    for operands that are not finite.  An optimised BLAS may associate or
    fuse the operations of a sum otherwise, which can change the last bit
    of a result; in the example chain at the end every sum and product is
    exact, the mean of the constant column and one quotient of the
    inversion apart. *)
Module Double.
Import PrimFloat.
Local Open Scope float_scope.

(** [float(z)] for a Python integer [z]. *)
Definition of_Z (z : Z) : float :=
  if (z <? 0)%Z then - of_uint63 (Uint63.of_Z (- z)) else of_uint63 (Uint63.of_Z z).
Definition of_nat (n : nat) : float := of_Z (Z.of_nat n).

(** The rational number that a finite double is. *)
Definition rational (x : float) : Qc :=
  let (m, e) := frshiftexp (abs x) in
  let mant := Uint63.to_Z (normfr_mantissa m) in
  let ex := (Uint63.to_Z e - 2101 - 53)%Z in
  let v := (inject_Z mant * Qpower 2 ex)%Q in
  Q2Qc (if x <? 0 then Qopp v else v).

Definition zeros (k : nat) : list float := repeat 0 k.
Definition vadd (u v : list float) : list float := zip_with add u v.
Definition vsub (u v : list float) : list float := zip_with sub u v.
Definition vscale (c : float) (v : list float) : list float := map (mul c) v.
Definition vopp (v : list float) : list float := map opp v.
Definition vsum (v : list float) : float := fold_left add v 0.
Definition dot (u v : list float) : float := vsum (zip_with mul u v).

Definition nrows (m : list (list float)) : nat := length m.
Definition ncols (m : list (list float)) : nat := length (hd [] m).
Definition column (k : nat) (m : list (list float)) : list float :=
  map (λ r, nth k r 0) m.
Definition transpose (m : list (list float)) : list (list float) :=
  map (λ k, column k m) (seq 0 (ncols m)).
Definition identity (n : nat) : list (list float) :=
  map (λ i, map (λ j, if decide (i = j) then 1 else 0) (seq 0 n)) (seq 0 n).

(** [x / y] on Python floats. *)
Definition py_div (x y : float) : outcome float :=
  if y =? 0 then Raise ZeroDivisionError else Ok (x / y).

(** [m[i, :]], [v[j]], [m[i, j]] and [m[i, j] = x] *)
Definition row_at (m : list (list float)) (i : nat) : outcome (list float) :=
  match m !! i with
  | Some r => Ok r
  | None => Raise IndexError
  end.

Definition item_at (v : list float) (j : nat) : outcome float :=
  match v !! j with
  | Some x => Ok x
  | None => Raise IndexError
  end.

Definition item2_at (m : list (list float)) (i j : nat) : outcome float :=
  obind (row_at m i) (λ r, item_at r j).

Definition set_item2 (m : list (list float)) (i j : nat) (x : float)
  : outcome (list (list float)) :=
  match m !! i with
  | Some r => if decide (j < length r)%nat
              then Ok (<[i := <[j := x]> r]> m)
              else Raise IndexError
  | None => Raise IndexError
  end.

Definition np_zeros (n w : nat) : list (list float) := repeat (zeros w) n.

(** [np.mean(m, axis=0)] *)
Definition colsum (m : list (list float)) : list float :=
  match m with
  | [] => []
  | r :: rs => fold_left vadd rs r
  end.

Definition np_mean0 (m : list (list float)) : option (list float) :=
  match m with
  | [] => None
  | _ => Some (map (λ s, s / of_nat (length m)) (colsum m))
  end.

Inductive ndarray : Type :=
  | ArrNaN
  | Arr0 (x : float)
  | Arr2 (m : list (list float)).

Definition center (x : list float) : list float :=
  let avg := vsum x / of_nat (length x) in map (λ v, v - avg) x.

Definition squeeze (c : list (list float)) : ndarray :=
  match c with
  | [[v]] => Arr0 v
  | _ => Arr2 c
  end.

(** The body of [np.cov], each row of [X] holding one variable: the rows
    are centred, [c = dot(X, X.T)], then [c *= np.true_divide(1, fact)]. *)
Definition cov_variables (X : list (list float)) : ndarray :=
  match X with
  | [] => Arr2 []
  | x0 :: _ =>
      let fact := (Z.of_nat (length x0) - 1)%Z in
      if decide (fact ≤ 0)%Z then ArrNaN
      else
        let Xc := map center X in
        squeeze (map (λ xk, map (λ xl, dot xk xl * (1 / of_Z fact)) Xc) Xc)
  end.

Definition np_cov (m : list (list float)) : ndarray :=
  match m with
  | [] => ArrNaN
  | _ => cov_variables (if decide (length m = 1%nat) then m else transpose m)
  end.

(** The index of the first entry of column [c] with the largest absolute
    value, among [rows] counted from [i]; [best] and [dmax] are the index
    and the value found so far. *)
Fixpoint pivot_index (c : nat) (rows : list (list float * list float))
    (i best : nat) (dmax : float) : nat :=
  match rows with
  | [] => best
  | r :: rs =>
      if dmax <? abs (nth c (fst r) 0)
      then pivot_index c rs (S i) i (abs (nth c (fst r) 0))
      else pivot_index c rs (S i) best dmax
  end.

(** The rows with the first one and row [p] exchanged. *)
Definition swap_first (p : nat) (rows : list (list float * list float))
  : list (list float * list float) :=
  match rows with
  | [] => []
  | r0 :: rs =>
      match p with
      | O => rows
      | S p' => match rs !! p' with
                | Some rp => rp :: <[p' := r0]> rs
                | None => rows
                end
      end
  end.

(** The multiplier of a row with entry [a] below the pivot [p]: the
    column is scaled by the reciprocal of the pivot unless the pivot is
    smaller than the safe minimum. *)
Definition sfmin : float := 0x1p-1022.
Definition multiplier (a p : float) : float :=
  if sfmin <=? abs p then a * (1 / p) else a / p.

(** [r - l * p] for the multiplier [l] of [r] *)
Definition eliminate (c : nat) (p r : list float * list float) : list float * list float :=
  let l := multiplier (nth c (fst r) 0) (nth c (fst p) 0) in
  (vsub (fst r) (vscale l (fst p)), vsub (snd r) (vscale l (snd p))).

(** The factorisation and the solve with the unit lower triangle, on the
    rows of [A | I]: [done] holds the rows of [U], each with its
    right-hand sides; [None] when a pivot is zero. *)
Fixpoint lu (cols : list nat) (done todo : list (list float * list float))
  : option (list (list float * list float)) :=
  match cols with
  | [] => Some done
  | c :: cs =>
      match todo with
      | [] => Some done
      | r0 :: rs =>
          match swap_first (pivot_index c rs 1 0 (abs (nth c (fst r0) 0))) todo with
          | [] => Some done
          | p :: rest =>
              if nth c (fst p) 0 =? 0 then None
              else lu cs (done ++ [p]) (map (eliminate c p) rest)
          end
      end
  end.

(** The solve with the upper triangle, from the last row up: [ks] lists
    the row indices downwards, the rows come last row first, and so do
    the solutions. *)
Fixpoint back_substitute (ks : list nat) (rows : list (list float * list float))
  : list (list float) :=
  match ks, rows with
  | k :: ks', r :: above =>
      let x := map (λ b, b / nth k (fst r) 0) (snd r) in
      x :: back_substitute ks'
             (map (λ ri, (fst ri, vsub (snd ri) (vscale (nth k (fst ri) 0) x))) above)
  | _, _ => []
  end.

Definition inverse (A : list (list float)) : option (list (list float)) :=
  let n := length A in
  match lu (seq 0 n) [] (zip A (identity n)) with
  | Some rows => Some (rev (back_substitute (rev (seq 0 n)) (rev rows)))
  | None => None
  end.

Definition np_linalg_inv (a : ndarray) : outcome (list (list float)) :=
  match a with
  | ArrNaN => NonFinite
  | Arr0 _ => Raise LinAlgError
  | Arr2 m =>
      if forallb (λ r, Nat.eqb (length r) (length m)) m
      then match inverse m with
           | Some b => Ok b
           | None => Raise LinAlgError
           end
      else Raise LinAlgError
  end.

Definition np_dot (u v : list float) : outcome float :=
  if decide (length u = length v) then Ok (dot u v) else Raise ValueError.

Definition np_matmul (m : list (list float)) (v : list float) : outcome (list float) :=
  if forallb (λ r, Nat.eqb (length r) (length v)) m && Nat.eqb (ncols m) (length v)
  then Ok (map (λ r, dot r v) m)
  else Raise ValueError.

Definition iadd (cur v : list float) : outcome (list float) :=
  if decide (length v = length cur) then Ok (vadd cur v)
  else match v with
       | [x] => Ok (map (λ c, c + x) cur)
       | _ => Raise ValueError
       end.

Definition mean_item (mean : option (list float)) (j : nat) : outcome float :=
  match mean with
  | Some v => item_at v j
  | None => NonFinite
  end.

Definition sub_mean (row : list float) (mean : option (list float)) : outcome (list float) :=
  match mean with
  | Some v => Ok (vsub row v)
  | None => NonFinite
  end.

(** Lines 107-110, for one [j]. *)
Definition cross_cov_code (n dim : nat) (S G : list (list float)) (j : nat)
  : outcome (list float) :=
  ofold (seq 0 n) (zeros dim) (λ i current_cov,
    w ← py_div 1 (of_Z (Z.of_nat n - 1));
    sij ← item2_at S i j;
    mj ← mean_item (np_mean0 S) j;
    gi ← row_at G i;
    dev ← sub_mean gi (np_mean0 G);
    iadd current_cov (vscale (w * (sij - mj)) dev)).

(** Lines 107-111, for one [j]. *)
Definition coef_code (n dim : nat) (S G : list (list float)) (j : nat)
  : outcome (list float) :=
  cc ← cross_cov_code n dim S G j;
  vinv ← np_linalg_inv (np_cov G);
  prod ← np_matmul vinv cc;
  Ok (vopp prod).

(** Line 113, for one [i]. *)
Definition fill_item (S G : list (list float)) (a : list float) (j i : nat)
    (out : list (list float)) : outcome (list (list float)) :=
  sij ← item2_at S i j;
  gi ← row_at G i;
  dt ← np_dot a gi;
  set_item2 out i j (sij + dt).

(** Lines 112-113. *)
Fixpoint fill_col (rows : list nat) (S G : list (list float)) (a : list float) (j : nat)
    (out : list (list float)) : list (list float) * outcome unit :=
  match rows with
  | [] => (out, Ok tt)
  | i :: rows' =>
      match fill_item S G a j i out with
      | Ok out' => fill_col rows' S G a j out'
      | Raise e => (out, Raise e)
      | NonFinite => (out, NonFinite)
      end
  end.

(** Lines 107-113, for one [j]. *)
Definition adjust_col (n dim : nat) (S G : list (list float)) (j : nat)
    (out : list (list float)) : list (list float) * outcome unit :=
  match coef_code n dim S G j with
  | Ok a => fill_col (seq 0 n) S G a j out
  | Raise e => (out, Raise e)
  | NonFinite => (out, NonFinite)
  end.

(** Lines 106-113. *)
Fixpoint adjust_cols (cols : list nat) (n dim : nat) (S G out : list (list float))
  : list (list float) * outcome unit :=
  match cols with
  | [] => (out, Ok tt)
  | j :: cols' =>
      match adjust_col n dim S G j out with
      | (out', Ok _) => adjust_cols cols' n dim S G out'
      | (out', Raise e) => (out', Raise e)
      | (out', NonFinite) => (out', NonFinite)
      end
  end.

Definition adjust_code (n dim : nat) (S G : list (list float))
  : list (list float) * outcome unit :=
  adjust_cols (seq 0 dim) n dim S G (np_zeros (nrows S) (ncols S)).

(** [int(np.dot(np.squeeze(beta), np.squeeze(x)) >= 0.0)] *)
Definition predict (beta x : list float) : outcome Z :=
  if decide (length beta = length x)
  then Ok (if 0 <=? dot beta x then 1%Z else 0%Z)
  else if decide (length beta = 1%nat ∨ length x = 1%nat)
       then Raise TypeError
       else Raise ValueError.

(** Lines 130-134, for one draw. *)
Definition predict_code (Xt : list (list float)) (ts : nat) (beta : list float)
  : outcome (list Z) :=
  ofold (seq 0 ts) (repeat 0%Z ts) (λ i y_pred,
    x ← row_at Xt i;
    b ← predict beta x;
    Ok (<[i := b]> y_pred)).

(** Lines 128-136; [Xt], [yt], [ts] and [n] are [self.X_test],
    [self.y_test], [self.test_size] and [self.n_iters]. *)
Definition logloss_code (log_loss : list Z → list Z → outcome float)
    (Xt : list (list float)) (yt : list Z) (ts n : nat) (S : list (list float))
  : outcome float :=
  ofold (seq 0 n) 0 (λ m acc,
    beta ← row_at S m;
    y_pred ← predict_code Xt ts beta;
    ll ← log_loss yt y_pred;
    q ← py_div ll (of_nat n);
    Ok (acc + q)).

(** Lines 96-118: the final contents of [out_sample] and the pair that is
    printed. *)
Definition postprocess_code (log_loss : list Z → list Z → outcome float)
    (Xt : list (list float)) (yt : list Z) (ts n dim : nat) (S G : list (list float))
  : list (list float) * outcome (float * float) :=
  match adjust_code n dim S G with
  | (out, Ok _) =>
      (out, old ← logloss_code log_loss Xt yt ts n S;
            new ← logloss_code log_loss Xt yt ts n out;
            Ok (old, new))
  | (out, Raise e) => (out, Raise e)
  | (out, NonFinite) => (out, NonFinite)
  end.

(** scikit-learn's [log_loss] on hard predictions, the two logarithms
    being parameters. *)
Definition penalty (pen_hit pen_miss : float) (pos : Z) (t p : Z) : float :=
  if bool_decide (t = pos ↔ p = 1%Z) then pen_hit else pen_miss.

Definition sk_log_loss (pen_hit pen_miss : float) (y_true y_pred : list Z)
  : outcome float :=
  if decide (length y_true = length y_pred) then
    if two_classes y_true then
      Ok (vsum (zip_with (penalty pen_hit pen_miss (label_max y_true)) y_true y_pred)
          / of_nat (length y_true))
    else Raise ValueError
  else Raise ValueError.

(** Three draws whose second gradient entry is always the double nearest
    to 0.1, and the same with zero in its place; the covariance matrix
    that [np.cov] returns for the former, its inverse and the adjusted
    sample; the held-out rows and the loss of the example chains. *)
Definition ex_tenth : float := 0x1.999999999999ap-4.
Definition ex_S : list (list float) := [[1; 0]; [3; 1]; [2; 2]].
Definition ex_G : list (list float) := [[1; ex_tenth]; [2; ex_tenth]; [3; ex_tenth]].
Definition ex_G_zero : list (list float) := [[1; 0]; [2; 0]; [3; 0]].
Definition ex_var_grad : list (list float) := [[1; 0]; [0; 0x1.8p-112]].
Definition ex_inverse : list (list float) := [[1; 0]; [0; 0x1.5555555555555p+111]].
Definition ex_adjusted : list (list float) := [[0.5; -1]; [2; -1]; [0.5; -1]].
Definition ex_X_test : list (list float) := [[1; -1]; [-1; 0]].
Definition ex_log_loss : list Z → list Z → outcome float := sk_log_loss 0x1p-10 35.

End Double.


(** * Proofs

    ** Vectors and matrices as tables

    A vector of length [n] is [map f (seq 0 n)] for its entries [f]. *)
Lemma nth_tab (f : nat → Qc) n k : (k < n)%nat → nth k (map f (seq 0 n)) 0 = f k.
Proof.
  intros H. rewrite (nth_indep _ 0 (f 0%nat)) by (by rewrite length_map, length_seq).
  rewrite (map_nth f), seq_nth by done. reflexivity.
Qed.

Lemma tab_ext {A} (f g : nat → A) n :
  (∀ k, (k < n)%nat → f k = g k) → map f (seq 0 n) = map g (seq 0 n).
Proof. intros H. apply map_ext_in. intros k [_ Hk]%in_seq. apply H. lia. Qed.

Lemma as_tab {A} (dflt : A) (v : list A) n :
  length v = n → v = map (λ k, nth k v dflt) (seq 0 n).
Proof.
  intros <-. induction v as [|x v IH]; [reflexivity|].
  cbn [length seq map nth]. f_equal. rewrite <- seq_shift, map_map. exact IH.
Qed.

Lemma zip_with_tab {A B C} (h : A → B → C) (f : nat → A) (g : nat → B) n :
  zip_with h (map f (seq 0 n)) (map g (seq 0 n)) = map (λ k, h (f k) (g k)) (seq 0 n).
Proof.
  generalize 0%nat. induction n as [|n IH]; intros s; [reflexivity|].
  cbn. f_equal. apply IH.
Qed.

Lemma zeros_tab n : zeros n = map (λ _, 0) (seq 0 n).
Proof.
  unfold zeros. generalize 0%nat. induction n as [|n IH]; intros s; [reflexivity|].
  cbn. f_equal. apply IH.
Qed.

Lemma bigsum_ext n (f g : nat → Qc) :
  (∀ i, (i < n)%nat → f i = g i) → bigsum n f = bigsum n g.
Proof.
  induction n as [|n IH]; intros H; [reflexivity|].
  cbn [bigsum]. rewrite IH, H by (intros; try apply H; lia). reflexivity.
Qed.

Lemma bigsum_scale n c (f : nat → Qc) : bigsum n (λ i, c * f i) = c * bigsum n f.
Proof. induction n as [|n IH]; cbn [bigsum]; [ring | rewrite IH; ring]. Qed.

Lemma bigsum_plus n (f g : nat → Qc) :
  bigsum n (λ i, f i + g i) = bigsum n f + bigsum n g.
Proof. induction n as [|n IH]; cbn [bigsum]; [ring | rewrite IH; ring]. Qed.

Lemma bigsum_zero n : bigsum n (λ _, 0) = 0.
Proof. induction n as [|n IH]; cbn [bigsum]; [reflexivity | rewrite IH; ring]. Qed.

Lemma bigsum_ext_zero n (f : nat → Qc) :
  (∀ i, (i < n)%nat → f i = 0) → bigsum n f = 0.
Proof. intros H. rewrite (bigsum_ext _ _ (λ _, 0)) by done. apply bigsum_zero. Qed.

Lemma vsum_app u v : vsum (u ++ v) = vsum u + vsum v.
Proof.
  induction u as [|x u IH].
  - change (vsum v = 0 + vsum v). ring.
  - change (x + vsum (u ++ v) = x + vsum u + vsum v). rewrite IH. ring.
Qed.

Lemma vsum_tab n (f : nat → Qc) : vsum (map f (seq 0 n)) = bigsum n f.
Proof.
  induction n as [|n IH]; [reflexivity|].
  rewrite seq_S, map_app, vsum_app, IH.
  change (bigsum n f + (f n + 0) = bigsum n f + f n). ring.
Qed.

Lemma vsum_bigsum v : vsum v = bigsum (length v) (λ i, nth i v 0).
Proof. rewrite (as_tab 0 v (length v)) at 1 by done. apply vsum_tab. Qed.

Lemma nth_map_lt {A B} (f : A → B) l i dA dB :
  (i < length l)%nat → nth i (map f l) dB = f (nth i l dA).
Proof.
  intros H. rewrite (nth_indep _ dB (f dA)) by (by rewrite length_map). apply map_nth.
Qed.

Lemma length_column k (m : list (list Qc)) : length (column k m) = length m.
Proof. apply length_map. Qed.

Lemma nth_column k (m : list (list Qc)) i :
  (i < length m)%nat → nth i (column k m) 0 = entry m i k.
Proof. intros H. unfold column, entry. by rewrite (nth_map_lt _ _ _ []). Qed.

Lemma lookup_nth {A} (l : list A) i dflt :
  (i < length l)%nat → l !! i = Some (nth i l dflt).
Proof. intros H. destruct (nth_lookup_or_length l i dflt); [done | lia]. Qed.

Lemma rect_row n w m i : rect n w m → (i < n)%nat → length (nth i m []) = w.
Proof.
  intros [Hn Hw] Hi. rewrite Forall_lookup in Hw. apply (Hw i).
  apply lookup_nth. lia.
Qed.

Lemma rect_lookup n w m i : rect n w m → (i < n)%nat → m !! i = Some (nth i m []).
Proof. intros [Hn _] Hi. apply lookup_nth. lia. Qed.

Lemma rect_ncols n w m : rect n w m → (0 < n)%nat → ncols m = w.
Proof.
  intros [Hn Hw] Hpos. destruct m as [|r m]; [cbn in Hn; lia|].
  by inversion Hw.
Qed.

Lemma rect_tab n w m :
  rect n w m → m = map (λ i, map (λ j, entry m i j) (seq 0 w)) (seq 0 n).
Proof.
  intros Hr. rewrite (as_tab [] m n) at 1 by apply Hr.
  apply tab_ext. intros i Hi. apply (as_tab 0). by apply (rect_row n).
Qed.

Lemma rect_cons n w r m : rect (S n) w (r :: m) ↔ length r = w ∧ rect n w m.
Proof.
  unfold rect. cbn [length]. rewrite Forall_cons. split.
  - intros [Hn [Hr Hm]]. repeat split; [done | lia | done].
  - intros [Hr [Hn Hm]]. repeat split; [lia | done | done].
Qed.

Lemma vadd_tab_r u (g : nat → Qc) n :
  length u = n → vadd u (map g (seq 0 n)) = map (λ k, nth k u 0 + g k) (seq 0 n).
Proof.
  intros H. rewrite (as_tab 0 u n) at 1 by done. apply zip_with_tab.
Qed.

Lemma colsum_tab n w m :
  rect (S n) w m → colsum m = map (λ k, vsum (column k m)) (seq 0 w).
Proof.
  destruct m as [|r rs]; [intros [H _]; discriminate|].
  intros [Hr Hrs]%rect_cons. cbn [colsum].
  transitivity (map (λ k, nth k r 0 + vsum (column k rs)) (seq 0 w)); [|reflexivity].
  revert r Hr n Hrs. induction rs as [|r' rs IH]; intros r Hr n Hrs.
  - cbn [fold_left]. rewrite (as_tab 0 r w) at 1 by done.
    apply tab_ext. intros k _. change (vsum (column k [])) with 0. ring.
  - destruct n as [|n]; [destruct Hrs; discriminate|].
    apply rect_cons in Hrs as [Hr' Hrs]. cbn [fold_left].
    assert (Hlen : length (vadd r r') = w)
      by (unfold vadd; rewrite length_zip_with; lia).
    rewrite (IH (vadd r r') Hlen n Hrs).
    apply tab_ext. intros k Hk.
    change (vsum (column k (r' :: rs))) with (nth k r' 0 + vsum (column k rs)).
    rewrite (as_tab 0 r' w) at 1 by done. rewrite vadd_tab_r by done.
    rewrite !nth_tab by done. ring.
Qed.

Lemma np_mean0_tab n w m :
  rect n w m → (0 < n)%nat →
  np_mean0 m = Some (map (λ k, mean (column k m)) (seq 0 w)).
Proof.
  intros Hr Hn. destruct n as [|n]; [lia|].
  unfold np_mean0. destruct m as [|r rs] eqn:E; [destruct Hr; discriminate|].
  rewrite <- E in *. rewrite (colsum_tab n w) by done. rewrite map_map.
  f_equal. apply tab_ext. intros k _. unfold mean. by rewrite length_column.
Qed.

Lemma ofold_app {A B} (l1 l2 : list A) (acc : B) body :
  ofold (l1 ++ l2) acc body = obind (ofold l1 acc body) (λ a, ofold l2 a body).
Proof.
  revert acc. induction l1 as [|x l1 IH]; intros acc; [reflexivity|].
  cbn [app ofold]. destruct (body x acc); cbn [obind]; [apply IH | reflexivity..].
Qed.

Lemma of_Z_neq0 z : z ≠ 0%Z → of_Z z ≠ 0.
Proof.
  intros Hz H. apply Hz. unfold of_Z in H.
  apply Q2Qc_eq_iff in H. unfold Qeq in H. cbn in H. lia.
Qed.

Lemma of_nat_neq0 n : (0 < n)%nat → of_nat n ≠ 0.
Proof. intros H. apply of_Z_neq0. lia. Qed.

Lemma item_at_tab (f : nat → Qc) n k :
  (k < n)%nat → item_at (map f (seq 0 n)) k = Ok (f k).
Proof.
  intros H. unfold item_at.
  rewrite (lookup_nth _ _ 0) by (by rewrite length_map, length_seq).
  by rewrite nth_tab.
Qed.

Lemma row_at_rect n w m i : rect n w m → (i < n)%nat → row_at m i = Ok (nth i m []).
Proof. intros Hr Hi. unfold row_at. by rewrite (rect_lookup n w). Qed.

Lemma item2_at_rect n w m i j :
  rect n w m → (i < n)%nat → (j < w)%nat → item2_at m i j = Ok (entry m i j).
Proof.
  intros Hr Hi Hj. unfold item2_at. rewrite (row_at_rect n w) by done.
  cbn [obind]. unfold item_at, entry.
  rewrite (lookup_nth _ _ 0); [done|]. by rewrite (rect_row n w).
Qed.

Lemma row_tab n w m i :
  rect n w m → (i < n)%nat → nth i m [] = map (λ k, entry m i k) (seq 0 w).
Proof. intros Hr Hi. apply (as_tab 0). by apply (rect_row n). Qed.

Lemma length_tab {A} (f : nat → A) n : length (map f (seq 0 n)) = n.
Proof. by rewrite length_map, length_seq. Qed.

Lemma covariance_bigsum xs ys n :
  length xs = n → length ys = n →
  covariance xs ys =
  bigsum n (λ i, (nth i xs 0 - mean xs) * (nth i ys 0 - mean ys)) / of_Z (Z.of_nat n - 1).
Proof.
  intros Hx Hy. unfold covariance. rewrite Hx. f_equal.
  rewrite (as_tab 0 xs n) at 1 by done. rewrite (as_tab 0 ys n) at 1 by done.
  rewrite zip_with_tab. apply vsum_tab.
Qed.

Lemma cross_cov_code_spec n dim S G j :
  rect n dim S → rect n dim G → (2 ≤ n)%nat → (j < dim)%nat →
  cross_cov_code n dim S G j = Ok (cross_cov_spec dim S G j).
Proof.
  intros HS HG Hn Hj. unfold cross_cov_code.
  set (w := 1 / of_Z (Z.of_nat n - 1)).
  set (mj := mean (column j S)).
  set (body := λ (i : nat) (cur : list Qc), _).
  assert (Hloop : ∀ m, (m ≤ n)%nat →
    ofold (seq 0 m) (zeros dim) body =
    Ok (map (λ k, bigsum m (λ i, w * (entry S i j - mj) * (entry G i k - mean (column k G))))
            (seq 0 dim))).
  { induction m as [|m IH]; intros Hm.
    - cbn [seq ofold]. by rewrite zeros_tab.
    - rewrite seq_S, ofold_app, IH by lia.
      cbn [mbind outcome_bind obind Nat.add ofold]. unfold body at 1.
      unfold py_div. rewrite decide_False by (apply of_Z_neq0; lia).
      cbn [mbind outcome_bind obind]. fold w.
      rewrite (item2_at_rect n dim) by (done || lia). cbn [mbind outcome_bind obind].
      rewrite (np_mean0_tab n dim S), (np_mean0_tab n dim G) by (done || lia).
      cbn [mbind outcome_bind obind mean_item]. rewrite item_at_tab by done.
      cbn [mbind outcome_bind obind]. fold mj.
      rewrite (row_at_rect n dim) by (done || lia). cbn [mbind outcome_bind obind sub_mean].
      rewrite (row_tab n dim G m) by (done || lia).
      unfold vsub. rewrite zip_with_tab. unfold vscale. rewrite map_map.
      unfold iadd. rewrite !length_tab, decide_True by done.
      unfold vadd. rewrite zip_with_tab. reflexivity. }
  rewrite Hloop by done. f_equal. unfold cross_cov_spec.
  apply tab_ext. intros k Hk.
  rewrite (covariance_bigsum _ _ n)
    by (rewrite length_column; (apply HS || apply HG)).
  rewrite (bigsum_ext _ _ (λ i, w * ((nth i (column j S) 0 - mean (column j S))
                                     * (nth i (column k G) 0 - mean (column k G))))).
  - rewrite bigsum_scale. unfold w, Qcdiv. ring.
  - intros i Hi. rewrite !nth_column by (destruct HS, HG; lia). fold mj. ring.
Qed.

Lemma zip_with_map_both {A B C A' B'} (h : A → B → C) (f : A' → A) (g : B' → B) l k :
  zip_with h (map f l) (map g k) = zip_with (λ x y, h (f x) (g y)) l k.
Proof.
  revert k. induction l as [|x l IH]; intros [|y k]; cbn; try reflexivity.
  f_equal. apply IH.
Qed.

Lemma dot_center xs ys f :
  dot (center xs) (center ys) * (1 / f) =
  vsum (zip_with (λ x y, (x - mean xs) * (y - mean ys)) xs ys) / f.
Proof.
  unfold dot, center. rewrite zip_with_map_both. fold (mean xs) (mean ys).
  unfold Qcdiv. ring.
Qed.

Lemma squeeze_rows (c : list (list Qc)) : length c ≠ 1%nat → squeeze c = Arr2 c.
Proof.
  destruct c as [|r [|r' c]]; cbn [length]; intros H; try done.
  by destruct r as [|v [|v' r]].
Qed.

Lemma transpose_rect n w m :
  rect n w m → (0 < n)%nat → transpose m = map (λ k, column k m) (seq 0 w).
Proof. intros Hr Hn. unfold transpose. by rewrite (rect_ncols n w). Qed.

Lemma cov_variables_tab n w G :
  (2 ≤ n)%nat → length G = n → (0 < w)%nat →
  cov_variables (map (λ k, column k G) (seq 0 w)) =
  squeeze (map (λ k, map (λ l, covariance (column k G) (column l G)) (seq 0 w)) (seq 0 w)).
Proof.
  intros Hn HG Hw. unfold cov_variables.
  destruct w as [|w]; [lia|].
  change (map (λ k, column k G) (seq 0 (S w)))
    with (column 0 G :: map (λ k, column k G) (seq 1 w)) at 1.
  cbv beta iota zeta. rewrite length_column.
  rewrite decide_False by lia. f_equal.
  rewrite !map_map. apply tab_ext. intros k _. rewrite map_map.
  apply tab_ext. intros l _. rewrite dot_center. unfold covariance.
  rewrite length_column. reflexivity.
Qed.

Lemma np_cov_spec n w G :
  rect n w G → (2 ≤ n)%nat → w ≠ 1%nat → np_cov G = Arr2 (var_grad_spec G).
Proof.
  intros HG Hn Hw. unfold np_cov, var_grad_spec.
  destruct G as [|r0 G'] eqn:E; [destruct HG as [HG _]; cbn in HG; lia|].
  rewrite <- E in *. clear E r0 G'.
  rewrite decide_False by (destruct HG; lia).
  rewrite (transpose_rect n w), (rect_ncols n w) by (done || lia).
  destruct (decide (w = 0%nat)) as [->|Hw0]; [reflexivity|].
  rewrite (cov_variables_tab n) by (done || apply HG || lia).
  apply squeeze_rows. rewrite length_tab. lia.
Qed.

Lemma np_cov_single n G :
  rect n 1 G → (2 ≤ n)%nat →
  np_cov G = Arr0 (covariance (column 0 G) (column 0 G)).
Proof.
  intros HG Hn. unfold np_cov.
  destruct G as [|r0 G'] eqn:E; [destruct HG as [HG _]; cbn in HG; lia|].
  rewrite <- E in *. clear E r0 G'.
  rewrite decide_False by (destruct HG; lia).
  rewrite (transpose_rect n 1) by (done || lia).
  by rewrite (cov_variables_tab n) by (done || apply HG || lia).
Qed.

(** ** Soundness of the elimination *)


Lemma nth_zip_with_len (h : Qc → Qc → Qc) u v n i :
  length u = n → length v = n → (i < n)%nat →
  nth i (zip_with h u v) 0 = h (nth i u 0) (nth i v 0).
Proof.
  intros Hu Hv Hi. rewrite (as_tab 0 u n) at 1 by done.
  rewrite (as_tab 0 v n) at 1 by done. rewrite zip_with_tab. by rewrite nth_tab.
Qed.

Lemma nth_vscale c v i : nth i (vscale c v) 0 = c * nth i v 0.
Proof.
  unfold vscale. destruct (decide (i < length v)%nat) as [H|H].
  - by rewrite (nth_map_lt _ _ _ 0).
  - rewrite !nth_overflow by (rewrite ?length_map; lia). ring.
Qed.

Lemma dot_bigsum u v n :
  length u = n → length v = n → dot u v = bigsum n (λ i, nth i u 0 * nth i v 0).
Proof.
  intros Hu Hv. unfold dot. rewrite (as_tab 0 u n) at 1 by done.
  rewrite (as_tab 0 v n) at 1 by done. rewrite zip_with_tab. apply vsum_tab.
Qed.

Lemma bigsum_delta n c (f : nat → Qc) :
  (c < n)%nat → bigsum n (λ i, delta c i * f i) = f c.
Proof.
  induction n as [|n IH]; intros Hc; [lia|]. cbn [bigsum].
  destruct (decide (c = n)) as [->|Hne].
  - rewrite (bigsum_ext _ _ (λ _, 0)).
    + rewrite bigsum_zero. unfold delta. rewrite decide_True by done. ring.
    + intros i Hi. unfold delta. rewrite decide_False by lia. ring.
  - rewrite IH by lia. unfold delta at 1. rewrite decide_False by done. ring.
Qed.

Lemma bigsum_delta_r n c (f : nat → Qc) :
  (c < n)%nat → bigsum n (λ i, f i * delta i c) = f c.
Proof.
  intros H. rewrite <- (bigsum_delta n c f H). apply bigsum_ext.
  intros i _. unfold delta. destruct (decide (i = c)), (decide (c = i)); try lia; ring.
Qed.

Lemma bigsum_lincomb n c (f g : nat → Qc) :
  bigsum n (λ i, f i - c * g i) = bigsum n f - c * bigsum n g.
Proof. induction n as [|n IH]; cbn [bigsum]; [ring | rewrite IH; ring]. Qed.

Lemma bigsum_swap n m (f : nat → nat → Qc) :
  bigsum n (λ i, bigsum m (λ j, f i j)) = bigsum m (λ j, bigsum n (λ i, f i j)).
Proof.
  induction n as [|n IH]; cbn [bigsum].
  - by rewrite bigsum_zero.
  - by rewrite bigsum_plus, IH.
Qed.

Section Elimination.

Variable n : nat.
Variable A : list (list Qc).

Lemma find_pivot_spec c rows p rest :
  find_pivot c rows = Some (p, rest) →
  nth c p.1 0 ≠ 0 ∧ rows ≡ₚ p :: rest.
Proof.
  revert p rest. induction rows as [|r rows IH]; intros p rest; [discriminate|].
  cbn [find_pivot]. destruct (decide (nth c r.1 0 = 0)) as [Hz|Hnz].
  - destruct (find_pivot c rows) as [[p' rest']|]; [|discriminate].
    intros [= <- <-]. destruct (IH p' rest' eq_refl) as [Hp Hperm].
    split; [done|]. rewrite Hperm. apply Permutation_swap.
  - intros [= <- <-]. done.
Qed.

Lemma good_scale k row : good n A row → good n A (scale_row k row).
Proof.
  intros (Hl & Hr & H). unfold good, scale_row; cbn [fst snd].
  repeat split; [unfold vscale; by rewrite length_map..|].
  intros j Hj. rewrite nth_vscale, <- H by done. rewrite <- bigsum_scale.
  apply bigsum_ext. intros i _. rewrite nth_vscale. ring.
Qed.

Lemma nth_eliminate_l c p row j :
  length row.1 = n → length p.1 = n → (j < n)%nat →
  nth j (eliminate c p row).1 0 = nth j row.1 0 - nth c row.1 0 * nth j p.1 0.
Proof.
  intros Hr Hp Hj. unfold eliminate; cbn [fst snd]. unfold vsub.
  rewrite (nth_zip_with_len _ _ _ n) by (done || unfold vscale; by rewrite length_map).
  by rewrite nth_vscale.
Qed.

Lemma nth_eliminate_r c p row j :
  length row.2 = n → length p.2 = n → (j < n)%nat →
  nth j (eliminate c p row).2 0 = nth j row.2 0 - nth c row.1 0 * nth j p.2 0.
Proof.
  intros Hr Hp Hj. unfold eliminate; cbn [fst snd]. unfold vsub.
  rewrite (nth_zip_with_len _ _ _ n) by (done || unfold vscale; by rewrite length_map).
  by rewrite nth_vscale.
Qed.

Lemma length_eliminate c p row :
  length row.1 = n → length p.1 = n → length row.2 = n → length p.2 = n →
  length (eliminate c p row).1 = n ∧ length (eliminate c p row).2 = n.
Proof.
  intros. unfold eliminate, vsub, vscale; cbn [fst snd].
  rewrite !length_zip_with, !length_map. lia.
Qed.

Lemma good_eliminate c p row : good n A p → good n A row → good n A (eliminate c p row).
Proof.
  intros (Hpl & Hpr & Hp) (Hl & Hr & H).
  destruct (length_eliminate c p row) as [El Er]; try done.
  repeat split; [done..|].
  intros j Hj. rewrite nth_eliminate_l, <- H, <- Hp by done.
  rewrite <- bigsum_lincomb. apply bigsum_ext. intros i Hi.
  rewrite nth_eliminate_r by done. ring.
Qed.

Lemma solves_step X c p done rest :
  let p' := scale_row (/ nth c p.1 0) p in
  nth c p.1 0 ≠ 0 →
  Forall (good n A) (done ++ p :: rest) →
  solves n X (map (eliminate c p') done ++ [p'] ++ map (eliminate c p') rest) →
  solves n X (done ++ p :: rest).
Proof.
  intros p' Hpv Hgood Hsol.
  assert (Hp : good n A p).
  { rewrite Forall_forall in Hgood. apply Hgood, elem_of_app. right.
    apply list_elem_of_here. }
  assert (Hp' : good n A p') by by apply good_scale.
  assert (Hsp' : ∀ j, (j < n)%nat → bigsum n (λ i, nth i p'.1 0 * X i j) = nth j p'.2 0).
  { apply Hsol, elem_of_app. right. apply list_elem_of_here. }
  assert (Helim : ∀ row, good n A row → eliminate c p' row ∈
             map (eliminate c p') done ++ [p'] ++ map (eliminate c p') rest →
           ∀ j, (j < n)%nat → bigsum n (λ i, nth i row.1 0 * X i j) = nth j row.2 0).
  { intros row (Hl & Hr & _) Hin j Hj. specialize (Hsol _ Hin j Hj).
    destruct Hp' as (Hpl & Hpr & _).
    rewrite nth_eliminate_r in Hsol by done.
    rewrite (bigsum_ext _ _ (λ i, nth i row.1 0 * X i j
                                 - nth c row.1 0 * (nth i p'.1 0 * X i j))) in Hsol.
    - rewrite bigsum_lincomb, Hsp' in Hsol by done.
      apply (f_equal (λ x, x + nth c row.1 0 * nth j p'.2 0)) in Hsol.
      ring_simplify in Hsol. exact Hsol.
    - intros i Hi. rewrite nth_eliminate_l by done. ring. }
  intros row Hin j Hj.
  apply elem_of_app in Hin as [Hin|Hin]; [|apply elem_of_cons in Hin as [->|Hin]].
  - apply Helim; [| |done].
    + rewrite Forall_forall in Hgood. apply Hgood, elem_of_app. by left.
    + apply elem_of_app. left. by apply list_elem_of_fmap_2.
  - specialize (Hsp' j Hj). unfold p', scale_row in Hsp'; cbn [fst snd] in Hsp'.
    rewrite nth_vscale in Hsp'.
    rewrite (bigsum_ext _ _ (λ i, / nth c p.1 0 * (nth i p.1 0 * X i j))) in Hsp'
      by (intros i _; rewrite nth_vscale; ring).
    rewrite bigsum_scale in Hsp'.
    apply (f_equal (Qcmult (nth c p.1 0))) in Hsp'.
    rewrite !Qcmult_assoc, Qcmult_inv_r, !Qcmult_1_l in Hsp' by done. exact Hsp'.
  - apply Helim; [| |done].
    + rewrite Forall_forall in Hgood. apply Hgood, elem_of_app. right.
      by apply list_elem_of_further.
    + apply elem_of_app. right. apply list_elem_of_further.
      by apply list_elem_of_fmap_2.
Qed.

Lemma solves_perm X rows rows' : rows ≡ₚ rows' → solves n X rows → solves n X rows'.
Proof. intros Hp H row Hin. apply H. by rewrite Hp. Qed.

(** The invariant of the elimination before column [k]. *)
Lemma elim_inv_step k done todo p rest :
  elim_inv n A k done todo → (k < n)%nat →
  find_pivot k todo = Some (p, rest) →
  let p' := scale_row (/ nth k p.1 0) p in
  elim_inv n A (S k) (map (eliminate k p') done ++ [p']) (map (eliminate k p') rest).
Proof.
  intros (Hlen & Hred & Hgood & HQ) Hk Hfp p'.
  apply find_pivot_spec in Hfp as [Hpv Hperm].
  assert (Hgood' : Forall (good n A) (done ++ p :: rest)) by by rewrite <- Hperm.
  assert (Hp : good n A p).
  { rewrite Forall_forall in Hgood'. apply Hgood', elem_of_app. right.
    apply list_elem_of_here. }
  assert (Hp' : good n A p') by by apply good_scale.
  destruct Hred as (Hdl & Hdone & Htodo).
  assert (Hp'k : nth k p'.1 0 = 1).
  { unfold p', scale_row; cbn [fst]. rewrite nth_vscale.
    rewrite Qcmult_comm. by apply Qcmult_inv_r. }
  assert (Hp'j : ∀ j, (j < k)%nat → nth j p'.1 0 = 0).
  { intros j Hj. unfold p', scale_row; cbn [fst]. rewrite nth_vscale.
    assert (Hpin : p ∈ todo) by (rewrite Hperm; apply list_elem_of_here).
    rewrite (Htodo p Hpin j Hj). ring. }
  assert (Hall : ∀ row, row ∈ done ++ p :: rest → good n A row).
  { by apply Forall_forall. }
  split; [|split; [|split]].
  - rewrite length_map. apply Permutation_length in Hperm. cbn in Hperm. lia.
  - split; [|split].
    + rewrite length_app, length_map. cbn. lia.
    + intros i j Hi Hj. destruct (decide (i < k)%nat) as [Hik|Hik].
      * rewrite app_nth1 by (rewrite length_map; lia).
        rewrite (nth_map_lt (eliminate k p') done i (([], []) : list Qc * list Qc)) by lia.
        assert (Hrow : good n A (nth i done ([], []))).
        { apply Hall, elem_of_app. left. apply list_elem_of_In, nth_In. lia. }
        rewrite nth_eliminate_l by (apply Hrow || apply Hp' || lia).
        destruct (decide (j = k)) as [->|Hjk].
        -- rewrite Hp'k. unfold delta. rewrite decide_False by lia. ring.
        -- rewrite Hp'j, Hdone by lia. ring.
      * assert (i = k) as -> by lia.
        rewrite app_nth2 by (rewrite length_map; lia).
        rewrite length_map, Hdl, Nat.sub_diag. cbn [nth].
        destruct (decide (j = k)) as [->|Hjk].
        -- rewrite Hp'k. unfold delta. by rewrite decide_True.
        -- rewrite Hp'j by lia. unfold delta. by rewrite decide_False by lia.
    + intros row' Hin j Hj. apply list_elem_of_fmap in Hin as (row & -> & Hin).
      assert (Hrow : good n A row).
      { apply Hall, elem_of_app. right. by apply list_elem_of_further. }
      assert (Hz : ∀ j', (j' < k)%nat → nth j' row.1 0 = 0).
      { apply Htodo. rewrite Hperm. by apply list_elem_of_further. }
      rewrite nth_eliminate_l by (apply Hrow || apply Hp' || lia).
      destruct (decide (j = k)) as [->|Hjk].
      * rewrite Hp'k. ring.
      * rewrite Hp'j, Hz by lia. ring.
  - rewrite <- app_assoc. rewrite !Forall_app, !Forall_forall. split; [|split].
    + intros row' Hin. apply list_elem_of_fmap in Hin as (row & -> & Hin).
      apply good_eliminate; [done|]. apply Hall, elem_of_app. by left.
    + intros row' Hin. apply list_elem_of_singleton in Hin as ->. done.
    + intros row' Hin. apply list_elem_of_fmap in Hin as (row & -> & Hin).
      apply good_eliminate; [done|]. apply Hall, elem_of_app. right.
      by apply list_elem_of_further.
  - intros X HX. apply HQ. apply (solves_perm X (done ++ p :: rest)).
    { by rewrite Hperm. }
    apply (solves_step X k); try done. by rewrite <- app_assoc in HX.
Qed.

Lemma gauss_jordan_sound m : ∀ k done todo rows,
  (k + m = n)%nat → elim_inv n A k done todo →
  gauss_jordan (seq k m) done todo = Some rows →
  reduced n rows [] ∧ Forall (good n A) rows ∧ (∀ X, solves n X rows → right_inverse n A X).
Proof.
  induction m as [|m IH]; intros k done todo rows Hk Hinv Hgj.
  - destruct Hinv as (Hlen & Hred & Hgood & HQ).
    cbn in Hgj. injection Hgj as <-.
    assert (k = n) as -> by lia. rewrite Nat.sub_diag in Hlen.
    destruct todo; [|discriminate]. rewrite app_nil_r in *. done.
  - cbn [seq gauss_jordan] in Hgj.
    destruct (find_pivot k todo) as [[p rest]|] eqn:Hfp; [|discriminate].
    apply (IH (S k) _ _ rows) in Hgj; [done | lia |].
    apply (elim_inv_step k done todo p rest); [done | lia | done].
Qed.

(** *** Completeness: an invertible matrix always has a pivot *)

Lemma find_pivot_none c rows :
  find_pivot c rows = None → ∀ row, row ∈ rows → nth c row.1 0 = 0.
Proof.
  induction rows as [|r rows IH]; intros Hfp row Hin.
  - by apply elem_of_nil in Hin.
  - cbn [find_pivot] in Hfp. destruct (decide (nth c r.1 0 = 0)) as [Hz|Hnz]; [|discriminate].
    destruct (find_pivot c rows) as [[p rest]|]; [discriminate|].
    apply elem_of_cons in Hin as [->|Hin]; [done | by apply IH].
Qed.

(** A right inverse of [A] solves every system the elimination reaches. *)
Lemma good_solved (B : nat → nat → Qc) row :
  good n A row → right_inverse n A B →
  ∀ j, (j < n)%nat → bigsum n (λ i, nth i row.1 0 * B i j) = nth j row.2 0.
Proof.
  intros (_ & _ & Hg) HB j Hj.
  rewrite (bigsum_ext _ _ (λ i, bigsum n (λ t, nth t row.2 0 * (entry A t i * B i j)))).
  - rewrite bigsum_swap.
    rewrite (bigsum_ext _ _ (λ t, nth t row.2 0 * delta t j)).
    + by apply bigsum_delta_r.
    + intros t Ht. rewrite bigsum_scale. by rewrite HB.
  - intros i Hi. rewrite <- Hg by done.
    rewrite <- (Qcmult_comm (B i j)), <- bigsum_scale.
    apply bigsum_ext. intros t _. ring.
Qed.

(** When column [k] has no pivot, the vector [v] below is in the kernel of
    every left part, hence of [A]; a left inverse of [A] then forces
    [v k = 0], but [v k = 1]. *)
Lemma no_pivot_singular k done todo (B : nat → nat → Qc) :
  elim_inv n A k done todo → (k < n)%nat → find_pivot k todo = None →
  right_inverse n A B →
  (∀ i j, (i < n)%nat → (j < n)%nat → bigsum n (λ t, B i t * entry A t j) = delta i j) →
  False.
Proof.
  intros (Hlen & (Hdl & Hdone & Htodo) & Hgood & HQ) Hk Hfp HR HL.
  pose (v := λ t, if decide (t < k)%nat
                  then - nth k (nth t done ([], [])).1 0 else delta k t).
  assert (Hvk : v k = 1).
  { unfold v, delta. rewrite decide_False by lia. by rewrite decide_True. }
  assert (Hker : ∀ row, row ∈ done ++ todo → bigsum n (λ t, nth t row.1 0 * v t) = 0).
  { intros row Hin. apply elem_of_app in Hin as [Hin|Hin].
    - apply list_elem_of_In, (In_nth _ _ (([], []) : list Qc * list Qc)) in Hin
        as (i & Hi & <-).
      rewrite (bigsum_ext _ _
        (λ t, delta i t * v t + (λ _, nth k (nth i done ([], [])).1 0) t * delta t k)).
      + rewrite bigsum_plus, bigsum_delta, bigsum_delta_r by lia.
        unfold v. rewrite decide_True by lia. ring.
      + intros t Ht. unfold v, delta.
        destruct (decide (t < k)%nat) as [Htk|Htk].
        * rewrite (Hdone i t) by lia. unfold delta.
          rewrite (decide_False (P := t = k)) by lia. ring.
        * destruct (decide (t = k)) as [->|Hne].
          -- rewrite (decide_False (P := i = k)) by lia.
             rewrite !(decide_True (P := k = k)) by done. ring.
          -- rewrite (decide_False (P := k = t)) by lia.
             rewrite (decide_False (P := i = t)) by lia. ring.
    - apply bigsum_ext_zero. intros t Ht. unfold v, delta.
      destruct (decide (t < k)%nat) as [Htk|Htk].
      + rewrite (Htodo row Hin t Htk). ring.
      + destruct (decide (k = t)) as [<-|Hne]; [|ring].
        rewrite (find_pivot_none k todo Hfp row Hin). ring. }
  assert (Hsol : solves n (λ i j, B i j + v i * delta 0 j) (done ++ todo)).
  { intros row Hin j Hj.
    rewrite (bigsum_ext _ _ (λ i, nth i row.1 0 * B i j + delta 0 j * (nth i row.1 0 * v i)))
      by (intros; ring).
    rewrite bigsum_plus, bigsum_scale, (Hker row Hin).
    rewrite (good_solved B row); [ring | | done | done].
    rewrite Forall_forall in Hgood. by apply Hgood. }
  assert (HAv : ∀ a, (a < n)%nat → bigsum n (λ i, entry A a i * v i) = 0).
  { intros a Ha. pose proof (HQ _ Hsol a 0%nat Ha ltac:(lia)) as H.
    cbv beta in H.
    rewrite (bigsum_ext _ _ (λ i, entry A a i * B i 0%nat + entry A a i * v i)) in H.
    - rewrite bigsum_plus, (HR a 0%nat) in H by lia.
      apply (f_equal (λ x, x - delta a 0)) in H. ring_simplify in H. exact H.
    - intros i _. unfold delta at 1. rewrite decide_True by done. ring. }
  assert (Hv0 : v k = 0).
  { rewrite <- (bigsum_delta n k v Hk).
    rewrite (bigsum_ext _ _ (λ t, bigsum n (λ a, B k a * (entry A a t * v t)))).
    - rewrite bigsum_swap. apply bigsum_ext_zero. intros a Ha.
      rewrite bigsum_scale, HAv by done. ring.
    - intros t Ht. rewrite <- (HL k t) by done.
      rewrite <- (Qcmult_comm (v t)), <- bigsum_scale.
      apply bigsum_ext. intros a _. ring. }
  rewrite Hvk in Hv0. discriminate.
Qed.

Lemma gauss_jordan_complete m (B : nat → nat → Qc) : ∀ k done todo,
  (k + m = n)%nat → elim_inv n A k done todo →
  right_inverse n A B →
  (∀ i j, (i < n)%nat → (j < n)%nat → bigsum n (λ t, B i t * entry A t j) = delta i j) →
  ∃ rows, gauss_jordan (seq k m) done todo = Some rows.
Proof.
  induction m as [|m IH]; intros k done todo Hk Hinv HR HL.
  - by exists done.
  - cbn [seq gauss_jordan].
    destruct (find_pivot k todo) as [[p rest]|] eqn:Hfp.
    + apply IH; [lia | | done | done].
      apply (elim_inv_step k done todo p rest); [done | lia | done].
    + destruct (no_pivot_singular k done todo B); (done || lia).
Qed.

End Elimination.

Lemma nth_identity n i : (i < n)%nat → nth i (identity n) [] = map (λ j, delta i j) (seq 0 n).
Proof.
  intros Hi. unfold identity.
  rewrite (nth_indep _ [] (map (λ j, delta 0 j) (seq 0 n))) by (by rewrite length_tab).
  change (map (λ j, delta 0 j) (seq 0 n))
    with ((λ i, map (λ j, if decide (i = j) then 1 else 0) (seq 0 n)) 0%nat).
  rewrite map_nth, seq_nth by done. reflexivity.
Qed.

Lemma mmul_tab n A B (f : nat → nat → Qc) :
  rect n n A → rect n n B →
  (∀ i j, (i < n)%nat → (j < n)%nat →
     bigsum n (λ t, entry A i t * entry B t j) = f i j) →
  mmul A B = map (λ i, map (λ j, f i j) (seq 0 n)) (seq 0 n).
Proof.
  intros HA HB H. unfold mmul.
  destruct (decide (n = 0%nat)) as [->|Hn].
  { destruct HA as [HA _]. by destruct A. }
  rewrite (rect_ncols n n B) by (done || lia).
  rewrite (as_tab [] A n) at 1 by apply HA. rewrite map_map.
  apply tab_ext. intros i Hi. apply tab_ext. intros j Hj.
  rewrite (dot_bigsum _ _ n)
    by (by apply (rect_row n) || (rewrite length_column; apply HB)).
  rewrite <- H by done. apply bigsum_ext. intros t Ht.
  rewrite nth_column by (destruct HB; lia). reflexivity.
Qed.

Lemma identity_tab n : identity n = map (λ i, map (λ j, delta i j) (seq 0 n)) (seq 0 n).
Proof. reflexivity. Qed.

Lemma zip_identity n A :
  rect n n A →
  zip A (identity n) = map (λ i, (nth i A [], map (λ j, delta i j) (seq 0 n))) (seq 0 n).
Proof.
  intros HA. rewrite (as_tab [] A n) at 1 by apply HA. unfold identity.
  rewrite zip_with_tab. reflexivity.
Qed.

Lemma elim_inv_init n A : rect n n A → elim_inv n A 0 [] (zip A (identity n)).
Proof.
  intros HA. rewrite (zip_identity n A HA). split; [|split; [|split]].
  - rewrite length_tab. lia.
  - repeat split; [intros; lia..].
  - rewrite app_nil_l. apply Forall_forall. intros row Hin.
    apply list_elem_of_fmap in Hin as (i & -> & Hin).
    apply elem_of_seq in Hin. repeat split; cbn [fst snd].
    + apply (rect_row n); [done | lia].
    + apply length_tab.
    + intros j Hj.
      rewrite (bigsum_ext _ _ (λ t, delta i t * entry A t j))
        by (intros t Ht; by rewrite nth_tab).
      rewrite bigsum_delta by lia. reflexivity.
  - intros X HX a j Ha Hj. rewrite app_nil_l in HX.
    specialize (HX (nth a A [], map (λ j, delta a j) (seq 0 n))).
    cbn [fst snd] in HX. rewrite <- (nth_tab (λ j, delta a j) n j Hj).
    rewrite <- HX; [reflexivity | | done].
    apply list_elem_of_fmap. exists a. split; [done|]. apply elem_of_seq. lia.
Qed.

(** What the elimination returns is a two-sided inverse. *)
Lemma inverse_sound n A B :
  rect n n A → inverse A = Some B →
  rect n n B ∧ mmul A B = identity n ∧ mmul B A = identity n.
Proof.
  intros HA. unfold inverse. replace (length A) with n by (symmetry; apply HA).
  destruct (gauss_jordan _ _ _) as [rows|] eqn:Hgj; [|discriminate].
  intros [= <-].
  apply (gauss_jordan_sound n A n 0) in Hgj; [|lia|by apply elim_inv_init].
  destruct Hgj as ((Hlen & Hunit & _) & Hgood & HQ).
  assert (Hrow : ∀ i, (i < n)%nat → good n A (nth i rows ([], []))).
  { intros i Hi. rewrite Forall_forall in Hgood. apply Hgood.
    apply list_elem_of_In, nth_In. lia. }
  assert (HB : rect n n (map snd rows)).
  { split; [by rewrite length_map|]. apply Forall_forall.
    intros r Hin. apply list_elem_of_In in Hin. apply in_map_iff in Hin.
    destruct Hin as [row [<- Hin]]. apply list_elem_of_In in Hin.
    rewrite Forall_forall in Hgood. apply (Hgood row Hin). }
  assert (HBi : ∀ i, (i < n)%nat → nth i (map snd rows) [] = (nth i rows ([], [])).2).
  { intros i Hi. by rewrite (nth_map_lt snd rows i (([], []) : list Qc * list Qc)) by lia. }
  split; [done|]. split.
  - rewrite identity_tab. apply mmul_tab; try done.
    apply (HQ (λ i j, entry (map snd rows) i j)).
    intros row Hin j Hj.
    apply list_elem_of_In, (In_nth _ _ (([], []) : list Qc * list Qc)) in Hin
      as (c & Hc & <-).
    rewrite (bigsum_ext _ _ (λ i, delta c i * entry (map snd rows) i j)).
    + rewrite bigsum_delta by lia. unfold entry. by rewrite HBi by lia.
    + intros i Hi. by rewrite Hunit by lia.
  - rewrite identity_tab. apply mmul_tab; try done.
    intros i j Hi Hj. destruct (Hrow i Hi) as (_ & _ & Hg).
    rewrite <- Hunit by lia. rewrite <- Hg by done.
    apply bigsum_ext. intros t Ht. unfold entry at 1. by rewrite HBi.
Qed.

Lemma entry_tab (f : nat → nat → Qc) n w i j :
  (i < n)%nat → (j < w)%nat →
  entry (map (λ i, map (λ j, f i j) (seq 0 w)) (seq 0 n)) i j = f i j.
Proof.
  intros Hi Hj. unfold entry.
  rewrite (nth_map_lt _ _ _ 0%nat) by (by rewrite length_seq).
  rewrite seq_nth by done. by rewrite nth_tab.
Qed.

Lemma mmul_entry n A B i j :
  rect n n A → rect n n B → mmul A B = identity n → (i < n)%nat → (j < n)%nat →
  bigsum n (λ t, entry A i t * entry B t j) = delta i j.
Proof.
  intros HA HB H Hi Hj.
  rewrite <- (entry_tab (λ i j, bigsum n (λ t, entry A i t * entry B t j)) n n i j) by done.
  rewrite <- (mmul_tab n A B) by done. rewrite H, identity_tab. by apply entry_tab.
Qed.

(** ... and the elimination finds the inverse whenever there is one: it
    fails on singular matrices only. *)
Lemma inverse_complete n A B :
  rect n n A → rect n n B → mmul A B = identity n → mmul B A = identity n →
  inverse A = Some B.
Proof.
  intros HA HB HAB HBA.
  destruct (gauss_jordan_complete n A n (entry B) 0 [] (zip A (identity n)))
    as [rows Hgj].
  - lia.
  - by apply elim_inv_init.
  - intros a j Ha Hj. by apply mmul_entry.
  - intros i j Hi Hj. by apply mmul_entry.
  - assert (Hinv : inverse A = Some (map snd rows)).
    { unfold inverse. replace (length A) with n by (symmetry; apply HA). by rewrite Hgj. }
    rewrite Hinv. f_equal.
    destruct (inverse_sound n A _ HA Hinv) as (HB' & HAB' & HBA').
    set (B' := map snd rows) in *.
    rewrite (rect_tab n n B' HB'), (rect_tab n n B HB).
    apply tab_ext; intros i Hi; apply tab_ext; intros j Hj.
    rewrite <- (bigsum_delta_r n j (λ t, entry B' i t)) by done.
    rewrite (bigsum_ext _ _
      (λ t, bigsum n (λ s, entry B' i t * entry A t s * entry B s j))).
    + rewrite bigsum_swap.
      rewrite (bigsum_ext _ _ (λ s, delta i s * entry B s j)).
      * by apply (bigsum_delta n i (λ s, entry B s j)).
      * intros s Hs. rewrite <- (mmul_entry n B' A i s) by done.
        rewrite <- (Qcmult_comm (entry B s j)), <- bigsum_scale.
        apply bigsum_ext. intros; ring.
    + intros t Ht. rewrite <- (mmul_entry n A B t j) by done.
      rewrite <- bigsum_scale. apply bigsum_ext. intros; ring.
Qed.

(** ** The loops compute the quantities of the specification *)


Lemma insert_tab {A} (f : nat → A) n k x :
  <[k := x]> (map f (seq 0 n)) = map (λ i, if decide (i = k) then x else f i) (seq 0 n).
Proof.
  enough (H : ∀ s, <[k := x]> (map f (seq s n)) =
                   map (λ i, if decide (i = s + k)%nat then x else f i) (seq s n))
    by apply (H 0%nat).
  revert k. induction n as [|n IH]; intros k s; [reflexivity|].
  destruct k as [|k]; cbn [seq map].
  - change (<[0%nat:=x]> (f s :: map f (seq (S s) n))) with (x :: map f (seq (S s) n)).
    rewrite decide_True by lia. f_equal.
    apply map_ext_in. intros i [Hi _]%in_seq. by rewrite decide_False by lia.
  - change (<[S k:=x]> (f s :: map f (seq (S s) n)))
      with (f s :: <[k:=x]> (map f (seq (S s) n))).
    rewrite decide_False by lia. f_equal. rewrite IH.
    apply map_ext. intros i. by replace (S s + k)%nat with (s + S k)%nat by lia.
Qed.

Lemma forallb_length (m : list (list Qc)) w :
  Forall (λ r, length r = w) m → forallb (λ r, Nat.eqb (length r) w) m = true.
Proof.
  induction 1 as [|r m Hr _ IH]; [reflexivity|].
  cbn [forallb]. rewrite IH, Hr, Nat.eqb_refl. reflexivity.
Qed.

Lemma np_matmul_rect w V v :
  rect w w V → length v = w → np_matmul V v = Ok (mvmul V v).
Proof.
  intros HV Hv. unfold np_matmul. rewrite Hv.
  rewrite (forallb_length V w) by apply HV.
  destruct (decide (w = 0%nat)) as [->|Hw].
  - destruct HV as [HV _]. by destruct V.
  - rewrite (rect_ncols w w) by (done || lia). by rewrite Nat.eqb_refl.
Qed.

Lemma rect_var_grad n w G :
  rect n w G → (0 < n)%nat → rect w w (var_grad_spec G).
Proof.
  intros HG Hn. unfold var_grad_spec. rewrite (rect_ncols n w) by done.
  split; [apply length_tab|]. apply Forall_forall.
  intros r Hin. apply list_elem_of_In, in_map_iff in Hin. destruct Hin as [k [<- _]].
  apply length_tab.
Qed.

Lemma inv_var_grad n w G V :
  rect n w G → (2 ≤ n)%nat → np_linalg_inv (np_cov G) = Ok V →
  np_cov G = Arr2 (var_grad_spec G) ∧ rect w w V ∧ is_inverse (var_grad_spec G) V.
Proof.
  intros HG Hn Hinv.
  destruct (decide (w = 1%nat)) as [->|Hw].
  { rewrite (np_cov_single n) in Hinv by done. discriminate. }
  rewrite (np_cov_spec n w) in Hinv |- * by done.
  assert (HM : rect w w (var_grad_spec G)) by (apply (rect_var_grad n); [done | lia]).
  cbn [np_linalg_inv] in Hinv.
  destruct (forallb _ _); [|discriminate].
  destruct (inverse (var_grad_spec G)) as [B|] eqn:HB; [|discriminate].
  injection Hinv as ->.
  destruct (inverse_sound w _ _ HM HB) as (HV & H1 & H2).
  unfold is_inverse. destruct HM as [-> _]. done.
Qed.

Lemma length_cross_cov_spec dim S G j : length (cross_cov_spec dim S G j) = dim.
Proof. apply length_tab. Qed.

Lemma length_coef_spec V dim S G j : length (coef_spec V dim S G j) = length V.
Proof. unfold coef_spec, vopp, mvmul. by rewrite !length_map. Qed.

(** For two variables or more the inversion succeeds as soon as [var_grad]
    has an inverse; for one variable [np.cov] returns a 0-d array, which
    [np.linalg.inv] refuses whatever the variance is. *)
Lemma inv_var_grad_complete n w G V :
  rect n w G → (2 ≤ n)%nat → w ≠ 1%nat →
  rect w w V → is_inverse (var_grad_spec G) V →
  np_linalg_inv (np_cov G) = Ok V.
Proof.
  intros HG Hn Hw HV [H1 H2].
  assert (HM : rect w w (var_grad_spec G)) by (apply (rect_var_grad n); [done | lia]).
  rewrite (np_cov_spec n w) by done. cbn [np_linalg_inv].
  destruct HM as [Hl Hr] in H1, H2 |- *. rewrite Hl in *.
  rewrite (forallb_length _ w) by done.
  by rewrite (inverse_complete w _ V).
Qed.

Lemma inv_single_variable n G :
  rect n 1 G → (2 ≤ n)%nat → np_linalg_inv (np_cov G) = Raise LinAlgError.
Proof. intros HG Hn. by rewrite (np_cov_single n). Qed.

Lemma coef_code_spec n dim S G V j :
  rect n dim S → rect n dim G → (2 ≤ n)%nat → (j < dim)%nat →
  np_linalg_inv (np_cov G) = Ok V →
  coef_code n dim S G j = Ok (coef_spec V dim S G j).
Proof.
  intros HS HG Hn Hj Hinv. unfold coef_code.
  rewrite (cross_cov_code_spec n dim) by done. cbn [mbind outcome_bind obind].
  rewrite Hinv. cbn [mbind outcome_bind obind].
  destruct (inv_var_grad n dim G V HG Hn Hinv) as (_ & HV & _).
  rewrite (np_matmul_rect dim) by (done || apply length_tab). reflexivity.
Qed.

Lemma set_item2_tab (f : nat → nat → Qc) n w i j x :
  (i < n)%nat → (j < w)%nat →
  set_item2 (map (λ i', map (λ j', f i' j') (seq 0 w)) (seq 0 n)) i j x =
  Ok (map (λ i', map (λ j', if decide (i' = i ∧ j' = j) then x else f i' j') (seq 0 w))
          (seq 0 n)).
Proof.
  intros Hi Hj. unfold set_item2.
  rewrite (lookup_nth _ _ []) by (by rewrite length_tab).
  rewrite (nth_map_lt _ _ _ 0%nat) by (by rewrite length_seq).
  rewrite seq_nth by done. cbn [Nat.add].
  rewrite length_tab, decide_True by done. f_equal.
  rewrite insert_tab. apply tab_ext. intros i' Hi'.
  destruct (decide (i' = i)) as [->|Hne].
  - rewrite insert_tab. apply tab_ext. intros j' Hj'.
    destruct (decide (j' = j)) as [->|Hne'].
    + by rewrite decide_True.
    + by rewrite decide_False by (intros [_ ?]; done).
  - apply tab_ext. intros j' Hj'. by rewrite decide_False by (intros [? _]; done).
Qed.

Lemma fill_col_app rows1 rows2 S G a j out :
  fill_col (rows1 ++ rows2) S G a j out =
  match fill_col rows1 S G a j out with
  | (out', Ok _) => fill_col rows2 S G a j out'
  | r => r
  end.
Proof.
  revert out. induction rows1 as [|i rows1 IH]; intros out; [reflexivity|].
  cbn [app fill_col]. destruct (fill_item S G a j i out); [apply IH | reflexivity..].
Qed.

Lemma fill_col_spec n w S G a j (f : nat → nat → Qc) :
  rect n w S → rect n w G → length a = w → (j < w)%nat →
  ∀ m, (m ≤ n)%nat →
  fill_col (seq 0 m) S G a j (map (λ i, map (λ j', f i j') (seq 0 w)) (seq 0 n)) =
  (map (λ i, map (λ j', if decide (i < m ∧ j' = j)%nat
                        then entry S i j + dot a (nth i G []) else f i j') (seq 0 w))
       (seq 0 n), Ok tt).
Proof.
  intros HS HG Ha Hj. induction m as [|m IH]; intros Hm.
  - cbn [seq fill_col]. apply (f_equal (λ x, (x, Ok tt))).
    apply tab_ext. intros i _. apply tab_ext. intros j' _.
    by rewrite decide_False by lia.
  - rewrite seq_S, fill_col_app, IH by lia. cbn [Nat.add fill_col]. unfold fill_item.
    rewrite (item2_at_rect n w) by (done || lia). cbn [mbind outcome_bind obind].
    rewrite (row_at_rect n w) by (done || lia). cbn [mbind outcome_bind obind].
    unfold np_dot. rewrite decide_True by (rewrite (rect_row n w G) by (done || lia); done).
    cbn [mbind outcome_bind obind]. rewrite set_item2_tab by (done || lia).
    apply (f_equal (λ x, (x, Ok tt))).
    apply tab_ext. intros i Hi. apply tab_ext. intros j' Hj'.
    destruct (decide (i = m ∧ j' = j)) as [[-> ->]|Hne].
    + by rewrite decide_True by lia.
    + destruct (decide (i < m ∧ j' = j)%nat) as [H1|H1];
        [by rewrite decide_True by lia | by rewrite decide_False by lia].
Qed.

Lemma adjust_cols_app cols1 cols2 n dim S G out :
  adjust_cols (cols1 ++ cols2) n dim S G out =
  match adjust_cols cols1 n dim S G out with
  | (out', Ok _) => adjust_cols cols2 n dim S G out'
  | r => r
  end.
Proof.
  revert out. induction cols1 as [|j cols1 IH]; intros out; [reflexivity|].
  cbn [app adjust_cols]. destruct (adjust_col n dim S G j out) as [out' [[]| |]];
    [apply IH | reflexivity..].
Qed.

Lemma repeat_tab {A} (x : A) n : repeat x n = map (λ _, x) (seq 0 n).
Proof.
  generalize 0%nat. induction n as [|n IH]; intros s; [reflexivity|].
  cbn. f_equal. apply IH.
Qed.

Lemma np_zeros_tab n w : np_zeros n w = map (λ _, map (λ _, 0) (seq 0 w)) (seq 0 n).
Proof. unfold np_zeros. by rewrite zeros_tab, repeat_tab. Qed.

Lemma adjust_code_spec n dim S G V :
  rect n dim S → rect n dim G → (2 ≤ n)%nat →
  np_linalg_inv (np_cov G) = Ok V →
  adjust_code n dim S G = (adjusted_spec V dim S G, Ok tt).
Proof.
  intros HS HG Hn Hinv. unfold adjust_code.
  destruct (inv_var_grad n dim G V HG Hn Hinv) as (_ & HV & _).
  set (adj := λ i j, entry S i j + dot (coef_spec V dim S G j) (nth i G [])).
  assert (Hloop : ∀ c, (c ≤ dim)%nat →
    adjust_cols (seq 0 c) n dim S G (np_zeros (nrows S) (ncols S)) =
    (map (λ i, map (λ j, if decide (j < c)%nat then adj i j else 0) (seq 0 dim))
         (seq 0 n), Ok tt)).
  { induction c as [|c IH]; intros Hc.
    - cbn [seq adjust_cols]. unfold nrows.
      replace (length S) with n by (symmetry; apply HS).
      rewrite (rect_ncols n dim S) by (done || lia).
      by rewrite np_zeros_tab.
    - rewrite seq_S, adjust_cols_app, IH by lia. cbn [Nat.add adjust_cols].
      unfold adjust_col. rewrite (coef_code_spec n dim S G V) by (done || lia).
      rewrite (fill_col_spec n dim) by
        (done || lia || (rewrite length_coef_spec; apply HV)).
      apply (f_equal (λ x, (x, Ok tt))).
      apply tab_ext. intros i Hi. apply tab_ext. intros j Hj.
      destruct (decide (i < n ∧ j = c)%nat) as [[_ ->]|Hne].
      + by rewrite decide_True by lia.
      + destruct (decide (j < c)%nat);
          [by rewrite decide_True by lia | by rewrite decide_False by lia]. }
  rewrite Hloop by done. apply (f_equal (λ x, (x, Ok tt))). unfold adjusted_spec.
  replace (length S) with n by (symmetry; apply HS).
  apply tab_ext. intros i Hi. apply tab_ext. intros j Hj.
  by rewrite decide_True.
Qed.

(** ** The method bodies run as their functional forms *)


Lemma for_fold_pure {A B} (l : list A) (body : A → B → M B) (pure : A → B → outcome B) st :
  (∀ x a, body x a st = (st, pure x a)) →
  ∀ acc, for_fold l acc body st = (st, ofold l acc pure).
Proof.
  intros Hb. induction l as [|x xs IH]; intros acc; [reflexivity|].
  cbn [for_fold ofold]. unfold mbind, M_bind. rewrite Hb.
  destruct (pure x acc); cbn; [apply IH | reflexivity | reflexivity].
Qed.

Ltac unfold_monad :=
  repeat (progress (unfold mbind, M_bind, outcome_bind, obind, mret, M_ret, outcome_ret,
         attr, getrow, getitem2, setitem2, setrow, store, deref, lift; cbv beta iota)).
Ltac case_outcome :=
  repeat match goal with
         | |- context [match ?o with Ok _ => _ | Raise _ => _ | NonFinite => _ end] =>
             destruct o; try reflexivity
         end.

Lemma logloss_run log_loss l st :
  logloss log_loss l st = (st, logloss_code log_loss (self st) (default [] (heap st !! l))).
Proof.
  unfold logloss, logloss_code.
  unfold mbind at 1, M_bind at 1, attr at 1.
  apply for_fold_pure. intros m acc.
  unfold draw_loss, predict_code.
  unfold mbind at 1 2 3, M_bind at 1 2 3, attr at 1 2, getrow, deref, lift; cbv beta iota.
  unfold mbind at 1 2, M_bind at 1 2; cbv beta iota. unfold outcome_bind at 1, obind at 1.
  destruct (row_at _ m) as [beta| |]; try reflexivity.
  rewrite (for_fold_pure _ _ (λ (i : nat) (y_pred : list Z),
              row_at (X_test (self st)) i
              ≫= λ x : list Qc,
                   predict beta x ≫= λ b : Z, Ok (<[i:=b]> y_pred))).
  - unfold_monad. case_outcome.
  - intros i yp. unfold_monad. case_outcome.
Qed.

Lemma state_eta st : mkState (self st) (heap st) (stdout st) = st.
Proof. destruct st; reflexivity. Qed.

Lemma cross_cov_run st S G (sm gm : option (list Qc)) dim j :
  default [] (heap st !! sample (self st)) = S →
  default [] (heap st !! logpost_sample (self st)) = G →
  sm = np_mean0 S → gm = np_mean0 G →
  for_fold (seq 0 (n_iters (self st))) (zeros dim) (λ i current_cov,
      n' ← attr n_iters;
      w ← lift (py_div 1 (of_Z (Z.of_nat n' - 1)));
      s ← attr sample;
      sij ← getitem2 s i j;
      mj ← lift (mean_item sm j);
      g ← attr logpost_sample;
      gi ← getrow g i;
      dev ← lift (sub_mean gi gm);
      lift (iadd current_cov (vscale (w * (sij - mj)) dev))) st
  = (st, cross_cov_code (n_iters (self st)) dim S G j).
Proof.
  intros HS HG -> ->. unfold cross_cov_code. apply for_fold_pure.
  intros i cur. unfold_monad. rewrite HS, HG. case_outcome.
Qed.

Lemma fill_col_run lo S G a j rows : ∀ st out,
  heap st !! lo = Some out →
  lo ≠ sample (self st) → lo ≠ logpost_sample (self st) →
  default [] (heap st !! sample (self st)) = S →
  default [] (heap st !! logpost_sample (self st)) = G →
  for_each rows (λ i,
      s ← attr sample;
      sij ← getitem2 s i j;
      g ← attr logpost_sample;
      gi ← getrow g i;
      dt ← lift (np_dot a gi);
      setitem2 lo i j (sij + dt)) st
  = (with_heap st (<[lo := (fill_col rows S G a j out).1]> (heap st)),
     (fill_col rows S G a j out).2).
Proof.
  induction rows as [|i rows IH]; intros st out Hlo Hs Hg HS HG.
  - cbn. unfold with_heap. rewrite insert_id by done. by rewrite state_eta.
  - cbn [for_each fill_col]. unfold fill_item.
    unfold mbind at 1, M_bind at 1.
    unfold_monad.
    rewrite HS, HG, Hlo. cbn [default].
    destruct (item2_at S i j) as [sij| |]; cbn;
      [|unfold with_heap; rewrite insert_id by done; by rewrite state_eta..].
    destruct (row_at G i) as [gi| |]; cbn;
      [|unfold with_heap; rewrite insert_id by done; by rewrite state_eta..].
    destruct (np_dot a gi) as [dt| |]; cbn;
      [|unfold with_heap; rewrite insert_id by done; by rewrite state_eta..].
    destruct (set_item2 out i j (sij + dt)) as [out'| |]; cbn;
      [|unfold with_heap; rewrite insert_id by done; by rewrite state_eta..].
    rewrite (IH _ out'); cbn.
    + unfold with_heap; cbn. by rewrite insert_insert_eq.
    + by rewrite lookup_insert_eq.
    + done.
    + done.
    + by rewrite lookup_insert_ne.
    + by rewrite lookup_insert_ne.
Qed.


Lemma bind_attr {A B} (f : LRHMC → A) (k : A → M B) st :
  (attr f ≫= k) st = k (f (self st)) st.
Proof. reflexivity. Qed.

Lemma bind_lift {A B} (o : outcome A) (k : A → M B) st :
  (lift o ≫= k) st =
  match o with Ok a => k a st | Raise e => (st, Raise e) | NonFinite => (st, NonFinite) end.
Proof. destruct o; reflexivity. Qed.

Lemma bind_run {A B} (m : M A) (k : A → M B) st st' o :
  m st = (st', o) →
  (m ≫= k) st =
  match o with Ok a => k a st' | Raise e => (st', Raise e) | NonFinite => (st', NonFinite) end.
Proof. intros H. unfold mbind, M_bind. rewrite H. destruct o; reflexivity. Qed.

Lemma with_heap_id st lo out :
  heap st !! lo = Some out → with_heap st (<[lo := out]> (heap st)) = st.
Proof. intros H. unfold with_heap. rewrite insert_id by done. apply state_eta. Qed.

Lemma adjust_col_run lo S G (sm gm : option (list Qc)) vg j st out :
  heap st !! lo = Some out →
  lo ≠ sample (self st) → lo ≠ logpost_sample (self st) →
  default [] (heap st !! sample (self st)) = S →
  default [] (heap st !! logpost_sample (self st)) = G →
  sm = np_mean0 S → gm = np_mean0 G → vg = np_cov G →
  (dim' ← attr d;
    n ← attr n_iters;
    current_cov ← for_fold (seq 0 n) (zeros dim') (λ i current_cov,
      n' ← attr n_iters;
      w ← lift (py_div 1 (of_Z (Z.of_nat n' - 1)));
      s ← attr sample;
      sij ← getitem2 s i j;
      mj ← lift (mean_item sm j);
      g ← attr logpost_sample;
      gi ← getrow g i;
      dev ← lift (sub_mean gi gm);
      lift (iadd current_cov (vscale (w * (sij - mj)) dev)));
    vinv ← lift (np_linalg_inv vg);
    prod ← lift (np_matmul vinv current_cov);
    let a := vopp prod in
    n ← attr n_iters;
    for_each (seq 0 n) (λ i,
      s ← attr sample;
      sij ← getitem2 s i j;
      g ← attr logpost_sample;
      gi ← getrow g i;
      dt ← lift (np_dot a gi);
      setitem2 lo i j (sij + dt))) st
  = (with_heap st
       (<[lo := (adjust_col (n_iters (self st)) (d (self st)) S G j out).1]> (heap st)),
     (adjust_col (n_iters (self st)) (d (self st)) S G j out).2).
Proof.
  intros Hlo Hs Hg HS HG Hsm Hgm Hvg.
  unfold adjust_col, coef_code.
  rewrite !bind_attr.
  erewrite bind_run by (by apply (cross_cov_run st S G sm gm)).
  destruct (cross_cov_code _ _ S G j) as [cc| |];
    [|(cbn; by rewrite with_heap_id)..].
  rewrite bind_lift. subst vg.
  cbn [mbind outcome_bind obind].
  destruct (np_linalg_inv (np_cov G)) as [vinv| |];
    [|(cbn; by rewrite with_heap_id)..].
  rewrite bind_lift.
  cbn [mbind outcome_bind obind].
  destruct (np_matmul vinv cc) as [prod| |];
    [|(cbn; by rewrite with_heap_id)..].
  cbv zeta. rewrite bind_attr.
  by rewrite (fill_col_run lo S G (vopp prod) j _ st out).
Qed.

Lemma adjust_cols_run lo S G (sm gm : option (list Qc)) vg cols : ∀ st out,
  heap st !! lo = Some out →
  lo ≠ sample (self st) → lo ≠ logpost_sample (self st) →
  default [] (heap st !! sample (self st)) = S →
  default [] (heap st !! logpost_sample (self st)) = G →
  sm = np_mean0 S → gm = np_mean0 G → vg = np_cov G →
  for_each cols (λ j,
    dim' ← attr d;
    n ← attr n_iters;
    current_cov ← for_fold (seq 0 n) (zeros dim') (λ i current_cov,
      n' ← attr n_iters;
      w ← lift (py_div 1 (of_Z (Z.of_nat n' - 1)));
      s ← attr sample;
      sij ← getitem2 s i j;
      mj ← lift (mean_item sm j);
      g ← attr logpost_sample;
      gi ← getrow g i;
      dev ← lift (sub_mean gi gm);
      lift (iadd current_cov (vscale (w * (sij - mj)) dev)));
    vinv ← lift (np_linalg_inv vg);
    prod ← lift (np_matmul vinv current_cov);
    let a := vopp prod in
    n ← attr n_iters;
    for_each (seq 0 n) (λ i,
      s ← attr sample;
      sij ← getitem2 s i j;
      g ← attr logpost_sample;
      gi ← getrow g i;
      dt ← lift (np_dot a gi);
      setitem2 lo i j (sij + dt))) st
  = (with_heap st
       (<[lo := (adjust_cols cols (n_iters (self st)) (d (self st)) S G out).1]> (heap st)),
     (adjust_cols cols (n_iters (self st)) (d (self st)) S G out).2).
Proof.
  induction cols as [|j cols IH]; intros st out Hlo Hs Hg HS HG Hsm Hgm Hvg.
  - cbn. by rewrite with_heap_id.
  - cbn [for_each adjust_cols].
    erewrite bind_run by (by apply (adjust_col_run lo S G sm gm vg j st out)).
    destruct (adjust_col _ _ S G j out) as [out' [[]| |]]; cbn [fst snd]; try reflexivity.
    rewrite (IH _ out'); cbn; try done.
    + unfold with_heap; cbn. by rewrite insert_insert_eq.
    + by rewrite lookup_insert_eq.
    + by rewrite lookup_insert_ne.
    + by rewrite lookup_insert_ne.
Qed.

Lemma postprocess_adjust_run st :
  refs_live st →
  let S := default [] (heap st !! sample (self st)) in
  let G := default [] (heap st !! logpost_sample (self st)) in
  let lo := fresh (dom (heap st)) in
  let r := adjust_code (n_iters (self st)) (d (self st)) S G in
  postprocess_adjust st =
    (with_heap st (<[lo := r.1]> (heap st)), r.2 ≫= λ _, Ok lo).
Proof.
  intros [Hs Hg] S G lo r. unfold postprocess_adjust.
  assert (Hfresh : ∀ l, is_Some (heap st !! l) → lo ≠ l).
  { intros l Hl Heq. apply (is_fresh (dom (heap st))). fold lo. rewrite Heq. by apply elem_of_dom. }
  rewrite bind_attr. erewrite bind_run by reflexivity. cbv beta iota zeta.
  rewrite bind_attr. erewrite bind_run by reflexivity. cbv beta iota zeta.
  erewrite bind_run by reflexivity. cbv beta iota zeta.
  rewrite bind_attr.
  erewrite bind_run; cycle 1.
  { apply (adjust_cols_run lo S G _ _ _ _ _ (np_zeros (nrows S) (ncols S))); cbn;
      try reflexivity.
    - by rewrite lookup_insert_eq.
    - by apply Hfresh.
    - by apply Hfresh.
    - rewrite lookup_insert_ne; [done|]. by apply Hfresh.
    - rewrite lookup_insert_ne; [done|]. by apply Hfresh. }
  cbn [self heap stdout with_heap]. unfold with_heap; cbn. rewrite insert_insert_eq.
  fold S G lo. unfold r, adjust_code.
  destruct (adjust_cols _ _ _ S G _) as [out [[]| |]]; reflexivity.
Qed.


Lemma fresh_live st l : is_Some (heap st !! l) → fresh (dom (heap st)) ≠ l.
Proof. intros Hl Heq. apply (is_fresh (dom (heap st))). rewrite Heq. by apply elem_of_dom. Qed.

Lemma postprocess_run log_loss st :
  refs_live st →
  let S := default [] (heap st !! sample (self st)) in
  let G := default [] (heap st !! logpost_sample (self st)) in
  let lo := fresh (dom (heap st)) in
  let r := postprocess_code log_loss (self st) S G in
  postprocess log_loss st =
    (mkState (self st) (<[lo := r.1]> (heap st)) (stdout st ++ printed r.2),
     r.2 ≫= λ _, Ok PyNone).
Proof.
  intros Hlive S G lo r. unfold postprocess.
  erewrite bind_run by (by apply postprocess_adjust_run).
  fold S G lo. unfold r, postprocess_code.
  destruct (adjust_code _ _ S G) as [out [[]| |]]; cbn [fst snd mbind outcome_bind obind printed].
  2,3: (unfold with_heap; by rewrite app_nil_r).
  rewrite bind_attr. erewrite bind_run by apply logloss_run.
  cbn [with_heap self heap stdout].
  rewrite lookup_insert_ne by (apply fresh_live, Hlive). fold S.
  destruct (logloss_code log_loss (self st) S) as [old| |];
    cbn [mbind outcome_bind obind printed].
  2,3: (unfold with_heap; by rewrite app_nil_r).
  erewrite bind_run by apply logloss_run.
  cbn [with_heap self heap stdout]. rewrite lookup_insert_eq.
  change (default [] (Some out)) with out.
  destruct (logloss_code log_loss (self st) out) as [new| |];
    cbn [mbind outcome_bind obind printed].
  2,3: (unfold with_heap; by rewrite app_nil_r).
  reflexivity.
Qed.

(** ** Singular covariance matrices *)
Lemma of_Z_plus a b : of_Z (a + b) = of_Z a + of_Z b.
Proof.
  unfold of_Z. apply Qc_is_canon. cbn [this Qcplus Q2Qc].
  rewrite !Qred_correct, inject_Z_plus. reflexivity.
Qed.

Lemma of_nat_S n : of_nat (S n) = of_nat n + 1.
Proof. unfold of_nat. rewrite Nat2Z.inj_succ. unfold Z.succ. by rewrite of_Z_plus. Qed.

Lemma bigsum_const n c : bigsum n (λ _, c) = of_nat n * c.
Proof.
  induction n as [|n IH]; cbn [bigsum].
  - change (of_nat 0) with 0. ring.
  - rewrite IH, of_nat_S. ring.
Qed.

Lemma mean_const xs c :
  (0 < length xs)%nat → (∀ i, (i < length xs)%nat → nth i xs 0 = c) → mean xs = c.
Proof.
  intros Hn Hc. unfold mean. rewrite vsum_bigsum.
  rewrite (bigsum_ext _ _ (λ _, c)) by done. rewrite bigsum_const.
  field. by apply of_nat_neq0.
Qed.

Lemma covariance_const_l xs ys c :
  (0 < length xs)%nat → length ys = length xs →
  (∀ i, (i < length xs)%nat → nth i xs 0 = c) → covariance xs ys = 0.
Proof.
  intros Hn Hy Hc. rewrite (covariance_bigsum _ _ (length xs)) by done.
  rewrite (mean_const xs c) by done.
  rewrite (bigsum_ext _ _ (λ _, 0)).
  - rewrite bigsum_zero. unfold Qcdiv. ring.
  - intros i Hi. rewrite Hc by done. ring.
Qed.

Lemma dot_zero_l u v : (∀ i, nth i u 0 = 0) → dot u v = 0.
Proof.
  revert v. induction u as [|x u IH]; intros v H; [reflexivity|].
  destruct v as [|y v]; [reflexivity|].
  change (dot (x :: u) (y :: v)) with (x * y + dot u v).
  rewrite IH by (intros i; apply (H (S i))). rewrite (H 0%nat : x = 0). ring.
Qed.

Lemma one_neq_zero : (1 : Qc) ≠ 0.
Proof. discriminate. Qed.

(** A gradient column without variance makes [var_grad] singular. *)
Lemma constant_column_singular n w G k c :
  rect n w G → (2 ≤ n)%nat → (k < w)%nat →
  (∀ i, (i < n)%nat → entry G i k = c) →
  singular (np_cov G).
Proof.
  intros HG Hn Hk Hc.
  assert (Hcov : ∀ l, covariance (column k G) (column l G) = 0).
  { intros l. apply (covariance_const_l _ _ c); rewrite ?length_column.
    - destruct HG; lia.
    - done.
    - intros i Hi. rewrite nth_column by done. apply Hc. destruct HG; lia. }
  destruct (decide (w = 1%nat)) as [->|Hw].
  - rewrite (np_cov_single n) by done. assert (k = 0%nat) as -> by lia. apply Hcov.
  - rewrite (np_cov_spec n w) by done. intros [B [HB _]].
    apply (f_equal (λ M, entry M k k)) in HB.
    assert (HM : rect w w (var_grad_spec G)) by (apply (rect_var_grad n); [done | lia]).
    destruct HM as [HMl HMw]. rewrite HMl in HB.
    unfold entry at 2 in HB. rewrite nth_identity, nth_tab in HB by done.
    unfold delta in HB. rewrite decide_True in HB by done.
    apply one_neq_zero. rewrite <- HB. unfold entry, mmul.
    rewrite (nth_map_lt _ _ _ []) by lia.
    destruct (decide (k < ncols B)%nat) as [HkB|HkB].
    + rewrite nth_tab by done. apply dot_zero_l. intros i.
      unfold var_grad_spec. rewrite (rect_ncols n w) by (done || lia).
      rewrite (nth_map_lt _ _ _ 0%nat), seq_nth by (rewrite ?length_seq; lia).
      cbn [Nat.add]. destruct (decide (i < w)%nat).
      * by rewrite nth_tab.
      * apply nth_overflow. rewrite length_tab. lia.
    + apply nth_overflow. rewrite length_tab. lia.
Qed.

Lemma singular_raises n w G :
  rect n w G → (2 ≤ n)%nat → singular (np_cov G) →
  np_linalg_inv (np_cov G) = Raise LinAlgError.
Proof.
  intros HG Hn. destruct (decide (w = 1%nat)) as [->|Hw].
  - by rewrite (np_cov_single n).
  - rewrite (np_cov_spec n w) by done. intros Hsing. cbn [np_linalg_inv singular] in *.
    assert (HM : rect w w (var_grad_spec G)) by (apply (rect_var_grad n); [done | lia]).
    destruct (forallb _ _); [|done].
    destruct (inverse (var_grad_spec G)) as [B|] eqn:HB; [|done].
    destruct Hsing. exists B.
    destruct (inverse_sound w _ _ HM HB) as (_ & H1 & H2).
    unfold is_inverse. destruct HM as [-> _]. done.
Qed.

Lemma seq_pos n : (0 < n)%nat → seq 0 n = 0%nat :: seq 1 (n - 1).
Proof. intros H. destruct n; [lia|]. cbn. by rewrite Nat.sub_0_r. Qed.

Lemma adjust_code_singular n dim S G :
  rect n dim S → rect n dim G → (2 ≤ n)%nat → (0 < dim)%nat →
  singular (np_cov G) →
  adjust_code n dim S G = (np_zeros (nrows S) (ncols S), Raise LinAlgError).
Proof.
  intros HS HG Hn Hd Hsing. unfold adjust_code. rewrite (seq_pos dim) by done.
  cbn [adjust_cols]. unfold adjust_col, coef_code.
  rewrite (cross_cov_code_spec n dim) by done. cbn [mbind outcome_bind obind].
  by rewrite (singular_raises n dim).
Qed.

Lemma adjust_code_inv_fails n dim S G :
  rect n dim S → rect n dim G → (2 ≤ n)%nat → (0 < dim)%nat →
  (∀ V, np_linalg_inv (np_cov G) ≠ Ok V) →
  (adjust_code n dim S G).1 = np_zeros (nrows S) (ncols S) ∧
  (adjust_code n dim S G).2 = (np_linalg_inv (np_cov G) ≫= λ _, Ok tt).
Proof.
  intros HS HG Hn Hd Hno. unfold adjust_code. rewrite (seq_pos dim) by done.
  cbn [adjust_cols]. unfold adjust_col, coef_code.
  rewrite (cross_cov_code_spec n dim) by done. cbn [mbind outcome_bind obind].
  destruct (np_linalg_inv (np_cov G)) as [V| |]; [by destruct (Hno V)|done..].
Qed.

Lemma adjust_code_one_draw dim S G :
  (0 < dim)%nat →
  adjust_code 1 dim S G = (np_zeros (nrows S) (ncols S), Raise ZeroDivisionError).
Proof.
  intros Hd. unfold adjust_code. rewrite (seq_pos dim) by done.
  cbn [adjust_cols]. unfold adjust_col, coef_code, cross_cov_code.
  cbn [seq ofold]. unfold py_div. rewrite decide_True by reflexivity. reflexivity.
Qed.

(** ** The evaluation loop *)


Lemma dot_comm u v : dot u v = dot v u.
Proof.
  revert v. induction u as [|x u IH]; intros [|y v]; try reflexivity.
  change (x * y + dot u v = y * x + dot v u). rewrite IH. ring.
Qed.

Lemma predict_same_length beta x :
  length beta = length x → predict beta x = Ok (hard_prediction beta x).
Proof.
  intros H. unfold predict, hard_prediction. rewrite decide_True by done.
  by rewrite dot_comm.
Qed.

Lemma predict_code_spec Xt ts w beta :
  ts = length Xt → Forall (λ x, length x = w) Xt → length beta = w →
  predict_code Xt ts beta = Ok (predictions_spec Xt beta).
Proof.
  intros Hts HXt Hb. unfold predict_code. set (body := λ (i : nat) (yp : list Z), _).
  assert (Hloop : ∀ m, (m ≤ ts)%nat →
    ofold (seq 0 m) (repeat 0%Z ts) body =
    Ok (map (λ i, if decide (i < m)%nat then hard_prediction beta (nth i Xt []) else 0%Z)
            (seq 0 ts))).
  { induction m as [|m IH]; intros Hm.
    - cbn [seq ofold]. by rewrite repeat_tab.
    - rewrite seq_S, ofold_app, IH by lia.
      cbn [mbind outcome_bind obind Nat.add ofold]. unfold body at 1.
      unfold row_at. rewrite (lookup_nth Xt m []) by lia.
      cbn [mbind outcome_bind obind].
      rewrite predict_same_length.
      2:{ rewrite Hb. symmetry. rewrite Forall_lookup in HXt. apply (HXt m).
          apply lookup_nth. lia. }
      cbn [mbind outcome_bind obind]. f_equal. rewrite insert_tab. apply tab_ext. intros i Hi.
      destruct (decide (i = m)) as [->|Hne].
      + by rewrite decide_True by lia.
      + destruct (decide (i < m)%nat);
          [by rewrite decide_True by lia | by rewrite decide_False by lia]. }
  rewrite Hloop by done. f_equal. unfold predictions_spec.
  transitivity (map (hard_prediction beta) (map (λ i, nth i Xt []) (seq 0 ts)));
    [|by rewrite <- (as_tab [] Xt ts)].
  rewrite map_map. apply tab_ext. intros i Hi. by rewrite decide_True.
Qed.

Lemma length_predictions_spec Xt beta : length (predictions_spec Xt beta) = length Xt.
Proof. apply length_map. Qed.

(** The first [m] draws of the loop of [logloss]. *)
Lemma logloss_prefix log_loss o S (loss : nat → Qc) m :
  (m ≤ n_iters o)%nat → (m ≤ length S)%nat →
  Forall (λ r, length r = d o) S → held_out_ok o →
  (∀ i, (i < m)%nat →
     log_loss (y_test o) (predictions_spec (X_test o) (nth i S [])) = Ok (loss i)) →
  ofold (seq 0 m) 0 (λ i acc,
    beta ← row_at S i;
    q ← draw_loss log_loss o beta;
    Ok (acc + q))
  = Ok (fold_left (λ total i, total + loss i / of_nat (n_iters o)) (seq 0 m) 0).
Proof.
  intros Hn HS HSw [Hts HXt]. induction m as [|m IH]; intros Hloss; [reflexivity|].
  rewrite seq_S, ofold_app, fold_left_app, IH by (lia || (intros; apply Hloss; lia)).
  cbn [mbind outcome_bind obind Nat.add ofold fold_left]. unfold row_at.
  rewrite (lookup_nth S m []) by lia. cbn [mbind outcome_bind obind].
  unfold draw_loss. rewrite (predict_code_spec _ _ (d o)); try done.
  2:{ rewrite Forall_lookup in HSw. apply (HSw m). apply lookup_nth. lia. }
  cbn [mbind outcome_bind obind]. rewrite Hloss by lia. cbn [mbind outcome_bind obind].
  unfold py_div. rewrite decide_False by (apply of_nat_neq0; lia). reflexivity.
Qed.

Lemma logloss_code_spec log_loss o S (loss : nat → Qc) :
  (n_iters o ≤ length S)%nat →
  Forall (λ r, length r = d o) S → held_out_ok o →
  (∀ i, (i < n_iters o)%nat →
     log_loss (y_test o) (predictions_spec (X_test o) (nth i S [])) = Ok (loss i)) →
  logloss_code log_loss o S = Ok (logloss_spec (n_iters o) loss).
Proof. intros. by apply logloss_prefix. Qed.

Lemma logloss_code_short log_loss o S (loss : nat → Qc) :
  (length S < n_iters o)%nat →
  Forall (λ r, length r = d o) S → held_out_ok o →
  (∀ i, (i < length S)%nat →
     log_loss (y_test o) (predictions_spec (X_test o) (nth i S [])) = Ok (loss i)) →
  logloss_code log_loss o S = Raise IndexError.
Proof.
  intros Hlt HSw Hho Hloss. unfold logloss_code.
  replace (n_iters o) with (length S + (n_iters o - length S))%nat at 1 by lia.
  rewrite seq_app, ofold_app.
  rewrite (logloss_prefix log_loss o S loss) by (done || lia).
  cbn [mbind outcome_bind obind Nat.add].
  destruct (n_iters o - length S)%nat as [|k] eqn:E; [lia|].
  cbn [seq ofold]. unfold row_at.
  rewrite lookup_ge_None_2 by lia. reflexivity.
Qed.

(** The gradient loop of [fit]. *)
Lemma grad_rows_app rows1 rows2 grad D cur :
  grad_rows (rows1 ++ rows2) grad D cur =
  match grad_rows rows1 grad D cur with
  | (cur', Ok _) => grad_rows rows2 grad D cur'
  | r => r
  end.
Proof.
  revert cur. induction rows1 as [|i rows1 IH]; intros cur; [reflexivity|].
  cbn [app grad_rows].
  destruct (r ← row_at D i; set_row cur i (grad r)); [apply IH | reflexivity..].
Qed.

Lemma grad_rows_ok grad D w m : ∀ cur,
  (m ≤ length D)%nat → rect (length D) w cur →
  (∀ r, r ∈ D → length (grad r) = w) →
  ∃ cur', grad_rows (seq 0 m) grad D cur = (cur', Ok tt) ∧ rect (length D) w cur'.
Proof.
  induction m as [|m IH]; intros cur Hm Hcur Hg.
  - exists cur. done.
  - destruct (IH cur) as (cur1 & H1 & Hr1); [lia | done | done |].
    rewrite seq_S, grad_rows_app, H1. cbn [Nat.add grad_rows].
    unfold row_at. rewrite (lookup_nth D m []) by lia.
    cbn [mbind outcome_bind obind]. unfold set_row.
    rewrite (rect_lookup (length D) w cur1) by (done || lia).
    rewrite (rect_row (length D) w cur1) by (done || lia).
    rewrite decide_True.
    2:{ apply Hg, list_elem_of_In, nth_In. lia. }
    eexists. split; [reflexivity|]. destruct Hr1 as [Hl Hw]. split.
    + by rewrite length_insert.
    + apply Forall_insert; [done|]. apply Hg, list_elem_of_In, nth_In. lia.
Qed.

Lemma grad_rows_short grad D w n cur :
  (length D < n)%nat → rect (length D) w cur →
  (∀ r, r ∈ D → length (grad r) = w) →
  (grad_rows (seq 0 n) grad D cur).2 = Raise IndexError.
Proof.
  intros Hlt Hcur Hg.
  replace n with (length D + (n - length D))%nat by lia.
  rewrite seq_app, grad_rows_app.
  destruct (grad_rows_ok grad D w (length D) cur) as (cur' & -> & _); try done.
  destruct (n - length D)%nat as [|k] eqn:E; [lia|].
  cbn [Nat.add seq grad_rows]. unfold row_at.
  rewrite lookup_ge_None_2 by lia. reflexivity.
Qed.

Lemma rect_np_zeros n w : rect n w (np_zeros n w).
Proof.
  unfold np_zeros, zeros. split; [apply repeat_length|].
  apply Forall_forall. intros r Hin. apply list_elem_of_In, repeat_spec in Hin as ->.
  apply repeat_length.
Qed.


Lemma grad_loop_run grad D l1 l2 rows : ∀ st cur,
  sample (self st) = l1 → logpost_sample (self st) = l2 → l1 ≠ l2 →
  heap st !! l1 = Some D → heap st !! l2 = Some cur →
  for_each rows (λ i,
    s ← attr sample;
    r ← getrow s i;
    g ← attr logpost_sample;
    setrow g i (grad r)) st
  = (with_heap st (<[l2 := (grad_rows rows grad D cur).1]> (heap st)),
     (grad_rows rows grad D cur).2).
Proof.
  induction rows as [|i rows IH]; intros st cur Hs Hg Hne HD Hcur.
  - cbn. by rewrite with_heap_id.
  - cbn [for_each grad_rows].
    unfold mbind at 1, M_bind at 1.
    unfold_monad.
    rewrite Hs, Hg, HD, Hcur. cbn [default from_option id].
    destruct (row_at D i) as [r| |]; cbn [fst snd].
    2,3: by rewrite with_heap_id.
    destruct (set_row cur i (grad r)) as [cur'| |]; cbn [fst snd].
    2,3: by rewrite with_heap_id.
    rewrite (IH _ cur'); cbn [with_heap self heap stdout]; try done.
    + unfold with_heap; cbn. by rewrite insert_insert_eq.
    + by rewrite lookup_insert_ne.
    + by rewrite lookup_insert_eq.
Qed.

Lemma fit_run stan_draws grad n st :
  let D := stan_draws (2 * n)%nat in
  let l1 := fresh (dom (heap st)) in
  let l2 := fresh (dom (<[l1 := D]> (heap st))) in
  let r := grad_rows (seq 0 n) grad D (np_zeros (nrows D) (ncols D)) in
  fit stan_draws grad n st =
    (mkState (mkLRHMC (X_test (self st)) (y_test (self st)) (d (self st))
                      (test_size (self st)) n l1 l2)
             (<[l2 := r.1]> (<[l1 := D]> (heap st))) (stdout st),
     r.2 ≫= λ _, Ok PyNone).
Proof.
  intros D l1 l2 r. unfold fit.
  erewrite bind_run by reflexivity. cbv beta iota.
  rewrite bind_attr. cbn [self n_iters].
  erewrite bind_run by reflexivity. cbv beta iota zeta.
  erewrite bind_run by reflexivity. cbv beta iota.
  rewrite bind_attr. cbn [self sample heap].
  erewrite bind_run by reflexivity. cbv beta iota. cbn [heap].
  rewrite lookup_insert_eq. change (default [] (Some ?x)) with x.
  erewrite bind_run by reflexivity. cbv beta iota zeta. cbn [self heap stdout].
  erewrite bind_run by reflexivity. cbv beta iota. cbn [self heap stdout].
  rewrite bind_attr. cbn [self n_iters].
  fold D l1. fold l2.
  assert (Hne : l1 ≠ l2).
  { intros Heq. apply (is_fresh (dom (<[l1 := D]> (heap st)))). fold l2.
    rewrite <- Heq. apply elem_of_dom. rewrite lookup_insert_eq. by eexists. }
  erewrite bind_run; cycle 1.
  { apply (grad_loop_run grad D l1 l2); cbn [self heap sample logpost_sample]; try done.
    - rewrite lookup_insert_ne by done. by rewrite lookup_insert_eq.
    - by rewrite lookup_insert_eq. }
  fold r. cbn [with_heap self heap stdout]. rewrite insert_insert_eq.
  destruct r as [cur [[]| |]]; reflexivity.
Qed.

(** ** Order of the draws and of the held-out rows *)


Lemma vsum_perm u v : u ≡ₚ v → vsum u = vsum v.
Proof.
  induction 1 as [|x u v _ IH|x y u|u v w _ IH1 _ IH2].
  - reflexivity.
  - change (x + vsum u = x + vsum v). by rewrite IH.
  - change (y + (x + vsum u) = x + (y + vsum u)). ring.
  - by rewrite IH1.
Qed.

Lemma foldr_max_spec y ys :
  (foldr Z.max y ys = y ∨ foldr Z.max y ys ∈ ys) ∧
  (y ≤ foldr Z.max y ys)%Z ∧ ∀ z, z ∈ ys → (z ≤ foldr Z.max y ys)%Z.
Proof.
  induction ys as [|x ys (Hin & Hy & Hall)]; cbn [foldr].
  - split; [by left|]. split; [lia|]. intros z Hz. by apply elem_of_nil in Hz.
  - split; [|split].
    + destruct (Z.max_spec x (foldr Z.max y ys)) as [[_ ->]|[_ ->]].
      * destruct Hin as [->|Hin]; [by left | right; by apply list_elem_of_further].
      * right. apply list_elem_of_here.
    + lia.
    + intros z [->|Hz]%elem_of_cons; [lia|]. specialize (Hall z Hz). lia.
Qed.

Lemma foldr_min_spec y ys :
  (foldr Z.min y ys = y ∨ foldr Z.min y ys ∈ ys) ∧
  (foldr Z.min y ys ≤ y)%Z ∧ ∀ z, z ∈ ys → (foldr Z.min y ys ≤ z)%Z.
Proof.
  induction ys as [|x ys (Hin & Hy & Hall)]; cbn [foldr].
  - split; [by left|]. split; [lia|]. intros z Hz. by apply elem_of_nil in Hz.
  - split; [|split].
    + destruct (Z.min_spec x (foldr Z.min y ys)) as [[_ ->]|[_ ->]].
      * right. apply list_elem_of_here.
      * destruct Hin as [->|Hin]; [by left | right; by apply list_elem_of_further].
    + lia.
    + intros z [->|Hz]%elem_of_cons; [lia|]. specialize (Hall z Hz). lia.
Qed.

Lemma label_max_spec ys :
  ys ≠ [] → label_max ys ∈ ys ∧ ∀ z, z ∈ ys → (z ≤ label_max ys)%Z.
Proof.
  destruct ys as [|y ys]; [done|]. intros _. cbn [label_max].
  destruct (foldr_max_spec y ys) as (Hin & Hy & Hall). split.
  - destruct Hin as [->|Hin]; [apply list_elem_of_here | by apply list_elem_of_further].
  - intros z [->|Hz]%elem_of_cons; [done | by apply Hall].
Qed.

Lemma label_min_spec ys :
  ys ≠ [] → label_min ys ∈ ys ∧ ∀ z, z ∈ ys → (label_min ys ≤ z)%Z.
Proof.
  destruct ys as [|y ys]; [done|]. intros _. cbn [label_min].
  destruct (foldr_min_spec y ys) as (Hin & Hy & Hall). split.
  - destruct Hin as [->|Hin]; [apply list_elem_of_here | by apply list_elem_of_further].
  - intros z [->|Hz]%elem_of_cons; [done | by apply Hall].
Qed.

Lemma perm_nonempty {A} (l l' : list A) : l ≡ₚ l' → l ≠ [] → l' ≠ [].
Proof. intros Hp Hl ->. by apply Permutation_nil_r in Hp. Qed.

Lemma label_max_perm ys ys' : ys ≡ₚ ys' → label_max ys = label_max ys'.
Proof.
  intros Hp. destruct (decide (ys = [])) as [->|Hne].
  { by apply Permutation_nil in Hp as ->. }
  destruct (label_max_spec ys Hne) as [Hin Hle].
  destruct (label_max_spec ys' (perm_nonempty _ _ Hp Hne)) as [Hin' Hle'].
  assert (Hin1 : label_max ys ∈ ys') by (by rewrite <- Hp).
  assert (Hin2 : label_max ys' ∈ ys) by (by rewrite Hp).
  specialize (Hle _ Hin2). specialize (Hle' _ Hin1). lia.
Qed.

Lemma label_min_perm ys ys' : ys ≡ₚ ys' → label_min ys = label_min ys'.
Proof.
  intros Hp. destruct (decide (ys = [])) as [->|Hne].
  { by apply Permutation_nil in Hp as ->. }
  destruct (label_min_spec ys Hne) as [Hin Hle].
  destruct (label_min_spec ys' (perm_nonempty _ _ Hp Hne)) as [Hin' Hle'].
  assert (Hin1 : label_min ys ∈ ys') by (by rewrite <- Hp).
  assert (Hin2 : label_min ys' ∈ ys) by (by rewrite Hp).
  specialize (Hle _ Hin2). specialize (Hle' _ Hin1). lia.
Qed.

Lemma two_classes_perm ys ys' : ys ≡ₚ ys' → two_classes ys = two_classes ys'.
Proof.
  intros Hp. unfold two_classes.
  rewrite (label_max_perm ys ys' Hp), (label_min_perm ys ys' Hp).
  apply bool_decide_ext. by rewrite Hp.
Qed.

Lemma zip_with_map_same {A B C D} (h : B → C → D) (f : A → B) (g : A → C) l :
  zip_with h (map f l) (map g l) = map (λ x, h (f x) (g x)) l.
Proof. induction l as [|x l IH]; [reflexivity|]. cbn. by rewrite IH. Qed.

(** The loss does not depend on the order of the (label, prediction)
    pairs. *)
Lemma sk_log_loss_perm pen_hit pen_miss (ps ps' : list (Z * Z)) :
  ps ≡ₚ ps' →
  sk_log_loss pen_hit pen_miss (map fst ps) (map snd ps) =
  sk_log_loss pen_hit pen_miss (map fst ps') (map snd ps').
Proof.
  intros Hp. unfold sk_log_loss.
  assert (Hfst : map fst ps ≡ₚ map fst ps') by by apply Permutation_map.
  rewrite !length_map, !decide_True by done.
  rewrite (two_classes_perm _ _ Hfst). destruct (two_classes _); [|done].
  rewrite (label_max_perm _ _ Hfst), !zip_with_map_same.
  rewrite (Permutation_length Hp). do 2 f_equal.
  apply vsum_perm. by apply Permutation_map.
Qed.

Lemma ofold_rows {B} (F : list Qc → B → outcome B) S : ∀ pre acc,
  ofold (seq (length pre) (length S)) acc (λ m a, beta ← row_at (pre ++ S) m; F beta a)
  = ofold S acc F.
Proof.
  induction S as [|x S IH]; intros pre acc; [reflexivity|].
  cbn [length seq ofold]. unfold row_at at 1.
  rewrite list_lookup_middle by done. cbn [mbind outcome_bind obind].
  destruct (F x acc) as [acc'| |]; cbn [mbind outcome_bind obind]; try reflexivity.
  specialize (IH (pre ++ [x]) acc'). rewrite length_app in IH. cbn [length] in IH.
  rewrite Nat.add_1_r, <- app_assoc in IH. exact IH.
Qed.

Lemma ofold_sum {A} (f : A → outcome Qc) (g : A → Qc) l : ∀ acc,
  Forall (λ x, f x = Ok (g x)) l →
  ofold l acc (λ x a, q ← f x; Ok (a + q)) = Ok (acc + vsum (map g l)).
Proof.
  induction l as [|x l IH]; intros acc Hf.
  - change (vsum (map g [])) with 0. cbn. f_equal. ring.
  - apply Forall_cons in Hf as [Hx Hl]. cbn [ofold]. rewrite Hx.
    cbn [mbind outcome_bind obind]. rewrite IH by done. f_equal.
    change (vsum (map g (x :: l))) with (g x + vsum (map g l)). ring.
Qed.

Lemma ofold_raise {A} (f : A → outcome Qc) e l acc :
  l ≠ [] → Forall (λ x, f x = Raise e) l →
  ofold l acc (λ x a, q ← f x; Ok (a + q)) = Raise e.
Proof.
  destruct l as [|x l]; [done|]. intros _ [Hx _]%Forall_cons.
  cbn [ofold]. by rewrite Hx.
Qed.

(** One term of the total, for scikit-learn's loss. *)
Lemma draw_loss_sk pen_hit pen_miss o beta :
  held_out_ok o → length beta = d o → (0 < n_iters o)%nat →
  draw_loss (sk_log_loss pen_hit pen_miss) o beta =
  ll ← sk_log_loss pen_hit pen_miss (y_test o) (predictions_spec (X_test o) beta);
  Ok (ll / of_nat (n_iters o)).
Proof.
  intros [Hts HXt] Hb Hn. unfold draw_loss.
  rewrite (predict_code_spec _ _ (d o)) by done. cbn [mbind outcome_bind obind].
  destruct (sk_log_loss _ _ _ _); cbn [mbind outcome_bind obind]; try reflexivity.
  unfold py_div. by rewrite decide_False by (by apply of_nat_neq0).
Qed.

Lemma sk_log_loss_cases pen_hit pen_miss yt yp :
  sk_log_loss pen_hit pen_miss yt yp =
  if bool_decide (length yt = length yp) && two_classes yt
  then Ok (vsum (zip_with (penalty pen_hit pen_miss (label_max yt)) yt yp)
           / of_nat (length yt))
  else Raise ValueError.
Proof.
  unfold sk_log_loss. destruct (decide (length yt = length yp)).
  - rewrite bool_decide_eq_true_2 by done. reflexivity.
  - rewrite bool_decide_eq_false_2 by done. reflexivity.
Qed.

(** * The claims *)


(** ** Shapes *)
Lemma set_item2_rect n w out i j x out' :
  rect n w out → set_item2 out i j x = Ok out' → rect n w out'.
Proof.
  intros [Hn Hw]. unfold set_item2. destruct (out !! i) as [r|] eqn:Hr; [|done].
  destruct (decide (j < length r)%nat); [|done]. intros [= <-]. split.
  - by rewrite length_insert.
  - apply Forall_insert; [done|]. rewrite length_insert.
    rewrite Forall_lookup in Hw. by apply (Hw i).
Qed.

Lemma fill_col_rect n w S G a j rows : ∀ out,
  rect n w out → rect n w (fill_col rows S G a j out).1.
Proof.
  induction rows as [|i rows IH]; intros out Hout; [done|].
  cbn [fill_col]. destruct (fill_item S G a j i out) as [out'| |] eqn:E; [|done..].
  apply IH. unfold fill_item in E.
  destruct (item2_at S i j); [|done..]. cbn [mbind outcome_bind obind] in E.
  destruct (row_at G i); [|done..]. cbn [mbind outcome_bind obind] in E.
  destruct (np_dot a _); [|done..]. cbn [mbind outcome_bind obind] in E.
  by apply (set_item2_rect n w out i j _ out' Hout E).
Qed.

Lemma adjust_cols_rect n w n' dim S G cols : ∀ out,
  rect n w out → rect n w (adjust_cols cols n' dim S G out).1.
Proof.
  induction cols as [|j cols IH]; intros out Hout; [done|].
  cbn [adjust_cols].
  assert (Hcol : rect n w (adjust_col n' dim S G j out).1).
  { unfold adjust_col. destruct (coef_code _ _ _ _ _); [|done..]. by apply fill_col_rect. }
  destruct (adjust_col n' dim S G j out) as [out' [[]| |]]; cbn [fst] in *; [|done..].
  by apply IH.
Qed.

Lemma adjust_code_rect n w n' dim S G :
  rect n w S → rect n w (adjust_code n' dim S G).1.
Proof.
  intros HS. unfold adjust_code. apply adjust_cols_rect. unfold nrows.
  destruct (decide (n = 0%nat)) as [->|Hn].
  - destruct HS as [HS _]. destruct S; [|done]. by split.
  - rewrite (rect_ncols n w S) by (done || lia).
    replace (length S) with n by (symmetry; apply HS). apply rect_np_zeros.
Qed.

Lemma fitted_live st S G : fitted st S G → refs_live st.
Proof. intros (HS & HG & _). split; by eexists. Qed.

(** C1 (amended): for every fitted chain on which the control-variate pass
    and both evaluations succeed, [postprocess] returns [None] to the
    caller and prints one line holding the two scalar log-loss values, the
    first computed on the original sample and the second on the adjusted
    sample; the adjusted sample is an array of the same shape as the input
    sample. *)
Theorem postprocess_prints_both_losses log_loss st S G lo old new :
  fitted st S G →
  (postprocess_adjust st).2 = Ok lo →
  (logloss log_loss (sample (self st)) st).2 = Ok old →
  (logloss log_loss lo (postprocess_adjust st).1).2 = Ok new →
  (postprocess log_loss st).2 = Ok PyNone ∧
  stdout (postprocess log_loss st).1 = stdout st ++ [(old, new)] ∧
  ∃ out, heap (postprocess_adjust st).1 !! lo = Some out ∧
         rect (n_iters (self st)) (d (self st)) out.
Proof.
  intros Hfit. pose proof (fitted_live _ _ _ Hfit) as Hlive.
  destruct Hfit as (HS & HG & HSr & HGr).
  rewrite (postprocess_run log_loss st Hlive), (postprocess_adjust_run st Hlive).
  rewrite !logloss_run. cbn [fst snd with_heap self heap stdout].
  rewrite HS, HG. cbn [default from_option id]. unfold postprocess_code.
  pose proof (adjust_code_rect _ _ (n_iters (self st)) (d (self st)) S G HSr) as Hrect.
  destruct (adjust_code _ _ S G) as [out [[]| |]]; cbn [fst snd mbind outcome_bind obind];
    [|done..].
  intros [= <-] Hold. rewrite lookup_insert_eq. cbn [default from_option id].
  intros Hnew. rewrite Hold, Hnew. cbn [mbind outcome_bind obind printed].
  repeat split. by exists out.
Qed.

Lemma ex_fitted : fitted ex_state ex_S ex_G.
Proof.
  split; [reflexivity|]. split; [reflexivity|].
  split; (split; [reflexivity | repeat constructor]).
Defined.

Lemma postprocess_prints_both_losses_witness :
  (postprocess ex_log_loss ex_state).2 = Ok PyNone ∧
  ∃ old new, stdout (postprocess ex_log_loss ex_state).1 = [(old, new)].
Proof.
  destruct (postprocess_adjust ex_state).2 as [lo| |] eqn:Hlo.
  2,3: (exfalso; vm_compute in Hlo; discriminate Hlo).
  destruct (logloss ex_log_loss (sample (self ex_state)) ex_state).2 as [old| |] eqn:Hold.
  2,3: (exfalso; vm_compute in Hold; discriminate Hold).
  destruct (logloss ex_log_loss lo (postprocess_adjust ex_state).1).2 as [new| |] eqn:Hnew.
  2,3: (exfalso; vm_compute in Hlo; injection Hlo as <-; vm_compute in Hnew;
        discriminate Hnew).
  destruct (postprocess_prints_both_losses ex_log_loss ex_state ex_S ex_G lo old new
              ex_fitted Hlo Hold Hnew) as (Hret & Hout & _).
  split; [exact Hret|]. exists old, new. exact Hout.
Defined.

Lemma postprocess_returns_none_counterexample :
  (postprocess ex_log_loss ex_state).2 = Ok PyNone ∧
  ¬ ∃ l old new,
      (postprocess ex_log_loss ex_state).2 = Ok (PyTuple [PyArray l; PyFloat old; PyFloat new]).
Proof.
  assert (H : (postprocess ex_log_loss ex_state).2 = Ok PyNone) by (vm_compute; reflexivity).
  split; [exact H|]. intros (l & old & new & H'). rewrite H in H'. discriminate H'.
Qed.


Lemma fitted_contents st S G :
  fitted st S G →
  default [] (heap st !! sample (self st)) = S ∧
  default [] (heap st !! logpost_sample (self st)) = G.
Proof. intros (-> & -> & _). done. Qed.

Lemma entry_adjusted_spec V dim S G i j :
  (i < length S)%nat → (j < dim)%nat →
  entry (adjusted_spec V dim S G) i j =
  entry S i j + dot (coef_spec V dim S G j) (nth i G []).
Proof.
  intros Hi Hj. unfold entry at 1, adjusted_spec.
  rewrite (nth_map_lt _ _ _ 0%nat), seq_nth by (rewrite ?length_seq; lia).
  by rewrite nth_tab.
Qed.

(** X20: for every chain of [n_iters >= 2] draws on which the inversion of
    [var_grad] succeeds with [V]: [var_grad] is the unbiased covariance
    matrix of the gradient sample and [V] is its inverse; the pass returns
    a new array holding, for every draw [i] and dimension [j],
    [sample[i, j] + dot(a_j, gradient[i, :])], where
    [a_j = - V . cross_cov_j] and entry [k] of [cross_cov_j] is the unbiased
    covariance (divisor [n_iters - 1], means of the whole columns) of
    sample column [j] with gradient column [k]. *)
Theorem control_variate_adjustment st S G V :
  fitted st S G → (2 ≤ n_iters (self st))%nat →
  np_linalg_inv (np_cov G) = Ok V →
  np_cov G = Arr2 (var_grad_spec G) ∧
  is_inverse (var_grad_spec G) V ∧
  (∃ lo, (postprocess_adjust st).2 = Ok lo ∧
         heap (postprocess_adjust st).1 !! lo =
           Some (adjusted_spec V (d (self st)) S G)) ∧
  (∀ i j, (i < n_iters (self st))%nat → (j < d (self st))%nat →
     entry (adjusted_spec V (d (self st)) S G) i j =
     entry S i j + dot (vopp (mvmul V (cross_cov_spec (d (self st)) S G j))) (nth i G [])) ∧
  (∀ j k, (k < d (self st))%nat →
     nth k (cross_cov_spec (d (self st)) S G j) 0 = covariance (column j S) (column k G)).
Proof.
  intros Hfit Hn Hinv. pose proof (fitted_live _ _ _ Hfit) as Hlive.
  destruct (fitted_contents _ _ _ Hfit) as [HS HG].
  destruct Hfit as (_ & _ & HSr & HGr).
  destruct (inv_var_grad _ _ G V HGr Hn Hinv) as (Hcov & _ & HV).
  split; [done|]. split; [done|]. split; [|split].
  - exists (fresh (dom (heap st))).
    rewrite (postprocess_adjust_run st Hlive), HS, HG.
    rewrite (adjust_code_spec _ _ S G V) by done.
    cbn [fst snd mbind outcome_bind obind with_heap heap]. split; [done|].
    by rewrite lookup_insert_eq.
  - intros i j Hi Hj. apply entry_adjusted_spec; [|done]. destruct HSr; lia.
  - intros j k Hk. unfold cross_cov_spec. by rewrite nth_tab.
Qed.

Lemma control_variate_adjustment_witness :
  ∃ V lo, (postprocess_adjust ex_state).2 = Ok lo ∧
          heap (postprocess_adjust ex_state).1 !! lo = Some (adjusted_spec V 2 ex_S ex_G).
Proof.
  destruct (np_linalg_inv (np_cov ex_G)) as [V| |] eqn:HV.
  2,3: (exfalso; vm_compute in HV; discriminate HV).
  exists V.
  assert (Hn : (2 ≤ n_iters (self ex_state))%nat) by (cbn; lia).
  exact (proj1 (proj2 (proj2 (control_variate_adjustment ex_state ex_S ex_G V
                                ex_fitted Hn HV)))).
Defined.

Lemma is_inverse_scalar (v : Qc) : v ≠ 0 → is_inverse [[v]] [[/ v]].
Proof.
  intros Hv. unfold is_inverse, mmul, ncols, column, dot, identity, vsum.
  cbn [hd length map seq zip_with foldr nth]. rewrite decide_True by done.
  split; do 2 f_equal; by field.
Qed.

Lemma ex_scalar_fitted :
  fitted ex_state_scalar [[q 1 1]; [q 3 1]; [q 2 1]] [[q 1 1]; [q 0 1]; [q (-1) 1]].
Proof.
  split; [reflexivity|]. split; [reflexivity|].
  split; (split; [reflexivity | repeat constructor]).
Defined.

(** C2 (where the code departs from it): on a one-dimensional chain of at
    least two draws whose gradient has a non-zero sample variance [v],
    [var_grad] is the 1 x 1 matrix [[v]], which has the inverse [[1 / v]],
    so that the coefficient [a_0 = - cross_cov_0 / v] of the claim
    exists.  The program does not compute it: [np.cov] returns the 0-d
    array [v] for a single variable, [np.linalg.inv] rejects a 0-d array,
    and the pass ends with [LinAlgError] without an adjusted sample. *)
Theorem control_variate_one_dimension_fails st S G :
  fitted st S G → (2 ≤ n_iters (self st))%nat → d (self st) = 1%nat →
  covariance (column 0 G) (column 0 G) ≠ 0 →
  var_grad_spec G = [[covariance (column 0 G) (column 0 G)]] ∧
  is_inverse (var_grad_spec G) [[/ covariance (column 0 G) (column 0 G)]] ∧
  np_cov G = Arr0 (covariance (column 0 G) (column 0 G)) ∧
  np_linalg_inv (np_cov G) = Raise LinAlgError ∧
  (postprocess_adjust st).2 = Raise LinAlgError.
Proof.
  intros Hfit Hn Hd Hv. pose proof (fitted_live _ _ _ Hfit) as Hlive.
  destruct (fitted_contents _ _ _ Hfit) as [HS HG].
  destruct Hfit as (_ & _ & HSr & HGr).
  assert (HM : var_grad_spec G = [[covariance (column 0 G) (column 0 G)]]).
  { unfold var_grad_spec. rewrite (rect_ncols _ _ G HGr) by lia. by rewrite Hd. }
  assert (Hcov : np_cov G = Arr0 (covariance (column 0 G) (column 0 G))).
  { apply (np_cov_single (n_iters (self st))); [by rewrite <- Hd | done]. }
  split; [done|]. split; [rewrite HM; by apply is_inverse_scalar|].
  split; [done|]. split; [by rewrite Hcov|].
  destruct (adjust_code_inv_fails _ _ S G HSr HGr Hn) as [_ H];
    [lia | by rewrite Hcov |].
  rewrite (postprocess_adjust_run st Hlive), HS, HG. cbn [snd].
  by rewrite H, Hcov.
Qed.

Lemma control_variate_one_dimension_fails_witness :
  is_inverse (var_grad_spec [[q 1 1]; [q 0 1]; [q (-1) 1]])
             [[/ covariance (column 0 [[q 1 1]; [q 0 1]; [q (-1) 1]])
                            (column 0 [[q 1 1]; [q 0 1]; [q (-1) 1]])]] ∧
  (postprocess_adjust ex_state_scalar).2 = Raise LinAlgError.
Proof.
  assert (Hn : (2 ≤ n_iters (self ex_state_scalar))%nat) by (cbn; lia).
  assert (Hv : covariance (column 0 [[q 1 1]; [q 0 1]; [q (-1) 1]])
                          (column 0 [[q 1 1]; [q 0 1]; [q (-1) 1]]) ≠ 0).
  { intros H. apply (f_equal this) in H. vm_compute in H. discriminate H. }
  destruct (control_variate_one_dimension_fails ex_state_scalar _ _
              ex_scalar_fitted Hn eq_refl Hv) as (_ & Hinv & _ & _ & Hraise).
  split; [exact Hinv | exact Hraise].
Defined.

Lemma ex_fitted_with G : rect 3 2 G → fitted (ex_state_with G) ex_S G.
Proof.
  intros HG. split; [reflexivity|]. split; [reflexivity|].
  split; [split; [reflexivity | repeat constructor] | exact HG].
Defined.

Lemma zero_gradient_singular n w :
  (2 ≤ n)%nat → (1 ≤ w)%nat → singular (np_cov (np_zeros n w)).
Proof.
  intros Hn Hw. apply (constant_column_singular n w (np_zeros n w) 0%nat 0); try done.
  - apply rect_np_zeros.
  - intros i Hi. rewrite np_zeros_tab. unfold entry.
    rewrite (nth_map_lt _ _ _ 0%nat) by (by rewrite length_seq). by rewrite nth_tab.
Qed.

(** C3 (amended): for every chain of at least two draws and one dimension
    whose gradient sample is all zero, [var_grad] is singular and the
    control-variate pass, and with it [postprocess], fails with
    [LinAlgError]; no adjusted sample is produced and nothing is
    printed. *)
Theorem zero_gradient_raises log_loss st S G :
  fitted st S G → (2 ≤ n_iters (self st))%nat → (1 ≤ d (self st))%nat →
  G = np_zeros (n_iters (self st)) (d (self st)) →
  (postprocess_adjust st).2 = Raise LinAlgError ∧
  (postprocess log_loss st).2 = Raise LinAlgError ∧
  stdout (postprocess log_loss st).1 = stdout st.
Proof.
  intros Hfit Hn Hd ->. pose proof (fitted_live _ _ _ Hfit) as Hlive.
  destruct (fitted_contents _ _ _ Hfit) as [HS HG].
  destruct Hfit as (_ & _ & HSr & HGr).
  rewrite (postprocess_run log_loss st Hlive), (postprocess_adjust_run st Hlive).
  unfold postprocess_code. rewrite HS, HG.
  rewrite (adjust_code_singular _ _ S (np_zeros _ _))
    by (done || lia || by apply zero_gradient_singular).
  cbn [fst snd mbind outcome_bind obind printed stdout]. by rewrite app_nil_r.
Qed.

Lemma zero_gradient_raises_witness :
  (postprocess_adjust (ex_state_with (np_zeros 3 2))).2 = Raise LinAlgError ∧
  (postprocess ex_log_loss (ex_state_with (np_zeros 3 2))).2 = Raise LinAlgError ∧
  stdout (postprocess ex_log_loss (ex_state_with (np_zeros 3 2))).1 = [].
Proof.
  apply (zero_gradient_raises ex_log_loss (ex_state_with (np_zeros 3 2)) ex_S (np_zeros 3 2)).
  - apply ex_fitted_with. split; [reflexivity | repeat constructor].
  - cbn. lia.
  - cbn. lia.
  - reflexivity.
Defined.

Lemma zero_gradient_counterexample :
  ¬ ∃ lo, (postprocess_adjust (ex_state_with (np_zeros 3 2))).2 = Ok lo ∧
          heap (postprocess_adjust (ex_state_with (np_zeros 3 2))).1 !! lo = Some ex_S.
Proof.
  assert (H : (postprocess_adjust (ex_state_with (np_zeros 3 2))).2 = Raise LinAlgError)
    by (vm_compute; reflexivity).
  intros (lo & H' & _). rewrite H in H'. discriminate H'.
Qed.

Lemma ex_G_constant_rect : rect 3 2 ex_G_constant.
Proof. split; [reflexivity | repeat constructor]. Qed.

(** C4 (where the code departs from it): a gradient sample of three draws
    whose second dimension is constant, each entry the double nearest to
    0.1.  As rational numbers these gradients have a singular covariance
    matrix.  In double precision the mean of the constant column is
    rounded to the next double, [np.cov] returns a matrix with the two
    non-zero pivots 1 and 3 * 2^-113, [np.linalg.inv] returns a matrix
    with the entry 2^113 / 3 and raises nothing, the control-variate pass
    fills [out_sample] and [postprocess] goes on to print the two losses.
    A second dimension of zeros, which is centred without rounding, does
    raise [LinAlgError]. *)
Theorem constant_gradient_column_not_detected :
  map (map Double.rational) Double.ex_G = ex_G_constant ∧
  singular (np_cov ex_G_constant) ∧
  Double.np_mean0 Double.ex_G = Some [Double.of_nat 2; PrimFloat.next_up Double.ex_tenth] ∧
  Double.np_cov Double.ex_G = Double.Arr2 Double.ex_var_grad ∧
  Double.np_linalg_inv (Double.np_cov Double.ex_G) = Ok Double.ex_inverse ∧
  Double.adjust_code 3 2 Double.ex_S Double.ex_G = (Double.ex_adjusted, Ok tt) ∧
  (∃ old new,
     Double.postprocess_code Double.ex_log_loss Double.ex_X_test [1%Z; 0%Z] 2 3 2
       Double.ex_S Double.ex_G = (Double.ex_adjusted, Ok (old, new))) ∧
  Double.adjust_code 3 2 Double.ex_S Double.ex_G_zero
  = (Double.np_zeros 3 2, Raise LinAlgError).
Proof.
  repeat apply conj.
  - unfold Double.ex_G, ex_G_constant. cbn [map].
    repeat (f_equal; try (apply Qc_is_canon; vm_compute; reflexivity)).
  - apply (constant_column_singular 3 2 ex_G_constant 1
             (q 3602879701896397 36028797018963968)).
    + exact ex_G_constant_rect.
    + lia.
    + lia.
    + intros [|[|[|i]]] Hi; try reflexivity. lia.
  - vm_compute. reflexivity.
  - vm_compute. reflexivity.
  - vm_compute. reflexivity.
  - vm_compute. reflexivity.
  - eexists _, _. vm_compute. reflexivity.
  - vm_compute. reflexivity.
Qed.

(** C10: for a chain with [n_iters = 1] and at least one dimension, the
    divisor [n_iters - 1] is zero and the control-variate pass, and with it
    [postprocess], fails with [ZeroDivisionError] at the first term of the
    cross-covariance: nothing is printed and [out_sample] still holds
    zeros only. *)
Theorem one_draw_division_by_zero log_loss st :
  refs_live st → n_iters (self st) = 1%nat → (1 ≤ d (self st))%nat →
  (postprocess_adjust st).2 = Raise ZeroDivisionError ∧
  (postprocess log_loss st).2 = Raise ZeroDivisionError ∧
  stdout (postprocess log_loss st).1 = stdout st ∧
  heap (postprocess_adjust st).1 !! fresh (dom (heap st)) =
    Some (np_zeros (nrows (default [] (heap st !! sample (self st))))
                   (ncols (default [] (heap st !! sample (self st))))).
Proof.
  intros Hlive Hn Hd.
  rewrite (postprocess_run log_loss st Hlive), (postprocess_adjust_run st Hlive).
  unfold postprocess_code. rewrite Hn, adjust_code_one_draw by lia.
  cbn [fst snd mbind outcome_bind obind printed stdout with_heap heap].
  rewrite app_nil_r, lookup_insert_eq. done.
Qed.

Lemma one_draw_division_by_zero_witness :
  (postprocess_adjust ex_state_one).2 = Raise ZeroDivisionError ∧
  (postprocess ex_log_loss ex_state_one).2 = Raise ZeroDivisionError.
Proof.
  assert (Hlive : refs_live ex_state_one) by (split; eexists; reflexivity).
  assert (Hd : (1 ≤ d (self ex_state_one))%nat) by (cbn; lia).
  destruct (one_draw_division_by_zero ex_log_loss ex_state_one Hlive eq_refl Hd)
    as (H1 & H2 & _).
  exact (conj H1 H2).
Defined.


(** C6: running [postprocess] on a chain whose references are live leaves
    [self] and every array of the store as they were, in particular the
    arrays behind [self.sample] and [self.logpost_sample]; the adjusted
    sample is an array that did not exist before the call and is neither
    of the two. *)
Theorem postprocess_preserves_chain log_loss st :
  refs_live st →
  self (postprocess log_loss st).1 = self st ∧
  (∀ l, is_Some (heap st !! l) →
     heap (postprocess log_loss st).1 !! l = heap st !! l) ∧
  heap (postprocess log_loss st).1 !! sample (self (postprocess log_loss st).1)
    = heap st !! sample (self st) ∧
  heap (postprocess log_loss st).1 !! logpost_sample (self (postprocess log_loss st).1)
    = heap st !! logpost_sample (self st) ∧
  (∀ lo, (postprocess_adjust st).2 = Ok lo →
     heap st !! lo = None ∧ lo ≠ sample (self st) ∧ lo ≠ logpost_sample (self st)).
Proof.
  intros Hlive.
  rewrite (postprocess_run log_loss st Hlive), (postprocess_adjust_run st Hlive).
  cbn [fst snd self heap].
  assert (Hkeep : ∀ l, is_Some (heap st !! l) →
            <[fresh (dom (heap st)) := (postprocess_code log_loss (self st)
                (default [] (heap st !! sample (self st)))
                (default [] (heap st !! logpost_sample (self st)))).1]> (heap st) !! l
            = heap st !! l).
  { intros l Hl. apply lookup_insert_ne. by apply fresh_live. }
  destruct Hlive as [Hs Hg].
  split; [done|]. split; [done|]. split; [by apply Hkeep|]. split; [by apply Hkeep|].
  intros lo Hlo.
  destruct (adjust_code _ _ _ _).2; cbn [mbind outcome_bind obind] in Hlo; [|done..].
  injection Hlo as <-. split; [|split].
  - apply not_elem_of_dom, is_fresh.
  - by apply fresh_live.
  - by apply fresh_live.
Qed.

Lemma ex_live : refs_live ex_state.
Proof. split; eexists; reflexivity. Defined.

Lemma postprocess_preserves_chain_witness :
  self (postprocess ex_log_loss ex_state).1 = ex_self ∧
  heap (postprocess ex_log_loss ex_state).1 !! 1%positive = Some ex_S ∧
  heap (postprocess ex_log_loss ex_state).1 !! 2%positive = Some ex_G.
Proof.
  destruct (postprocess_preserves_chain ex_log_loss ex_state ex_live)
    as (Hself & _ & HS & HG & _).
  rewrite Hself in HS, HG. exact (conj Hself (conj HS HG)).
Defined.

Lemma logloss_code_fields log_loss o o' S :
  n_iters o = n_iters o' → test_size o = test_size o' →
  X_test o = X_test o' → y_test o = y_test o' →
  logloss_code log_loss o S = logloss_code log_loss o' S.
Proof.
  intros H1 H2 H3 H4. unfold logloss_code, draw_loss. by rewrite H1, H2, H3, H4.
Qed.

(** C9: the control-variate pass yields the same adjusted sample (or the
    same failure) on any two objects that hold the same sample, gradient
    sample, [n_iters] and [d], whatever their references and the rest of
    the store; [logloss] yields the same result on the same sample and
    held-out set; and calling either of them a second time on the same
    object repeats the result of the first call. *)
Theorem adjustment_and_evaluation_deterministic log_loss :
  (∀ st1 st2,
     refs_live st1 → refs_live st2 →
     n_iters (self st1) = n_iters (self st2) → d (self st1) = d (self st2) →
     heap st1 !! sample (self st1) = heap st2 !! sample (self st2) →
     heap st1 !! logpost_sample (self st1) = heap st2 !! logpost_sample (self st2) →
     result_array (postprocess_adjust st1) = result_array (postprocess_adjust st2)) ∧
  (∀ st1 st2 l1 l2,
     n_iters (self st1) = n_iters (self st2) →
     test_size (self st1) = test_size (self st2) →
     X_test (self st1) = X_test (self st2) → y_test (self st1) = y_test (self st2) →
     heap st1 !! l1 = heap st2 !! l2 →
     (logloss log_loss l1 st1).2 = (logloss log_loss l2 st2).2) ∧
  (∀ st, refs_live st →
     result_array (postprocess_adjust (postprocess_adjust st).1)
     = result_array (postprocess_adjust st)) ∧
  (∀ st l, (logloss log_loss l (logloss log_loss l st).1).2 = (logloss log_loss l st).2).
Proof.
  assert (Hadj : ∀ st1 st2,
     refs_live st1 → refs_live st2 →
     n_iters (self st1) = n_iters (self st2) → d (self st1) = d (self st2) →
     heap st1 !! sample (self st1) = heap st2 !! sample (self st2) →
     heap st1 !! logpost_sample (self st1) = heap st2 !! logpost_sample (self st2) →
     result_array (postprocess_adjust st1) = result_array (postprocess_adjust st2)).
  { intros st1 st2 H1 H2 Hn Hd HS HG.
    rewrite (postprocess_adjust_run st1 H1), (postprocess_adjust_run st2 H2).
    rewrite Hn, Hd, HS, HG. unfold result_array. cbn [fst snd with_heap heap].
    destruct (adjust_code _ _ _ _) as [out [[]| |]]; cbn [fst snd mbind outcome_bind obind];
      [|done..].
    by rewrite !lookup_insert_eq. }
  split; [exact Hadj|]. split; [|split].
  - intros st1 st2 l1 l2 Hn Hts HX Hy Hl. rewrite !logloss_run. cbn [snd].
    rewrite Hl. by apply logloss_code_fields.
  - intros st Hlive.
    assert (Hfr : ∀ l, is_Some (heap st !! l) →
              heap (postprocess_adjust st).1 !! l = heap st !! l).
    { intros l Hl. rewrite (postprocess_adjust_run st Hlive). cbn [fst with_heap heap].
      apply lookup_insert_ne. by apply fresh_live. }
    assert (Hself : self (postprocess_adjust st).1 = self st)
      by by rewrite (postprocess_adjust_run st Hlive).
    destruct Hlive as [Hs Hg]. apply Hadj.
    + split; rewrite Hself, Hfr; done.
    + by split.
    + by rewrite Hself.
    + by rewrite Hself.
    + rewrite Hself. by apply Hfr.
    + rewrite Hself. by apply Hfr.
  - intros st l. by rewrite !logloss_run.
Qed.

(** C7: for every sample of at least [n_iters] draws of width [d] and every
    held-out set of the same width, [logloss] returns the total obtained
    from 0 by adding [logloss_m / n_iters] for [m = 0 .. n_iters - 1],
    where [logloss_m] is what [log_loss] gives on the true labels and the
    predictions that are 1 on a held-out row exactly when the dot product
    of its covariates with draw [m] is [>= 0.0], and 0 otherwise. *)
Theorem logloss_is_sum_of_hard_losses log_loss st l S (loss : nat → Qc) :
  heap st !! l = Some S →
  (n_iters (self st) ≤ length S)%nat →
  Forall (λ r, length r = d (self st)) S →
  held_out_ok (self st) →
  (∀ m, (m < n_iters (self st))%nat →
     log_loss (y_test (self st)) (predictions_spec (X_test (self st)) (nth m S []))
     = Ok (loss m)) →
  logloss log_loss l st = (st, Ok (logloss_spec (n_iters (self st)) loss)).
Proof.
  intros Hl Hn HS Hho Hloss. rewrite logloss_run, Hl. cbn [default from_option id].
  by rewrite (logloss_code_spec log_loss (self st) S loss).
Qed.

Lemma ex_loss_ok m :
  (m < 3)%nat →
  ex_log_loss (y_test ex_self) (predictions_spec (X_test ex_self) (nth m ex_S []))
  = Ok (ex_loss m).
Proof.
  intros Hm. unfold ex_loss.
  destruct m as [|[|[|m]]]; [| | |lia];
    (destruct (ex_log_loss _ _) as [v| |] eqn:E;
      [reflexivity | exfalso; vm_compute in E; discriminate E..]).
Defined.

Lemma ex_held_out_ok : held_out_ok ex_self.
Proof. split; [reflexivity | repeat constructor]. Defined.

Lemma ex_S_width : Forall (λ r : list Qc, length r = 2%nat) ex_S.
Proof. repeat constructor. Defined.

Lemma logloss_is_sum_of_hard_losses_witness :
  logloss ex_log_loss 1%positive ex_state = (ex_state, Ok (logloss_spec 3 ex_loss)).
Proof.
  apply (logloss_is_sum_of_hard_losses ex_log_loss ex_state 1%positive ex_S ex_loss).
  - reflexivity.
  - cbn. lia.
  - exact ex_S_width.
  - exact ex_held_out_ok.
  - exact ex_loss_ok.
Defined.


(** C5: on arrays of matching widths, [logloss] with [n_iters] equal to
    the number of draws of its argument returns a value, and with [n_iters]
    larger it fails with numpy's [IndexError] (the specification's
    ShapeMismatch) at the first draw that is missing; likewise the
    gradient loop of [fit] succeeds when the sampler returns [n_iters]
    draws and fails with [IndexError] when it returns fewer.  Nothing is
    clipped. *)
Theorem n_iters_beyond_draws_raises log_loss stan_draws grad_log_prob :
  (∀ st l S (loss : nat → Qc),
     heap st !! l = Some S →
     Forall (λ r, length r = d (self st)) S →
     held_out_ok (self st) →
     (∀ m, (m < length S)%nat →
        log_loss (y_test (self st)) (predictions_spec (X_test (self st)) (nth m S []))
        = Ok (loss m)) →
     (n_iters (self st) = length S →
        logloss log_loss l st = (st, Ok (logloss_spec (length S) loss))) ∧
     ((length S < n_iters (self st))%nat →
        logloss log_loss l st = (st, Raise IndexError))) ∧
  (∀ st n w,
     Forall (λ r, length r = w) (stan_draws (2 * n)%nat) →
     (∀ r, r ∈ stan_draws (2 * n)%nat → length (grad_log_prob r) = w) →
     (length (stan_draws (2 * n)%nat) = n →
        (fit stan_draws grad_log_prob n st).2 = Ok PyNone) ∧
     ((length (stan_draws (2 * n)%nat) < n)%nat →
        (fit stan_draws grad_log_prob n st).2 = Raise IndexError)).
Proof.
  split.
  - intros st l S loss Hl HS Hho Hloss. split.
    + intros Hn. rewrite logloss_run, Hl. cbn [default from_option id].
      rewrite (logloss_code_spec log_loss (self st) S loss); try done.
      * by rewrite Hn.
      * lia.
      * intros m Hm. apply Hloss. lia.
    + intros Hn. rewrite logloss_run, Hl. cbn [default from_option id].
      by rewrite (logloss_code_short log_loss (self st) S loss).
  - intros st n w HD Hg.
    set (D := stan_draws (2 * n)%nat) in *.
    assert (Hz : rect (length D) w (np_zeros (nrows D) (ncols D))).
    { unfold nrows. destruct (decide (length D = 0%nat)) as [Hl|Hl].
      - rewrite Hl. by split.
      - rewrite (rect_ncols (length D) w D) by (done || lia). apply rect_np_zeros. }
    split; intros Hn; rewrite fit_run; cbn [snd]; fold D.
    + destruct (grad_rows_ok grad_log_prob D w n (np_zeros (nrows D) (ncols D)))
        as (cur & -> & _); (done || lia).
    + by rewrite (grad_rows_short grad_log_prob D w n).
Qed.

Lemma ofold_ext {A B} (l : list A) (body body' : A → B → outcome B) :
  (∀ x acc, x ∈ l → body x acc = body' x acc) →
  ∀ acc, ofold l acc body = ofold l acc body'.
Proof.
  induction l as [|x l IH]; intros H acc; [reflexivity|].
  cbn [ofold]. rewrite H by apply list_elem_of_here.
  destruct (body' x acc); cbn [obind]; [|reflexivity..].
  apply IH. intros y acc' Hy. apply H. by apply list_elem_of_further.
Qed.

(** The total over the draws, for scikit-learn's loss: a sum when the
    labels are accepted, [ValueError] at the first draw otherwise. *)
Lemma logloss_code_sk pen_hit pen_miss o S :
  length S = n_iters o → Forall (λ r, length r = d o) S → held_out_ok o →
  logloss_code (sk_log_loss pen_hit pen_miss) o S =
  if bool_decide (length (y_test o) = length (X_test o)) && two_classes (y_test o)
  then Ok (0 + vsum (map (λ beta,
             vsum (zip_with (penalty pen_hit pen_miss (label_max (y_test o)))
                            (y_test o) (predictions_spec (X_test o) beta))
             / of_nat (length (y_test o)) / of_nat (n_iters o)) S))
  else match S with [] => Ok 0 | _ => Raise ValueError end.
Proof.
  intros Hn HS Hho. unfold logloss_code. rewrite <- Hn.
  pose proof (ofold_rows (λ beta acc, q ← draw_loss (sk_log_loss pen_hit pen_miss) o beta;
                                      Ok (acc + q)) S [] 0) as Hrows.
  cbn [length app] in Hrows. rewrite Hrows. clear Hrows.
  set (c := bool_decide (length (y_test o) = length (X_test o)) && two_classes (y_test o)).
  assert (Hdraw : ∀ beta, beta ∈ S →
    draw_loss (sk_log_loss pen_hit pen_miss) o beta =
    if c
    then Ok (vsum (zip_with (penalty pen_hit pen_miss (label_max (y_test o)))
                            (y_test o) (predictions_spec (X_test o) beta))
             / of_nat (length (y_test o)) / of_nat (n_iters o))
    else Raise ValueError).
  { intros beta Hin. rewrite draw_loss_sk; try done.
    - rewrite sk_log_loss_cases, length_predictions_spec. fold c.
      by destruct c.
    - rewrite Forall_forall in HS. by apply HS.
    - rewrite <- Hn. destruct S; [by apply elem_of_nil in Hin | cbn; lia]. }
  destruct c.
  - apply ofold_sum. rewrite Hn. by apply Forall_forall.
  - destruct S as [|beta S]; [reflexivity|].
    apply ofold_raise; [done|]. by apply Forall_forall.
Qed.

Lemma logloss_code_take log_loss o S :
  logloss_code log_loss o S = logloss_code log_loss o (take (n_iters o) S).
Proof.
  unfold logloss_code. apply ofold_ext. intros m acc Hm.
  apply elem_of_seq in Hm. unfold row_at. by rewrite lookup_take_lt by lia.
Qed.

(** C8 (amended): with scikit-learn's loss, the result of [logloss] on a
    sample of at least [n_iters] draws of width [d] and a held-out set of
    the same width is the same for every order of the first [n_iters]
    draws, the rows that the loop reads, and the same for every order of
    the held-out rows when each row moves together with its label. *)
Theorem logloss_permutation_invariant pen_hit pen_miss :
  (∀ st st' l l' S S',
     self st' = self st →
     heap st !! l = Some S → heap st' !! l' = Some S' →
     (n_iters (self st) ≤ length S)%nat →
     take (n_iters (self st)) S ≡ₚ take (n_iters (self st)) S' →
     Forall (λ r, length r = d (self st)) S → held_out_ok (self st) →
     (logloss (sk_log_loss pen_hit pen_miss) l' st').2 =
     (logloss (sk_log_loss pen_hit pen_miss) l st).2) ∧
  (∀ st st' l l' S (pairs pairs' : list (list Qc * Z)),
     heap st !! l = Some S → heap st' !! l' = Some S →
     Forall (λ r, length r = d (self st)) S →
     pairs ≡ₚ pairs' →
     X_test (self st) = map fst pairs → y_test (self st) = map snd pairs →
     X_test (self st') = map fst pairs' → y_test (self st') = map snd pairs' →
     n_iters (self st') = n_iters (self st) → d (self st') = d (self st) →
     test_size (self st') = test_size (self st) →
     held_out_ok (self st) →
     (logloss (sk_log_loss pen_hit pen_miss) l' st').2 =
     (logloss (sk_log_loss pen_hit pen_miss) l st).2).
Proof.
  split.
  - intros st st' l l' S S' Hself Hl Hl' Hn Hp HS Hho.
    rewrite !logloss_run, Hself, Hl, Hl'. cbn [snd default from_option id].
    rewrite (logloss_code_take _ _ S), (logloss_code_take _ _ S').
    set (T := take (n_iters (self st)) S) in *.
    set (T' := take (n_iters (self st)) S') in *.
    assert (HT : length T = n_iters (self st)) by (unfold T; rewrite length_take; lia).
    assert (HTw : Forall (λ r, length r = d (self st)) T) by by apply Forall_take.
    rewrite !logloss_code_sk; try done.
    + destruct (_ && _).
      * do 2 f_equal. apply vsum_perm. apply Permutation_map. by symmetry.
      * destruct T as [|x T0].
        -- by apply Permutation_nil in Hp as ->.
        -- destruct T'; [by apply Permutation_nil_r in Hp | done].
    + by rewrite <- (Permutation_length Hp).
    + by rewrite <- Hp.
  - intros st st' l l' S pairs pairs' Hl Hl' HS Hp HX Hy HX' Hy' Hn Hd Hts [Hsz HXw].
    rewrite !logloss_run, Hl, Hl'. cbn [snd default from_option id].
    assert (Hho' : held_out_ok (self st')).
    { split.
      - rewrite Hts, Hsz, HX, HX', !length_map. by apply Permutation_length.
      - rewrite Hd, HX'. rewrite HX in HXw. by rewrite <- Hp. }
    unfold logloss_code. rewrite Hn. apply ofold_ext.
    intros m acc Hm. apply elem_of_seq in Hm.
    unfold row_at. destruct (S !! m) as [beta|] eqn:Hb; [|reflexivity].
    cbn [mbind outcome_bind obind].
    assert (Hbeta : length beta = d (self st)).
    { rewrite Forall_lookup in HS. by apply (HS m). }
    rewrite !draw_loss_sk by (done || lia || (by rewrite Hd) || (rewrite Hn; lia)).
    rewrite Hn, HX, Hy, HX', Hy'. unfold predictions_spec. rewrite !map_map.
    assert (Heq : ∀ (qs : list (list Qc * Z)),
      sk_log_loss pen_hit pen_miss (map snd qs) (map (λ x, hard_prediction beta x.1) qs) =
      sk_log_loss pen_hit pen_miss
        (map fst (map (λ p : list Qc * Z, (p.2, hard_prediction beta p.1)) qs))
        (map snd (map (λ p : list Qc * Z, (p.2, hard_prediction beta p.1)) qs))).
    { intros qs. by rewrite !map_map. }
    rewrite !Heq.
    rewrite (sk_log_loss_perm pen_hit pen_miss
               (map (λ p : list Qc * Z, (p.2, hard_prediction beta p.1)) pairs')
               (map (λ p : list Qc * Z, (p.2, hard_prediction beta p.1)) pairs)); [done|].
    apply Permutation_map. by symmetry.
Qed.

Lemma ex_loss_ok_over m :
  (m < length ex_S)%nat →
  ex_log_loss (y_test (self ex_state_over))
              (predictions_spec (X_test (self ex_state_over)) (nth m ex_S []))
  = Ok (ex_loss m).
Proof. exact (ex_loss_ok m). Defined.

Lemma ex_grad_width r : r ∈ ex_stan_draws 6 → length (ex_grad_log_prob r) = 2%nat.
Proof.
  intros Hr. unfold ex_grad_log_prob, vopp. rewrite length_map.
  revert r Hr. apply Forall_forall. exact ex_S_width.
Defined.

Lemma ex_grad_width_8 r : r ∈ ex_stan_draws 8 → length (ex_grad_log_prob r) = 2%nat.
Proof. exact (ex_grad_width r). Defined.

Lemma n_iters_beyond_draws_raises_witness :
  logloss ex_log_loss 1%positive ex_state = (ex_state, Ok (logloss_spec 3 ex_loss)) ∧
  logloss ex_log_loss 1%positive ex_state_over = (ex_state_over, Raise IndexError) ∧
  (fit ex_stan_draws ex_grad_log_prob 3 ex_state_new).2 = Ok PyNone ∧
  (fit ex_stan_draws ex_grad_log_prob 4 ex_state_new).2 = Raise IndexError.
Proof.
  destruct (n_iters_beyond_draws_raises ex_log_loss ex_stan_draws ex_grad_log_prob)
    as [Hll Hfit].
  split; [|split; [|split]].
  - apply (proj1 (Hll ex_state 1%positive ex_S ex_loss eq_refl ex_S_width
                      ex_held_out_ok ex_loss_ok)). reflexivity.
  - apply (proj2 (Hll ex_state_over 1%positive ex_S ex_loss eq_refl ex_S_width
                      ex_held_out_ok ex_loss_ok_over)). cbn. lia.
  - apply (proj1 (Hfit ex_state_new 3%nat 2%nat ex_S_width ex_grad_width)). reflexivity.
  - apply (proj2 (Hfit ex_state_new 4%nat 2%nat ex_S_width ex_grad_width_8)). cbn. lia.
Defined.

Lemma logloss_permutation_invariant_witness :
  (logloss ex_log_loss 1%positive ex_state_draws_swapped).2 =
  (logloss ex_log_loss 1%positive ex_state).2 ∧
  (logloss ex_log_loss 1%positive ex_state_rows_swapped).2 =
  (logloss ex_log_loss 1%positive ex_state).2.
Proof.
  destruct (logloss_permutation_invariant (q 1 1000) (q 35 1)) as [Hdraws Hrows].
  split.
  - apply (Hdraws ex_state ex_state_draws_swapped 1%positive 1%positive ex_S ex_S_swapped).
    + reflexivity.
    + reflexivity.
    + reflexivity.
    + cbn. lia.
    + apply perm_swap.
    + exact ex_S_width.
    + exact ex_held_out_ok.
  - apply (Hrows ex_state ex_state_rows_swapped 1%positive 1%positive ex_S
                 ex_pairs ex_pairs_swapped); try reflexivity.
    + exact ex_S_width.
    + apply perm_swap.
    + exact ex_held_out_ok.
Defined.

Lemma logloss_draw_permutation_counterexample :
  ex_S ≡ₚ ex_S_rotated ∧
  held_out_ok (self ex_state_two) ∧
  (logloss ex_log_loss 1%positive ex_state_two).2 = Ok (q 35003 4000) ∧
  (logloss ex_log_loss 2%positive ex_state_two).2 = Ok (q 35001 2000) ∧
  (logloss ex_log_loss 2%positive ex_state_two).2 ≠
  (logloss ex_log_loss 1%positive ex_state_two).2.
Proof.
  assert (H1 : (logloss ex_log_loss 1%positive ex_state_two).2 = Ok (q 35003 4000)).
  { rewrite logloss_run. cbn [snd].
    destruct (logloss_code _ _ _) as [v| |] eqn:E;
      [|exfalso; vm_compute in E; discriminate E..].
    f_equal. apply Qc_is_canon. vm_compute in E. injection E as <-. reflexivity. }
  assert (H2 : (logloss ex_log_loss 2%positive ex_state_two).2 = Ok (q 35001 2000)).
  { rewrite logloss_run. cbn [snd].
    destruct (logloss_code _ _ _) as [v| |] eqn:E;
      [|exfalso; vm_compute in E; discriminate E..].
    f_equal. apply Qc_is_canon. vm_compute in E. injection E as <-. reflexivity. }
  split; [apply perm_skip, perm_swap|].
  split; [split; [reflexivity | repeat constructor]|].
  split; [exact H1|]. split; [exact H2|].
  rewrite H1, H2. intros H.
  apply (f_equal (λ o, match o with Ok v => this v | _ => 0%Q end)) in H.
  vm_compute in H. discriminate H.
Qed.

Lemma adjustment_and_evaluation_deterministic_witness :
  result_array (postprocess_adjust ex_state) = result_array (postprocess_adjust ex_state_moved) ∧
  result_array (postprocess_adjust (postprocess_adjust ex_state).1)
  = result_array (postprocess_adjust ex_state).
Proof.
  destruct (adjustment_and_evaluation_deterministic ex_log_loss) as (Hadj & _ & Hrep & _).
  split.
  - apply (Hadj ex_state ex_state_moved); try reflexivity.
    + exact ex_live.
    + split; eexists; reflexivity.
  - exact (Hrep ex_state ex_live).
Defined.

(** * Further properties of the methods

    ** [fit] *)

Lemma set_row_same_width (cur : list (list Qc)) i v w :
  (i < length cur)%nat → Forall (λ r, length r = w) cur → length v = w →
  set_row cur i v = Ok (<[i := v]> cur).
Proof.
  intros Hi Hcur Hv. unfold set_row.
  rewrite (lookup_nth cur i []) by done.
  rewrite Forall_lookup in Hcur.
  rewrite decide_True; [done|].
  rewrite Hv. symmetry. apply (Hcur i). by apply lookup_nth.
Qed.

(** The gradient loop of [fit] on draws of width [w]: after [m] rounds the
    first [m] rows hold the gradients and the others are as before. *)
Lemma grad_rows_fill grad D w m : ∀ cur,
  (m ≤ length D)%nat → rect (length D) w cur →
  (∀ r, r ∈ D → length (grad r) = w) →
  grad_rows (seq 0 m) grad D cur = (map grad (take m D) ++ drop m cur, Ok tt).
Proof.
  induction m as [|m IH]; intros cur Hm Hcur Hg.
  - by rewrite take_0, drop_0.
  - rewrite seq_S, grad_rows_app, IH by (done || lia). cbn [Nat.add grad_rows].
    unfold row_at. rewrite (lookup_nth D m []) by lia.
    cbn [mbind outcome_bind obind].
    destruct Hcur as [Hl Hw].
    assert (Hin : nth m D [] ∈ D) by (apply list_elem_of_In, nth_In; lia).
    rewrite (set_row_same_width _ m _ w).
    + f_equal.
      rewrite insert_app_r_alt by (rewrite length_map, length_take; lia).
      rewrite length_map, length_take, Nat.min_l, Nat.sub_diag by lia.
      rewrite (take_S_r D m (nth m D [])) by (apply lookup_nth; lia).
      rewrite map_app, <- app_assoc. f_equal.
      rewrite (drop_S cur (nth m cur []) m) by (apply lookup_nth; lia).
      reflexivity.
    + rewrite length_app, length_map, length_take, length_drop. lia.
    + apply Forall_app. split.
      * apply Forall_forall. intros r Hr. apply list_elem_of_fmap in Hr as (r' & -> & Hr').
        apply Hg. by apply (subseteq_take m D).
      * by apply Forall_drop.
    + by apply Hg.
Qed.

Lemma drop_np_zeros n N w : drop n (np_zeros N w) = np_zeros (N - n) w.
Proof.
  unfold np_zeros. revert N. induction n as [|n IH]; intros [|N]; cbn; done.
Qed.

Lemma np_zeros_shape n w (D : list (list Qc)) :
  rect n w D → np_zeros (nrows D) (ncols D) = np_zeros n (match D with [] => 0%nat | _ => w end).
Proof.
  intros [Hl Hw]. unfold nrows, ncols. rewrite Hl. destruct D as [|r D]; [done|].
  cbn [hd]. apply Forall_cons in Hw as [Hr _]. by rewrite Hr.
Qed.

Lemma fit_refs_distinct (h : gmap loc (list (list Qc))) D :
  let l1 := fresh (dom h) in
  let l2 := fresh (dom (<[l1 := D]> h)) in
  (l1 ∉ dom h) ∧ (l2 ∉ dom h) ∧ l2 ≠ l1.
Proof.
  intros l1 l2. split; [apply is_fresh|].
  assert (H : l2 ∉ dom (<[l1 := D]> h)) by apply is_fresh.
  rewrite dom_insert in H. split.
  - intros Hin. apply H. apply elem_of_union. by right.
  - intros Heq. apply H. apply elem_of_union. left. by apply elem_of_singleton.
Qed.

(** The gradient loop of [fit] started on [np.zeros(self.sample.shape)]. *)
Lemma fit_gradient_loop grad D w n :
  rect (length D) w D → (n ≤ length D)%nat →
  (∀ r, r ∈ D → length (grad r) = w) →
  grad_rows (seq 0 n) grad D (np_zeros (nrows D) (ncols D)) =
  (map grad (take n D) ++ np_zeros (length D - n) w, Ok tt).
Proof.
  intros HD Hn Hg. destruct (decide (D = [])) as [HD0|HD0].
  - rewrite HD0 in Hn |- *. cbn in Hn. assert (n = 0)%nat as -> by lia. reflexivity.
  - rewrite (np_zeros_shape (length D) w) by done.
    destruct D as [|r0 D'] eqn:E; [done|]. rewrite <- E in *.
    rewrite (grad_rows_fill grad D w n) by (done || apply rect_np_zeros).
    by rewrite drop_np_zeros.
Qed.

(** X1: when the sampler returns at least [n] draws of width [w] and every
    gradient has width [w], lines 71-79 of [fit n] (the two pickle dumps
    are not modelled) complete normally, set [n_iters] to [n], bind
    [sample] to the draws and [logpost_sample] to a new array of the same
    shape, whose first [n] rows are the gradients of the first [n] draws
    and whose other rows are zero. *)
Theorem fit_fills_gradients stan_draws grad n st w :
  let D := stan_draws (2 * n)%nat in
  rect (length D) w D → (n ≤ length D)%nat →
  (∀ r, r ∈ D → length (grad r) = w) →
  let st' := (fit stan_draws grad n st).1 in
  (fit stan_draws grad n st).2 = Ok PyNone ∧
  n_iters (self st') = n ∧
  sample (self st') ≠ logpost_sample (self st') ∧
  heap st' !! sample (self st') = Some D ∧
  heap st' !! logpost_sample (self st') =
    Some (map grad (take n D) ++ np_zeros (length D - n) w).
Proof.
  intros D HD Hn Hg st'. subst st'. rewrite fit_run. fold D.
  destruct (fit_refs_distinct (heap st) D) as (_ & _ & Hne).
  rewrite (fit_gradient_loop grad D w n) by done.
  cbn [fst snd self heap n_iters sample logpost_sample mbind outcome_bind obind].
  split; [done|]. split; [done|]. split; [done|]. split.
  - rewrite lookup_insert_ne by done. by rewrite lookup_insert_eq.
  - by rewrite lookup_insert_eq.
Qed.

Lemma fit_fills_gradients_witness :
  (fit ex_stan_draws ex_grad_log_prob 2 ex_state_new).2 = Ok PyNone ∧
  heap (fit ex_stan_draws ex_grad_log_prob 2 ex_state_new).1
    !! logpost_sample (self (fit ex_stan_draws ex_grad_log_prob 2 ex_state_new).1)
  = Some (map ex_grad_log_prob (take 2 ex_S) ++ np_zeros 1 2).
Proof.
  assert (HD : rect (length (ex_stan_draws (2 * 2))) 2 (ex_stan_draws (2 * 2))).
  { split; [reflexivity | repeat constructor]. }
  assert (Hn : (2 ≤ length (ex_stan_draws (2 * 2)))%nat) by (cbn; lia).
  assert (Hg : ∀ r, r ∈ ex_stan_draws (2 * 2) → length (ex_grad_log_prob r) = 2%nat).
  { intros r Hr. unfold ex_grad_log_prob, vopp. rewrite length_map.
    destruct HD as [_ HD]. rewrite Forall_forall in HD. by apply HD. }
  destruct (fit_fills_gradients ex_stan_draws ex_grad_log_prob 2 ex_state_new 2 HD Hn Hg)
    as (Hret & _ & _ & _ & HG).
  split; [exact Hret | exact HG].
Defined.

(** X2: when the sampler returns fewer than [n] draws, [fit n] raises
    [IndexError] after it has updated the object: [n_iters] is [n],
    [sample] holds the draws and [logpost_sample] the gradient of every
    draw, so that [n_iters] exceeds the number of rows of both arrays. *)
Theorem fit_too_many_iterations stan_draws grad n st w :
  let D := stan_draws (2 * n)%nat in
  rect (length D) w D → (length D < n)%nat →
  (∀ r, r ∈ D → length (grad r) = w) →
  let st' := (fit stan_draws grad n st).1 in
  (fit stan_draws grad n st).2 = Raise IndexError ∧
  n_iters (self st') = n ∧
  heap st' !! sample (self st') = Some D ∧
  heap st' !! logpost_sample (self st') = Some (map grad D).
Proof.
  intros D HD Hn Hg st'. subst st'. rewrite fit_run. fold D.
  destruct (fit_refs_distinct (heap st) D) as (_ & _ & Hne).
  assert (Hrows : grad_rows (seq 0 n) grad D (np_zeros (nrows D) (ncols D)) =
                  (map grad D, Raise IndexError)).
  { replace n with (length D + S (n - S (length D)))%nat at 1 by lia.
    rewrite seq_app, grad_rows_app.
    rewrite (fit_gradient_loop grad D w (length D)) by done.
    rewrite firstn_all, Nat.sub_diag. cbn [np_zeros repeat]. rewrite app_nil_r.
    cbn [seq grad_rows Nat.add]. unfold row_at.
    by rewrite lookup_ge_None_2 by lia. }
  rewrite Hrows. cbn [fst snd self heap n_iters sample logpost_sample mbind outcome_bind obind].
  split; [done|]. split; [done|]. split.
  - rewrite lookup_insert_ne by done. by rewrite lookup_insert_eq.
  - by rewrite lookup_insert_eq.
Qed.

Lemma fit_too_many_iterations_witness :
  (fit ex_stan_draws ex_grad_log_prob 4 ex_state_new).2 = Raise IndexError ∧
  n_iters (self (fit ex_stan_draws ex_grad_log_prob 4 ex_state_new).1) = 4%nat.
Proof.
  assert (HD : rect (length (ex_stan_draws (2 * 4))) 2 (ex_stan_draws (2 * 4))).
  { split; [reflexivity | repeat constructor]. }
  assert (Hn : (length (ex_stan_draws (2 * 4)) < 4)%nat) by (cbn; lia).
  assert (Hg : ∀ r, r ∈ ex_stan_draws (2 * 4) → length (ex_grad_log_prob r) = 2%nat).
  { intros r Hr. unfold ex_grad_log_prob, vopp. rewrite length_map.
    destruct HD as [_ HD]. rewrite Forall_forall in HD. by apply HD. }
  destruct (fit_too_many_iterations ex_stan_draws ex_grad_log_prob 4 ex_state_new 2
              HD Hn Hg) as (Hret & Hni & _).
  split; [exact Hret | exact Hni].
Defined.

(** X3: [fit] writes to two new arrays only.  Whatever the outcome, every
    array that was in the store keeps its contents, the references bound to
    [sample] and [logpost_sample] are new and distinct, and the held-out
    data, [d], [test_size] and the output are unchanged. *)
Theorem fit_preserves_store stan_draws grad n st :
  let st' := (fit stan_draws grad n st).1 in
  (∀ l, is_Some (heap st !! l) → heap st' !! l = heap st !! l) ∧
  (sample (self st') ∉ dom (heap st)) ∧
  (logpost_sample (self st') ∉ dom (heap st)) ∧
  sample (self st') ≠ logpost_sample (self st') ∧
  X_test (self st') = X_test (self st) ∧ y_test (self st') = y_test (self st) ∧
  d (self st') = d (self st) ∧ test_size (self st') = test_size (self st) ∧
  stdout st' = stdout st.
Proof.
  intros st'. subst st'. rewrite fit_run.
  destruct (fit_refs_distinct (heap st) (stan_draws (2 * n)%nat)) as (H1 & H2 & Hne).
  cbn [fst snd self heap stdout sample logpost_sample X_test y_test d test_size].
  split; [|done].
  intros l Hl. apply elem_of_dom in Hl.
  rewrite !lookup_insert_ne; [done|..]; intros <-; contradiction.
Qed.

(** X4: [fit] establishes what [postprocess] and [logloss] rely on: when
    the sampler returns exactly [n] draws of width [self.d] and the
    gradients have that width, lines 71-79 of [fit n] complete normally
    and leave both arrays in the store with [n_iters] rows of [d] entries,
    row [i] of the gradient sample being the gradient at draw [i]. *)
Theorem fit_establishes_fitted stan_draws grad n st :
  let D := stan_draws (2 * n)%nat in
  rect n (d (self st)) D →
  (∀ r, r ∈ D → length (grad r) = d (self st)) →
  (fit stan_draws grad n st).2 = Ok PyNone ∧
  fitted (fit stan_draws grad n st).1 D (map grad D).
Proof.
  intros D HD Hg. rewrite fit_run. fold D.
  destruct (fit_refs_distinct (heap st) D) as (_ & _ & Hne).
  assert (Hlen : length D = n) by apply HD.
  rewrite (fit_gradient_loop grad D (d (self st)) n) by (rewrite ?Hlen; done || lia).
  assert (Hfull : map grad (take n D) ++ np_zeros (length D - n) (d (self st)) =
                  map grad D).
  { rewrite <- Hlen, firstn_all, Nat.sub_diag. cbn [np_zeros repeat].
    by rewrite app_nil_r. }
  rewrite Hfull.
  cbn [fst snd mbind outcome_bind obind]. split; [done|].
  unfold fitted. cbn [self heap n_iters d sample logpost_sample].
  split; [|split; [|split]].
  - rewrite lookup_insert_ne by done. by rewrite lookup_insert_eq.
  - by rewrite lookup_insert_eq.
  - done.
  - split; [by rewrite length_map|]. apply Forall_forall. intros r Hr.
    apply list_elem_of_fmap in Hr as (r' & -> & Hr'). by apply Hg.
Qed.

Lemma fit_establishes_fitted_witness :
  fitted (fit ex_stan_draws ex_grad_log_prob 3 ex_state_new).1
         ex_S (map ex_grad_log_prob ex_S).
Proof.
  assert (HD : rect 3 (d (self ex_state_new)) (ex_stan_draws (2 * 3))).
  { split; [reflexivity | repeat constructor]. }
  assert (Hg : ∀ r, r ∈ ex_stan_draws (2 * 3) →
                    length (ex_grad_log_prob r) = d (self ex_state_new)).
  { intros r Hr. unfold ex_grad_log_prob, vopp. rewrite length_map.
    destruct HD as [_ HD]. rewrite Forall_forall in HD. by apply HD. }
  exact (proj2 (fit_establishes_fitted ex_stan_draws ex_grad_log_prob 3 ex_state_new
                  HD Hg)).
Defined.

(** ** [logloss] *)

(** X5: [logloss] only reads.  It returns in the state it was called in,
    and its result is that of the first [n_iters] rows of the array it is
    given: rows beyond are ignored. *)
Theorem logloss_reads_first_draws log_loss l st :
  logloss log_loss l st =
  (st, logloss_code log_loss (self st)
         (take (n_iters (self st)) (default [] (heap st !! l)))).
Proof.
  rewrite logloss_run. f_equal.
  unfold logloss_code. apply ofold_ext. intros m acc Hm.
  apply elem_of_seq in Hm. unfold row_at. by rewrite lookup_take_lt by lia.
Qed.

(** X6: with at least one draw and one held-out row, a first draw whose
    length differs from that of the first held-out row makes [logloss]
    fail before [log_loss] is called: with [TypeError] when one of the two
    has length 1 (squeezed to a scalar, it makes the product an array that
    [int] refuses), with [ValueError] otherwise.  The state is unchanged. *)
Theorem logloss_width_mismatch log_loss l st beta S' x Xt' :
  heap st !! l = Some (beta :: S') → X_test (self st) = x :: Xt' →
  (1 ≤ n_iters (self st))%nat → (1 ≤ test_size (self st))%nat →
  length beta ≠ length x →
  logloss log_loss l st =
  (st, Raise (if decide (length beta = 1 ∨ length x = 1)%nat
              then TypeError else ValueError)).
Proof.
  intros Hl HX Hn Hts Hne. rewrite logloss_run, Hl. f_equal.
  unfold logloss_code. rewrite (seq_pos (n_iters (self st))) by lia.
  cbn [ofold default from_option id row_at lookup list_lookup obind].
  unfold draw_loss, predict_code.
  rewrite (seq_pos (test_size (self st))) by lia. rewrite HX.
  cbn [ofold row_at lookup list_lookup mbind outcome_bind obind].
  unfold predict. rewrite decide_False by done.
  by destruct (decide (length beta = 1%nat ∨ length x = 1%nat)).
Qed.

Lemma logloss_width_mismatch_witness :
  logloss ex_log_loss 1%positive ex_state_wide = (ex_state_wide, Raise ValueError).
Proof.
  apply (logloss_width_mismatch ex_log_loss 1%positive ex_state_wide
           [q 1 1; q 2 1; q 3 1] [] [q 1 1; q (-1) 1] [[q (-1) 1; q 0 1]]).
  - reflexivity.
  - reflexivity.
  - cbn; lia.
  - cbn; lia.
  - cbn; lia.
Defined.

Lemma bigsum_le n (f g : nat → Qc) :
  (∀ i, (i < n)%nat → f i ≤ g i) → bigsum n f ≤ bigsum n g.
Proof.
  induction n as [|n IH]; intros H; cbn [bigsum]; [done|].
  apply Qcplus_le_compat; [apply IH; intros; apply H; lia | apply H; lia].
Qed.

Lemma logloss_spec_bigsum n loss :
  logloss_spec n loss = bigsum n (λ i, loss i / of_nat n).
Proof.
  unfold logloss_spec. generalize (of_nat n). intros N.
  induction n as [|n IH]; [done|].
  rewrite seq_S, fold_left_app, IH. reflexivity.
Qed.

Lemma of_nat_pos n : (0 < n)%nat → 0 < of_nat n.
Proof.
  intros H. unfold Qclt. change (0 < Qred (inject_Z (Z.of_nat n)))%Q.
  rewrite Qred_correct. unfold Qlt, inject_Z. cbn [Qnum Qden]. lia.
Qed.

(** X7: the value of [logloss] lies between the smallest and the largest
    per-draw loss: when every per-draw loss is between [lo] and [hi], so
    is the result (the weights [1 / n_iters] sum to one). *)
Theorem logloss_between_draw_losses log_loss o S (loss : nat → Qc) lo hi :
  (1 ≤ n_iters o)%nat → (n_iters o ≤ length S)%nat →
  Forall (λ r, length r = d o) S → held_out_ok o →
  (∀ i, (i < n_iters o)%nat →
     log_loss (y_test o) (predictions_spec (X_test o) (nth i S [])) = Ok (loss i)) →
  (∀ i, (i < n_iters o)%nat → lo ≤ loss i ≤ hi) →
  ∃ v, logloss_code log_loss o S = Ok v ∧ lo ≤ v ≤ hi.
Proof.
  intros Hn Hlen HS Hho Hloss Hb.
  exists (logloss_spec (n_iters o) loss). split; [by apply logloss_code_spec|].
  rewrite logloss_spec_bigsum.
  assert (Hpos : 0 < / of_nat (n_iters o)) by (apply Qcinv_pos, of_nat_pos; lia).
  assert (Hc : ∀ c, bigsum (n_iters o) (λ _, c / of_nat (n_iters o)) = c).
  { intros c. rewrite bigsum_const. field. apply of_nat_neq0. lia. }
  split.
  - rewrite <- (Hc lo) at 1. apply bigsum_le. intros i Hi.
    apply Qcmult_le_mono_nonneg_r; [by apply Qclt_le_weak | by apply Hb].
  - rewrite <- (Hc hi) at 1. apply bigsum_le. intros i Hi.
    apply Qcmult_le_mono_nonneg_r; [by apply Qclt_le_weak | by apply Hb].
Qed.

Lemma ex_loss_bounds i : (i < n_iters ex_self)%nat → q 1 1000 ≤ ex_loss i ≤ q 35 1.
Proof.
  intros Hi. destruct i as [|[|[|i]]]; [| | |cbn in Hi; lia];
    (split; vm_compute; intros H; discriminate H).
Defined.

Lemma logloss_between_draw_losses_witness :
  ∃ v, logloss_code ex_log_loss ex_self ex_S = Ok v ∧ q 1 1000 ≤ v ≤ q 35 1.
Proof.
  apply (logloss_between_draw_losses ex_log_loss ex_self ex_S ex_loss).
  - cbn. lia.
  - cbn. lia.
  - exact ex_S_width.
  - exact ex_held_out_ok.
  - exact ex_loss_ok.
  - exact ex_loss_bounds.
Defined.

Lemma dot_vscale_l c u v : dot (vscale c u) v = c * dot u v.
Proof.
  unfold dot, vscale. revert v. induction u as [|x u IH]; intros [|y v]; cbn;
    try (change (vsum []) with 0; ring).
  change (c * x * y + vsum (zip_with Qcmult (map (Qcmult c) u) v) =
          c * (x * y + vsum (zip_with Qcmult u v))).
  rewrite IH. ring.
Qed.

Lemma sign_scale c t : 0 < c → (0 ≤ c * t ↔ 0 ≤ t).
Proof.
  intros Hc. rewrite (Qcmult_le_mono_pos_l 0 t c Hc). by rewrite Qcmult_0_r.
Qed.

Lemma predict_scale c beta x : 0 < c → predict (vscale c beta) x = predict beta x.
Proof.
  intros Hc. unfold predict.
  replace (length (vscale c beta)) with (length beta)
    by (unfold vscale; by rewrite length_map).
  destruct (decide (length beta = length x)); [|done].
  f_equal. rewrite dot_vscale_l.
  destruct (bool_decide (0 ≤ dot beta x)) eqn:E.
  - apply bool_decide_eq_true in E. rewrite bool_decide_eq_true_2; [done|].
    by apply sign_scale.
  - apply bool_decide_eq_false in E. rewrite bool_decide_eq_false_2; [done|].
    intros H. by apply E, (sign_scale c).
Qed.

Lemma draw_loss_scale log_loss o c beta :
  0 < c → draw_loss log_loss o (vscale c beta) = draw_loss log_loss o beta.
Proof.
  intros Hc. unfold draw_loss, predict_code.
  rewrite (ofold_ext _ _ (λ i y_pred,
             x ← row_at (X_test o) i; b ← predict beta x; Ok (<[i := b]> y_pred))).
  - reflexivity.
  - intros i acc _. destruct (row_at (X_test o) i) as [x| |]; [|done..].
    cbn [mbind outcome_bind obind]. by rewrite predict_scale.
Qed.

(** X8: the hard predictions depend on the direction of a draw only:
    multiplying every draw by the same positive constant does not change
    what [logloss] returns. *)
Theorem logloss_scale_invariant log_loss st l l' S c :
  heap st !! l = Some S → heap st !! l' = Some (map (vscale c) S) → 0 < c →
  logloss log_loss l' st = logloss log_loss l st.
Proof.
  intros Hl Hl' Hc. rewrite !logloss_run, Hl, Hl'. f_equal.
  cbn [default from_option id]. unfold logloss_code. apply ofold_ext. intros m acc _.
  unfold row_at. rewrite list_lookup_fmap.
  destruct (S !! m) as [beta|]; [|done]. cbn [fmap option_fmap option_map].
  cbn [mbind outcome_bind obind]. by rewrite draw_loss_scale.
Qed.

Lemma logloss_scale_invariant_witness :
  logloss ex_log_loss 2%positive ex_state_scaled =
  logloss ex_log_loss 1%positive ex_state_scaled.
Proof.
  apply (logloss_scale_invariant ex_log_loss ex_state_scaled 1%positive 2%positive
           ex_S (q 2 1)).
  - reflexivity.
  - reflexivity.
  - reflexivity.
Defined.

(** ** The control-variate pass

    *** Sample covariance as a bilinear form *)

Lemma mean_tab n (f : nat → Qc) : mean (map f (seq 0 n)) = bigsum n f / of_nat n.
Proof. unfold mean. by rewrite vsum_tab, length_tab. Qed.

Lemma covariance_tab n (f g : nat → Qc) :
  covariance (map f (seq 0 n)) (map g (seq 0 n)) =
  bigsum n (λ i, (f i - bigsum n f / of_nat n) * (g i - bigsum n g / of_nat n))
  / of_Z (Z.of_nat n - 1).
Proof.
  rewrite (covariance_bigsum _ _ n) by apply length_tab.
  rewrite !mean_tab. f_equal. apply bigsum_ext. intros i Hi. by rewrite !nth_tab.
Qed.

Lemma covariance_tab_sym n (f g : nat → Qc) :
  covariance (map f (seq 0 n)) (map g (seq 0 n)) =
  covariance (map g (seq 0 n)) (map f (seq 0 n)).
Proof.
  rewrite !covariance_tab. f_equal. apply bigsum_ext. intros i _. ring.
Qed.

Lemma covariance_tab_plus n (f g h : nat → Qc) :
  covariance (map (λ i, f i + g i) (seq 0 n)) (map h (seq 0 n)) =
  covariance (map f (seq 0 n)) (map h (seq 0 n)) +
  covariance (map g (seq 0 n)) (map h (seq 0 n)).
Proof.
  rewrite !covariance_tab.
  set (N := of_nat n). set (D := of_Z (Z.of_nat n - 1)).
  assert (H : bigsum n (λ i, (f i + g i - bigsum n (λ i, f i + g i) / N)
                             * (h i - bigsum n h / N)) =
              bigsum n (λ i, (f i - bigsum n f / N) * (h i - bigsum n h / N)) +
              bigsum n (λ i, (g i - bigsum n g / N) * (h i - bigsum n h / N))).
  { rewrite <- bigsum_plus. apply bigsum_ext. intros i _.
    rewrite bigsum_plus. unfold Qcdiv. ring. }
  rewrite H. unfold Qcdiv. ring.
Qed.

Lemma covariance_tab_scale n c (f h : nat → Qc) :
  covariance (map (λ i, c * f i) (seq 0 n)) (map h (seq 0 n)) =
  c * covariance (map f (seq 0 n)) (map h (seq 0 n)).
Proof.
  rewrite !covariance_tab.
  set (N := of_nat n). set (D := of_Z (Z.of_nat n - 1)).
  assert (H : bigsum n (λ i, (c * f i - bigsum n (λ i, c * f i) / N)
                             * (h i - bigsum n h / N)) =
              c * bigsum n (λ i, (f i - bigsum n f / N) * (h i - bigsum n h / N))).
  { rewrite <- bigsum_scale. apply bigsum_ext. intros i _.
    rewrite bigsum_scale. unfold Qcdiv. ring. }
  rewrite H. unfold Qcdiv. ring.
Qed.

Lemma covariance_tab_zero n (h : nat → Qc) :
  covariance (map (λ _, 0) (seq 0 n)) (map h (seq 0 n)) = 0.
Proof.
  rewrite covariance_tab, bigsum_zero.
  rewrite (bigsum_ext_zero n) by (intros; unfold Qcdiv; ring).
  unfold Qcdiv. ring.
Qed.

Lemma covariance_tab_bigsum n m (a : nat → Qc) (g : nat → nat → Qc) (h : nat → Qc) :
  covariance (map (λ i, bigsum m (λ l, a l * g l i)) (seq 0 n)) (map h (seq 0 n)) =
  bigsum m (λ l, a l * covariance (map (g l) (seq 0 n)) (map h (seq 0 n))).
Proof.
  induction m as [|m IH]; cbn [bigsum].
  - apply covariance_tab_zero.
  - by rewrite covariance_tab_plus, IH, covariance_tab_scale.
Qed.

Lemma bigsum_nonneg n (f : nat → Qc) :
  (∀ i, (i < n)%nat → 0 ≤ f i) → 0 ≤ bigsum n f.
Proof.
  induction n as [|n IH]; intros H; cbn [bigsum]; [done|].
  apply Qcplus_nonneg_nonneg; [apply IH; intros; apply H; lia | apply H; lia].
Qed.

Lemma square_nonneg (x : Qc) : 0 ≤ x * x.
Proof.
  destruct (Qclt_le_dec x 0) as [Hneg|Hpos].
  - replace (x * x) with ((- x) * (- x)) by ring.
    assert (H : 0 ≤ - x).
    { apply Qclt_le_weak in Hneg. apply Qcopp_le_compat in Hneg.
      by replace (- 0) with 0 in Hneg by ring. }
    by apply Qcmult_nonneg_nonneg.
  - by apply Qcmult_nonneg_nonneg.
Qed.

(** A sample variance is never negative. *)
Lemma variance_nonneg xs : 0 ≤ covariance xs xs.
Proof.
  rewrite (covariance_bigsum xs xs (length xs)) by done.
  destruct (decide (2 ≤ length xs)%nat) as [Hn|Hn].
  - apply Qcmult_nonneg_nonneg.
    + apply bigsum_nonneg. intros i _. apply square_nonneg.
    + apply Qclt_le_weak, Qcinv_pos.
      replace (Z.of_nat (length xs) - 1)%Z with (Z.of_nat (length xs - 1)) by lia.
      apply (of_nat_pos (length xs - 1)). lia.
  - destruct (length xs) as [|[|n]] eqn:E; [| |lia].
    + cbn [bigsum]. unfold Qcdiv. by rewrite Qcmult_0_l.
    + change (of_Z (Z.of_nat 1 - 1)) with 0. unfold Qcdiv.
      change (/ 0) with 0. by rewrite Qcmult_0_r.
Qed.

Lemma bigsum_opp n (f : nat → Qc) : bigsum n (λ i, - f i) = - bigsum n f.
Proof. induction n as [|n IH]; cbn [bigsum]; [ring | rewrite IH; ring]. Qed.

(** *** The adjusted sample as a table *)

Lemma column_tab n w m k :
  rect n w m → column k m = map (λ i, entry m i k) (seq 0 n).
Proof.
  intros [Hl _]. rewrite (as_tab 0 (column k m) n) by (by rewrite length_column).
  apply tab_ext. intros i Hi. apply nth_column. lia.
Qed.

Lemma column_adjusted V dim S G j :
  (j < dim)%nat →
  column j (adjusted_spec V dim S G) =
  map (λ i, entry S i j + dot (coef_spec V dim S G j) (nth i G [])) (seq 0 (length S)).
Proof.
  intros Hj. unfold column, adjusted_spec. rewrite map_map.
  apply tab_ext. intros i Hi. by rewrite nth_tab.
Qed.

Lemma nth_coef_spec V dim S G j m :
  rect dim dim V → (m < dim)%nat →
  nth m (coef_spec V dim S G j) 0 =
  - bigsum dim (λ k, entry V m k * covariance (column j S) (column k G)).
Proof.
  intros HV Hm. unfold coef_spec, vopp, mvmul. rewrite map_map.
  rewrite (nth_map_lt _ _ _ []) by (destruct HV; lia). f_equal.
  rewrite (dot_bigsum _ _ dim)
    by (by apply (rect_row dim) || apply length_cross_cov_spec).
  apply bigsum_ext. intros k Hk. unfold cross_cov_spec, entry. by rewrite nth_tab.
Qed.

Lemma entry_var_grad n w G k l :
  rect n w G → (0 < n)%nat → (k < w)%nat → (l < w)%nat →
  entry (var_grad_spec G) k l = covariance (column k G) (column l G).
Proof.
  intros HG Hn Hk Hl. unfold var_grad_spec. rewrite (rect_ncols n w) by done.
  by rewrite (entry_tab (λ k l, covariance (column k G) (column l G))).
Qed.

Lemma var_grad_sym n w G k l :
  rect n w G → (0 < n)%nat → (k < w)%nat → (l < w)%nat →
  entry (var_grad_spec G) k l = entry (var_grad_spec G) l k.
Proof.
  intros HG Hn Hk Hl. rewrite !(entry_var_grad n w) by done.
  rewrite !(column_tab n w G) by done. apply covariance_tab_sym.
Qed.

(** What the inverse gives entry by entry, with [var_grad] symmetric. *)
Lemma inverse_var_grad_entries n w G V m k :
  rect n w G → (0 < n)%nat → rect w w V → is_inverse (var_grad_spec G) V →
  (m < w)%nat → (k < w)%nat →
  bigsum w (λ l, entry V m l * entry (var_grad_spec G) l k) = delta m k ∧
  bigsum w (λ l, entry (var_grad_spec G) k l * entry V l m) = delta k m.
Proof.
  intros HG Hn HV [H1 H2] Hm Hk.
  assert (HM : rect w w (var_grad_spec G)) by by apply (rect_var_grad n).
  destruct HM as [Hl Hr] in H1, H2. rewrite Hl in H1, H2.
  split; by apply mmul_entry.
Qed.

Lemma dot_coef_row n dim S G V j i :
  rect n dim G → rect dim dim V → (i < n)%nat →
  dot (coef_spec V dim S G j) (nth i G []) =
  bigsum dim (λ l, nth l (coef_spec V dim S G j) 0 * entry G i l).
Proof.
  intros HG HV Hi. apply dot_bigsum.
  - rewrite length_coef_spec. apply HV.
  - by apply (rect_row n).
Qed.

(** The covariance of an adjusted column with a gradient column, in terms
    of the coefficients. *)
Lemma covariance_adjusted_gradient n dim S G V j k :
  rect n dim S → rect n dim G → (0 < n)%nat → rect dim dim V →
  (j < dim)%nat → (k < dim)%nat →
  covariance (column j (adjusted_spec V dim S G)) (column k G) =
  covariance (column j S) (column k G) +
  bigsum dim (λ l, nth l (coef_spec V dim S G j) 0 * entry (var_grad_spec G) l k).
Proof.
  intros HS HG Hn HV Hj Hk.
  rewrite column_adjusted by done. destruct HS as [HSl HSw] eqn:E. rewrite HSl. clear E.
  rewrite (column_tab n dim G k), (column_tab n dim S j) by done.
  rewrite (tab_ext _ (λ i, entry S i j +
             bigsum dim (λ l, nth l (coef_spec V dim S G j) 0 * entry G i l)) n)
    by (intros i Hi; by rewrite (dot_coef_row n)).
  rewrite covariance_tab_plus, covariance_tab_bigsum. f_equal.
  apply bigsum_ext. intros l Hl. f_equal.
  rewrite (entry_var_grad n dim) by done.
  by rewrite !(column_tab n dim G).
Qed.

Lemma adjusted_uncorrelated n dim S G V j k :
  rect n dim S → rect n dim G → (0 < n)%nat → rect dim dim V →
  is_inverse (var_grad_spec G) V →
  (j < dim)%nat → (k < dim)%nat →
  covariance (column j (adjusted_spec V dim S G)) (column k G) = 0.
Proof.
  intros HS HG Hn HV Hinv Hj Hk.
  rewrite (covariance_adjusted_gradient n) by done.
  set (c := λ m, covariance (column j S) (column m G)).
  rewrite (bigsum_ext _ _
    (λ l, - bigsum dim (λ m, c m * (entry (var_grad_spec G) k l * entry V l m)))).
  - rewrite bigsum_opp, bigsum_swap.
    rewrite (bigsum_ext _ _ (λ m, delta k m * c m)).
    + rewrite (bigsum_delta dim k c) by done. unfold c. ring.
    + intros m Hm. rewrite bigsum_scale, Qcmult_comm. f_equal.
      by apply (inverse_var_grad_entries n dim G V m k).
  - intros l Hl. rewrite nth_coef_spec by done. fold c.
    rewrite (var_grad_sym n dim G l k) by done.
    rewrite Qcmult_comm, <- !bigsum_opp, <- bigsum_scale.
    apply bigsum_ext. intros m _. unfold c. ring.
Qed.

Lemma covariance_tab_const n c (h : nat → Qc) :
  covariance (map (λ _, c) (seq 0 n)) (map h (seq 0 n)) = 0.
Proof.
  destruct (decide (n = 0%nat)) as [->|Hn]; [reflexivity|].
  apply (covariance_const_l _ _ c); rewrite ?length_tab; [lia | done |].
  intros i Hi. by rewrite nth_tab.
Qed.

Lemma covariance_pythagoras n (f g : nat → Qc) :
  covariance (map g (seq 0 n)) (map (λ i, f i + g i) (seq 0 n)) = 0 →
  covariance (map (λ i, f i + g i) (seq 0 n)) (map (λ i, f i + g i) (seq 0 n)) +
  covariance (map g (seq 0 n)) (map g (seq 0 n)) =
  covariance (map f (seq 0 n)) (map f (seq 0 n)).
Proof.
  intros H0.
  pose proof H0 as H1. rewrite covariance_tab_sym, covariance_tab_plus in H1.
  rewrite (covariance_tab_plus n f g (λ i, f i + g i)), H0.
  rewrite (covariance_tab_sym n f (λ i, f i + g i)), covariance_tab_plus.
  rewrite (covariance_tab_sym n g f).
  set (Cff := covariance (map f (seq 0 n)) (map f (seq 0 n))) in *.
  set (Cfg := covariance (map f (seq 0 n)) (map g (seq 0 n))) in *.
  set (Cgg := covariance (map g (seq 0 n)) (map g (seq 0 n))) in *.
  transitivity (Cff + (Cfg + Cgg)); [ring | rewrite H1; ring].
Qed.

(** *** What the control-variate pass returns when it succeeds *)

Lemma inv_no_variable n G :
  rect n 0 G → (2 ≤ n)%nat → np_linalg_inv (np_cov G) = Ok [].
Proof.
  intros HG Hn. rewrite (np_cov_spec n 0) by done.
  unfold var_grad_spec. by rewrite (rect_ncols n 0) by (done || lia).
Qed.

Lemma adjustment_succeeded st S G lo :
  fitted st S G → (2 ≤ n_iters (self st))%nat →
  (postprocess_adjust st).2 = Ok lo →
  ∃ V, np_linalg_inv (np_cov G) = Ok V ∧
       rect (d (self st)) (d (self st)) V ∧
       is_inverse (var_grad_spec G) V ∧
       heap (postprocess_adjust st).1 !! lo = Some (adjusted_spec V (d (self st)) S G).
Proof.
  intros Hfit Hn Hlo. pose proof (fitted_live _ _ _ Hfit) as Hlive.
  destruct Hfit as (HS & HG & HSr & HGr).
  rewrite (postprocess_adjust_run st Hlive), HS, HG in Hlo |- *.
  cbn [default from_option id fst snd with_heap heap] in Hlo |- *.
  assert (Hinv : ∃ V, np_linalg_inv (np_cov G) = Ok V).
  { destruct (np_linalg_inv (np_cov G)) as [V| |] eqn:E; [by exists V|..].
    - destruct (decide (d (self st) = 0%nat)) as [Hd|Hd].
      + rewrite Hd in HGr. rewrite (inv_no_variable _ G HGr Hn) in E. discriminate.
      + destruct (adjust_code_inv_fails _ _ S G HSr HGr Hn) as [_ H];
          [lia | by rewrite E |].
        rewrite H, E in Hlo. discriminate.
    - destruct (decide (d (self st) = 0%nat)) as [Hd|Hd].
      + rewrite Hd in HGr. rewrite (inv_no_variable _ G HGr Hn) in E. discriminate.
      + destruct (adjust_code_inv_fails _ _ S G HSr HGr Hn) as [_ H];
          [lia | by rewrite E |].
        rewrite H, E in Hlo. discriminate. }
  destruct Hinv as [V HV]. exists V.
  destruct (inv_var_grad _ _ G V HGr Hn HV) as (_ & HVr & Hinv).
  rewrite (adjust_code_spec _ _ S G V) in Hlo |- * by done.
  cbn [fst snd mbind outcome_bind obind] in Hlo |- *. injection Hlo as <-.
  by rewrite lookup_insert_eq.
Qed.

(** X10: on a one-dimensional chain of at least two draws [postprocess]
    always fails with [LinAlgError], whatever the gradient sample:
    [np.cov] returns a 0-d array for a single variable, and
    [np.linalg.inv] refuses it.  Nothing is printed. *)
Theorem one_dimension_always_raises log_loss st S G :
  fitted st S G → (2 ≤ n_iters (self st))%nat → d (self st) = 1%nat →
  (postprocess_adjust st).2 = Raise LinAlgError ∧
  (postprocess log_loss st).2 = Raise LinAlgError ∧
  stdout (postprocess log_loss st).1 = stdout st.
Proof.
  intros Hfit Hn Hd. pose proof (fitted_live _ _ _ Hfit) as Hlive.
  destruct (fitted_contents _ _ _ Hfit) as [HS HG].
  destruct Hfit as (_ & _ & HSr & HGr).
  assert (Hraise : np_linalg_inv (np_cov G) = Raise LinAlgError).
  { apply (inv_single_variable (n_iters (self st))); [by rewrite <- Hd | done]. }
  destruct (adjust_code_inv_fails _ _ S G HSr HGr Hn) as [_ H];
    [lia | by rewrite Hraise |].
  rewrite Hraise in H. cbn [mbind outcome_bind obind] in H.
  rewrite (postprocess_run log_loss st Hlive), (postprocess_adjust_run st Hlive).
  unfold postprocess_code. rewrite HS, HG.
  destruct (adjust_code _ _ S G) as [out r]. cbn [snd] in H. subst r.
  cbn [fst snd mbind outcome_bind obind printed stdout]. by rewrite app_nil_r.
Qed.

Lemma one_dimension_always_raises_witness :
  (postprocess ex_log_loss ex_state_scalar).2 = Raise LinAlgError.
Proof.
  assert (Hn : (2 ≤ n_iters (self ex_state_scalar))%nat) by (cbn; lia).
  exact (proj1 (proj2 (one_dimension_always_raises ex_log_loss ex_state_scalar _ _
                         ex_scalar_fitted Hn eq_refl))).
Defined.

(** X19: on a fitted chain of at least two draws, a gradient column that
    is zero in every draw makes [var_grad] singular, and [postprocess]
    fails with [LinAlgError] without printing.  A column of zeros is
    centred and multiplied without rounding, so that the covariance matrix
    has an exactly zero row in double precision too. *)
Theorem zero_gradient_column_raises log_loss st S G k :
  fitted st S G → (2 ≤ n_iters (self st))%nat → (k < d (self st))%nat →
  (∀ i, (i < n_iters (self st))%nat → entry G i k = 0) →
  (postprocess_adjust st).2 = Raise LinAlgError ∧
  (postprocess log_loss st).2 = Raise LinAlgError ∧
  stdout (postprocess log_loss st).1 = stdout st.
Proof.
  intros Hfit Hn Hk Hzero. pose proof (fitted_live _ _ _ Hfit) as Hlive.
  destruct (fitted_contents _ _ _ Hfit) as [HS HG].
  destruct Hfit as (_ & _ & HSr & HGr).
  assert (Hsing : singular (np_cov G)).
  { by apply (constant_column_singular (n_iters (self st)) (d (self st)) G k 0). }
  rewrite (postprocess_run log_loss st Hlive), (postprocess_adjust_run st Hlive).
  unfold postprocess_code. rewrite HS, HG.
  rewrite (adjust_code_singular _ _ S G) by (done || lia).
  cbn [fst snd mbind outcome_bind obind printed stdout]. by rewrite app_nil_r.
Qed.

Lemma ex_zero_column i :
  (i < n_iters (self (ex_state_with ex_G_zero_column)))%nat →
  entry ex_G_zero_column i 1 = 0.
Proof. intros Hi. destruct i as [|[|[|i]]]; [reflexivity..|cbn in Hi; lia]. Defined.

Lemma zero_gradient_column_raises_witness :
  (postprocess ex_log_loss (ex_state_with ex_G_zero_column)).2 = Raise LinAlgError ∧
  stdout (postprocess ex_log_loss (ex_state_with ex_G_zero_column)).1 = [].
Proof.
  assert (HG : rect 3 2 ex_G_zero_column) by (split; [reflexivity | repeat constructor]).
  assert (Hn : (2 ≤ n_iters (self (ex_state_with ex_G_zero_column)))%nat) by (cbn; lia).
  assert (Hk : (1 < d (self (ex_state_with ex_G_zero_column)))%nat) by (cbn; lia).
  exact (proj2 (zero_gradient_column_raises ex_log_loss (ex_state_with ex_G_zero_column)
                  ex_S ex_G_zero_column 1 (ex_fitted_with _ HG) Hn Hk ex_zero_column)).
Defined.

(** X11: [postprocess] prints exactly one line when it returns, and then
    returns [None]; when it fails it prints nothing. *)
Theorem postprocess_prints_only_on_success log_loss st :
  refs_live st →
  ((postprocess log_loss st).2 = Ok PyNone ∧
   ∃ old new, stdout (postprocess log_loss st).1 = stdout st ++ [(old, new)]) ∨
  ((∀ v, (postprocess log_loss st).2 ≠ Ok v) ∧
   stdout (postprocess log_loss st).1 = stdout st).
Proof.
  intros Hlive. rewrite (postprocess_run log_loss st Hlive). cbn [fst snd stdout].
  destruct (postprocess_code _ _ _ _).2 as [[old new]| |];
    cbn [mbind outcome_bind obind printed].
  - left. split; [done|]. by exists old, new.
  - right. split; [done | by rewrite app_nil_r].
  - right. split; [done | by rewrite app_nil_r].
Qed.

Lemma postprocess_prints_only_on_success_witness :
  (postprocess ex_log_loss ex_state).2 = Ok PyNone ∧
  length (stdout (postprocess ex_log_loss ex_state).1) = 1%nat.
Proof.
  destruct (postprocess_prints_only_on_success ex_log_loss ex_state ex_live)
    as [[Hret (old & new & Hout)]|[Hno _]].
  - split; [exact Hret|]. rewrite Hout. reflexivity.
  - exfalso. apply (Hno PyNone). vm_compute. reflexivity.
Defined.

(** X12: when the control-variate pass succeeds, every column of the
    adjusted sample has zero sample covariance with every column of the
    gradient sample. *)
Theorem adjusted_uncorrelated_with_gradient st S G lo :
  fitted st S G → (2 ≤ n_iters (self st))%nat →
  (postprocess_adjust st).2 = Ok lo →
  ∃ A, heap (postprocess_adjust st).1 !! lo = Some A ∧
       ∀ j k, (j < d (self st))%nat → (k < d (self st))%nat →
         covariance (column j A) (column k G) = 0.
Proof.
  intros Hfit Hn Hlo.
  destruct (adjustment_succeeded st S G lo Hfit Hn Hlo) as (V & _ & HV & Hinv & HA).
  destruct Hfit as (_ & _ & HSr & HGr).
  exists (adjusted_spec V (d (self st)) S G). split; [done|].
  intros j k Hj Hk.
  apply (adjusted_uncorrelated (n_iters (self st))); (done || lia).
Qed.

Lemma adjusted_uncorrelated_with_gradient_witness :
  ∃ lo A, (postprocess_adjust ex_state).2 = Ok lo ∧
          heap (postprocess_adjust ex_state).1 !! lo = Some A ∧
          ∀ j k, (j < 2)%nat → (k < 2)%nat →
            covariance (column j A) (column k ex_G) = 0.
Proof.
  destruct (postprocess_adjust ex_state).2 as [lo| |] eqn:Hlo.
  2,3: (exfalso; vm_compute in Hlo; discriminate Hlo).
  assert (Hn : (2 ≤ n_iters (self ex_state))%nat) by (cbn; lia).
  destruct (adjusted_uncorrelated_with_gradient ex_state ex_S ex_G lo ex_fitted Hn Hlo)
    as (A & HA & H).
  exists lo, A. split; [reflexivity|]. split; [exact HA | exact H].
Defined.

(** X13: when the control-variate pass succeeds, the sample variance of an
    adjusted column is that of the original column minus the sample
    variance of the correction [adjusted - sample]; in particular it is
    never larger. *)
Theorem adjusted_variance_not_larger st S G lo :
  fitted st S G → (2 ≤ n_iters (self st))%nat →
  (postprocess_adjust st).2 = Ok lo →
  ∃ A, heap (postprocess_adjust st).1 !! lo = Some A ∧
       ∀ j, (j < d (self st))%nat →
         covariance (column j A) (column j A) +
         covariance (zip_with Qcminus (column j A) (column j S))
                    (zip_with Qcminus (column j A) (column j S)) =
         covariance (column j S) (column j S) ∧
         covariance (column j A) (column j A) ≤ covariance (column j S) (column j S).
Proof.
  intros Hfit Hn Hlo.
  destruct (adjustment_succeeded st S G lo Hfit Hn Hlo) as (V & _ & HV & Hinv & HA).
  destruct Hfit as (_ & _ & HSr & HGr).
  set (n := n_iters (self st)) in *. set (dim := d (self st)) in *.
  exists (adjusted_spec V dim S G). split; [done|].
  intros j Hj.
  set (a := coef_spec V dim S G j).
  set (f := λ i, entry S i j).
  set (g := λ i, bigsum dim (λ l, nth l a 0 * entry G i l)).
  assert (HAj : column j (adjusted_spec V dim S G) = map (λ i, f i + g i) (seq 0 n)).
  { rewrite column_adjusted by done. replace (length S) with n by (symmetry; apply HSr).
    apply tab_ext. intros i Hi. unfold f, g, a. by rewrite (dot_coef_row n). }
  assert (HSj : column j S = map f (seq 0 n)) by by apply (column_tab n dim).
  assert (Hz : zip_with Qcminus (column j (adjusted_spec V dim S G)) (column j S) =
               map g (seq 0 n)).
  { rewrite HAj, HSj, zip_with_tab. apply tab_ext. intros i _. ring. }
  assert (H0 : covariance (map g (seq 0 n)) (map (λ i, f i + g i) (seq 0 n)) = 0).
  { unfold g at 1. rewrite covariance_tab_bigsum. apply bigsum_ext_zero. intros l Hl.
    rewrite covariance_tab_sym, <- HAj, <- (column_tab n dim G l) by done.
    rewrite (adjusted_uncorrelated n) by (done || lia). ring. }
  assert (Heq : covariance (column j (adjusted_spec V dim S G))
                           (column j (adjusted_spec V dim S G)) +
                covariance (map g (seq 0 n)) (map g (seq 0 n)) =
                covariance (column j S) (column j S)).
  { rewrite HAj, HSj. by apply covariance_pythagoras. }
  rewrite Hz. split; [exact Heq|].
  rewrite <- Heq. rewrite <- (Qcplus_0_r (covariance _ _)) at 1.
  apply Qcplus_le_mono_l, variance_nonneg.
Qed.

Lemma adjusted_variance_not_larger_witness :
  ∃ lo A, (postprocess_adjust ex_state).2 = Ok lo ∧
          heap (postprocess_adjust ex_state).1 !! lo = Some A ∧
          covariance (column 0 A) (column 0 A) ≤ covariance (column 0 ex_S) (column 0 ex_S).
Proof.
  destruct (postprocess_adjust ex_state).2 as [lo| |] eqn:Hlo.
  2,3: (exfalso; vm_compute in Hlo; discriminate Hlo).
  assert (Hn : (2 ≤ n_iters (self ex_state))%nat) by (cbn; lia).
  destruct (adjusted_variance_not_larger ex_state ex_S ex_G lo ex_fitted Hn Hlo)
    as (A & HA & H).
  exists lo, A. split; [reflexivity|]. split; [exact HA|].
  assert (H0 : (0 < d (self ex_state))%nat) by (cbn; lia).
  exact (proj2 (H 0%nat H0)).
Defined.

(** X14: a column of the sample that is an affine function
    [mu + dot(w, gradient[i, :])] of the gradient rows is adjusted to the
    constant [mu]: its variance is removed entirely. *)
Theorem affine_in_gradient_becomes_constant st S G lo j mu w :
  fitted st S G → (2 ≤ n_iters (self st))%nat →
  (postprocess_adjust st).2 = Ok lo →
  (j < d (self st))%nat → length w = d (self st) →
  (∀ i, (i < n_iters (self st))%nat → entry S i j = mu + dot w (nth i G [])) →
  ∃ A, heap (postprocess_adjust st).1 !! lo = Some A ∧
       ∀ i, (i < n_iters (self st))%nat → entry A i j = mu.
Proof.
  intros Hfit Hn Hlo Hj Hw Haff.
  destruct (adjustment_succeeded st S G lo Hfit Hn Hlo) as (V & _ & HV & Hinv & HA).
  destruct Hfit as (_ & _ & HSr & HGr).
  set (n := n_iters (self st)) in *. set (dim := d (self st)) in *.
  exists (adjusted_spec V dim S G). split; [done|].
  assert (Hrow : ∀ i, (i < n)%nat →
            dot w (nth i G []) = bigsum dim (λ l, nth l w 0 * entry G i l)).
  { intros i Hi. apply dot_bigsum; [done | by apply (rect_row n)]. }
  assert (Hc : ∀ k, (k < dim)%nat →
            covariance (column j S) (column k G) =
            bigsum dim (λ l, nth l w 0 * entry (var_grad_spec G) l k)).
  { intros k Hk. rewrite (column_tab n dim S j), (column_tab n dim G k) by done.
    rewrite (tab_ext _ (λ i, (λ _, mu) i +
               bigsum dim (λ l, nth l w 0 * entry G i l)) n)
      by (intros i Hi; by rewrite Haff, Hrow).
    rewrite covariance_tab_plus, covariance_tab_const, covariance_tab_bigsum.
    rewrite Qcplus_0_l. apply bigsum_ext. intros l Hl. f_equal.
    rewrite (entry_var_grad n dim) by (done || lia).
    by rewrite !(column_tab n dim G). }
  assert (Ha : ∀ m, (m < dim)%nat → nth m (coef_spec V dim S G j) 0 = - nth m w 0).
  { intros m Hm. rewrite nth_coef_spec by done. f_equal.
    rewrite (bigsum_ext _ _
      (λ k, bigsum dim (λ l, nth l w 0 * (entry V m k * entry (var_grad_spec G) k l)))).
    - rewrite bigsum_swap.
      rewrite (bigsum_ext _ _ (λ l, delta m l * nth l w 0)).
      + by apply (bigsum_delta dim m (λ l, nth l w 0)).
      + intros l Hl. rewrite bigsum_scale, Qcmult_comm. f_equal.
        apply (inverse_var_grad_entries n dim G V m l); (done || lia).
    - intros k Hk. rewrite Hc by done.
      rewrite <- bigsum_scale. apply bigsum_ext. intros l Hl.
      rewrite (var_grad_sym n dim G l k) by (done || lia). ring. }
  intros i Hi. rewrite entry_adjusted_spec by (done || (destruct HSr; lia)).
  rewrite Haff, Hrow, (dot_coef_row n) by done.
  rewrite (bigsum_ext dim (λ l, nth l (coef_spec V dim S G j) 0 * entry G i l)
             (λ l, - (nth l w 0 * entry G i l)))
    by (intros l Hl; rewrite Ha by done; ring).
  rewrite bigsum_opp. ring.
Qed.

Lemma ex_S_affine i :
  (i < n_iters (self ex_state))%nat →
  entry ex_S i 0 = q 2 1 + dot [q (-1) 1; q 1 1] (nth i ex_G []).
Proof.
  intros Hi. destruct i as [|[|[|i]]]; [| | |cbn in Hi; lia];
    apply Qc_is_canon; vm_compute; reflexivity.
Defined.

Lemma affine_in_gradient_becomes_constant_witness :
  ∃ lo A, (postprocess_adjust ex_state).2 = Ok lo ∧
          heap (postprocess_adjust ex_state).1 !! lo = Some A ∧
          ∀ i, (i < 3)%nat → entry A i 0 = q 2 1.
Proof.
  destruct (postprocess_adjust ex_state).2 as [lo| |] eqn:Hlo.
  2,3: (exfalso; vm_compute in Hlo; discriminate Hlo).
  assert (Hn : (2 ≤ n_iters (self ex_state))%nat) by (cbn; lia).
  assert (Hj : (0 < d (self ex_state))%nat) by (cbn; lia).
  destruct (affine_in_gradient_becomes_constant ex_state ex_S ex_G lo 0 (q 2 1)
              [q (-1) 1; q 1 1] ex_fitted Hn Hlo Hj eq_refl ex_S_affine)
    as (A & HA & H).
  exists lo, A. split; [reflexivity|]. split; [exact HA | exact H].
Defined.

(** X15: when every column of the gradient sample has mean zero, the
    adjusted sample has the column means of the original sample. *)
Theorem zero_mean_gradient_preserves_means st S G lo :
  fitted st S G → (2 ≤ n_iters (self st))%nat →
  (postprocess_adjust st).2 = Ok lo →
  (∀ k, (k < d (self st))%nat → mean (column k G) = 0) →
  ∃ A, heap (postprocess_adjust st).1 !! lo = Some A ∧
       ∀ j, (j < d (self st))%nat → mean (column j A) = mean (column j S).
Proof.
  intros Hfit Hn Hlo Hzero.
  destruct (adjustment_succeeded st S G lo Hfit Hn Hlo) as (V & _ & HV & Hinv & HA).
  destruct Hfit as (_ & _ & HSr & HGr).
  set (n := n_iters (self st)) in *. set (dim := d (self st)) in *.
  exists (adjusted_spec V dim S G). split; [done|].
  intros j Hj.
  assert (HN : of_nat n ≠ 0) by (apply of_nat_neq0; lia).
  assert (Hsum : ∀ l, (l < dim)%nat → bigsum n (λ i, entry G i l) = 0).
  { intros l Hl. specialize (Hzero l Hl).
    rewrite (column_tab n dim G l), mean_tab in Hzero by done.
    apply (f_equal (λ x, x * of_nat n)) in Hzero.
    rewrite Qcmult_0_l in Hzero. rewrite <- Hzero. by field. }
  rewrite column_adjusted by done. replace (length S) with n by (symmetry; apply HSr).
  rewrite (column_tab n dim S j) by done.
  rewrite (tab_ext _ (λ i, entry S i j +
             bigsum dim (λ l, nth l (coef_spec V dim S G j) 0 * entry G i l)) n)
    by (intros i Hi; by rewrite (dot_coef_row n)).
  rewrite !mean_tab, bigsum_plus, bigsum_swap.
  rewrite (bigsum_ext_zero dim).
  - unfold Qcdiv. ring.
  - intros l Hl. rewrite bigsum_scale, Hsum by done. ring.
Qed.

Lemma ex_G_zero_mean k : (k < d (self ex_state))%nat → mean (column k ex_G) = 0.
Proof.
  intros Hk. destruct k as [|[|k]]; [| |cbn in Hk; lia];
    apply Qc_is_canon; vm_compute; reflexivity.
Defined.

Lemma zero_mean_gradient_preserves_means_witness :
  ∃ lo A, (postprocess_adjust ex_state).2 = Ok lo ∧
          heap (postprocess_adjust ex_state).1 !! lo = Some A ∧
          mean (column 0 A) = mean (column 0 ex_S).
Proof.
  destruct (postprocess_adjust ex_state).2 as [lo| |] eqn:Hlo.
  2,3: (exfalso; vm_compute in Hlo; discriminate Hlo).
  assert (Hn : (2 ≤ n_iters (self ex_state))%nat) by (cbn; lia).
  destruct (zero_mean_gradient_preserves_means ex_state ex_S ex_G lo ex_fitted Hn Hlo
              ex_G_zero_mean) as (A & HA & H).
  exists lo, A. split; [reflexivity|]. split; [exact HA|].
  assert (H0 : (0 < d (self ex_state))%nat) by (cbn; lia).
  exact (H 0%nat H0).
Defined.





(** *** Scale of the gradient *)

Lemma rect_map_vscale n w c G : rect n w G → rect n w (map (vscale c) G).
Proof.
  intros [Hl Hw]. split; [by rewrite length_map|].
  apply Forall_forall. intros r Hr. apply list_elem_of_fmap in Hr as (r' & -> & Hr').
  unfold vscale. rewrite length_map. rewrite Forall_forall in Hw. by apply Hw.
Qed.

Lemma entry_map_vscale c G i k : entry (map (vscale c) G) i k = c * entry G i k.
Proof.
  unfold entry. destruct (decide (i < length G)%nat) as [Hi|Hi].
  - rewrite (nth_map_lt _ _ _ []) by done. apply nth_vscale.
  - rewrite !(nth_overflow _ []) by (rewrite ?length_map; lia).
    destruct k; cbn; ring.
Qed.

Lemma covariance_scaled_gradient n w c xs G k :
  rect n w G → length xs = n →
  covariance xs (column k (map (vscale c) G)) = c * covariance xs (column k G).
Proof.
  intros HG Hx.
  rewrite (column_tab n w _ k (rect_map_vscale n w c G HG)), (column_tab n w G k HG).
  rewrite (as_tab 0 xs n) by done.
  rewrite covariance_tab_sym,
    (tab_ext _ (λ i, c * entry G i k) n) by (intros; apply entry_map_vscale).
  rewrite covariance_tab_scale. f_equal. apply covariance_tab_sym.
Qed.

Lemma var_grad_scaled n w c G k l :
  rect n w G → (0 < n)%nat → (k < w)%nat → (l < w)%nat →
  entry (var_grad_spec (map (vscale c) G)) k l = c * c * entry (var_grad_spec G) k l.
Proof.
  intros HG Hn Hk Hl.
  rewrite (entry_var_grad n w (map (vscale c) G)) by (done || by apply rect_map_vscale).
  rewrite (entry_var_grad n w G) by done.
  rewrite (covariance_scaled_gradient n w)
    by (done || (rewrite length_column, length_map; apply HG)).
  rewrite (column_tab n w _ k (rect_map_vscale n w c G HG)), !(column_tab n w G) by done.
  rewrite (tab_ext _ (λ i, c * entry G i k) n) by (intros; apply entry_map_vscale).
  rewrite covariance_tab_scale. ring.
Qed.

(** The inverse of the covariance matrix of a rescaled gradient. *)
Lemma inverse_scaled_gradient n w c G V :
  rect n w G → (0 < n)%nat → c ≠ 0 →
  rect w w V → is_inverse (var_grad_spec G) V →
  rect w w (map (vscale (/ (c * c))) V) ∧
  is_inverse (var_grad_spec (map (vscale c) G)) (map (vscale (/ (c * c))) V).
Proof.
  intros HG Hn Hc HV Hinv.
  assert (HV' : rect w w (map (vscale (/ (c * c))) V)) by by apply rect_map_vscale.
  assert (HM' : rect w w (var_grad_spec (map (vscale c) G))).
  { apply (rect_var_grad n); [by apply rect_map_vscale | done]. }
  split; [done|]. unfold is_inverse. destruct HM' as [Hl Hw] eqn:E. rewrite Hl. clear E.
  split.
  - rewrite identity_tab. apply mmul_tab; [done..|]. intros i j Hi Hj.
    destruct (inverse_var_grad_entries n w G V j i HG Hn HV Hinv Hj Hi) as [_ H].
    rewrite <- H. apply bigsum_ext. intros t Ht.
    rewrite (var_grad_scaled n w) by done. rewrite entry_map_vscale. by field.
  - rewrite identity_tab. apply mmul_tab; [done..|]. intros i j Hi Hj.
    destruct (inverse_var_grad_entries n w G V i j HG Hn HV Hinv Hi Hj) as [H _].
    rewrite <- H. apply bigsum_ext. intros t Ht.
    rewrite (var_grad_scaled n w) by done. rewrite entry_map_vscale. by field.
Qed.

Lemma adjusted_spec_scaled_gradient n dim c S G V :
  rect n dim S → rect n dim G → c ≠ 0 → rect dim dim V →
  adjusted_spec (map (vscale (/ (c * c))) V) dim S (map (vscale c) G) =
  adjusted_spec V dim S G.
Proof.
  intros HS HG Hc HV. unfold adjusted_spec.
  replace (length S) with n by (symmetry; apply HS).
  apply tab_ext. intros i Hi. apply tab_ext. intros j Hj. f_equal.
  assert (HG' : rect n dim (map (vscale c) G)) by by apply rect_map_vscale.
  assert (HV' : rect dim dim (map (vscale (/ (c * c))) V)) by by apply rect_map_vscale.
  rewrite !(dot_coef_row n) by done.
  apply bigsum_ext. intros l Hl. rewrite !nth_coef_spec by done.
  rewrite entry_map_vscale.
  rewrite (bigsum_ext _ _ (λ k, / c * (entry V l k * covariance (column j S) (column k G)))).
  - rewrite bigsum_scale. by field.
  - intros k Hk. rewrite entry_map_vscale.
    rewrite (covariance_scaled_gradient n dim)
      by (done || (rewrite length_column; apply HS)).
    by field.
Qed.

(** X17: multiplying the gradient sample by a non-zero constant does not
    change the adjusted sample. *)
Theorem gradient_rescaling_invariant st st' S G c lo :
  fitted st S G → fitted st' S (map (vscale c) G) →
  n_iters (self st') = n_iters (self st) → d (self st') = d (self st) →
  (2 ≤ n_iters (self st))%nat → c ≠ 0 →
  (postprocess_adjust st).2 = Ok lo →
  result_array (postprocess_adjust st') = result_array (postprocess_adjust st).
Proof.
  intros Hfit Hfit' Hn' Hd' Hn Hc Hlo.
  destruct (adjustment_succeeded st S G lo Hfit Hn Hlo) as (V & HVinv & HV & Hinv & HA).
  unfold result_array at 2. rewrite Hlo, HA. cbn [default from_option id].
  pose proof (fitted_live _ _ _ Hfit') as Hlive'.
  destruct Hfit as (_ & _ & HSr & HGr).
  destruct Hfit' as (HS' & HG' & HSr' & HGr').
  rewrite Hn', Hd' in HSr', HGr'.
  assert (Hd1 : d (self st) ≠ 1%nat).
  { intros Hd1. rewrite Hd1 in HGr.
    by rewrite (inv_single_variable _ G HGr Hn) in HVinv. }
  destruct (inverse_scaled_gradient _ _ c G V HGr ltac:(lia) Hc HV Hinv) as [HVs Hinvs].
  unfold result_array.
  rewrite (postprocess_adjust_run st' Hlive'), HS', HG', Hn', Hd'.
  cbn [default from_option id fst snd with_heap heap].
  rewrite (adjust_code_spec _ _ S _ (map (vscale (/ (c * c))) V)); [| done..|].
  - cbn [fst snd mbind outcome_bind obind]. rewrite lookup_insert_eq.
    cbn [default from_option id]. f_equal.
    by apply (adjusted_spec_scaled_gradient (n_iters (self st))).
  - by apply (inv_var_grad_complete (n_iters (self st)) (d (self st))).
Qed.

Lemma ex_tempered_fitted : fitted ex_state_tempered ex_S (map (vscale (q 3 1)) ex_G).
Proof.
  split; [reflexivity|]. split; [reflexivity|].
  split; (split; [reflexivity | repeat constructor]).
Defined.

Lemma gradient_rescaling_invariant_witness :
  result_array (postprocess_adjust ex_state_tempered) =
  result_array (postprocess_adjust ex_state).
Proof.
  destruct (postprocess_adjust ex_state).2 as [lo| |] eqn:Hlo.
  2,3: (exfalso; vm_compute in Hlo; discriminate Hlo).
  assert (Hn : (2 ≤ n_iters (self ex_state))%nat) by (cbn; lia).
  assert (Hc : q 3 1 ≠ 0) by (intros H; discriminate H).
  exact (gradient_rescaling_invariant ex_state ex_state_tempered ex_S ex_G (q 3 1) lo
           ex_fitted ex_tempered_fitted eq_refl eq_refl Hn Hc Hlo).
Defined.

(** *** Order of the draws *)

Lemma mean_perm xs ys : xs ≡ₚ ys → mean xs = mean ys.
Proof. intros H. unfold mean. by rewrite (vsum_perm _ _ H), (Permutation_length H). Qed.

Lemma covariance_perm {A} (f g : A → Qc) l l' :
  l ≡ₚ l' → covariance (map f l) (map g l) = covariance (map f l') (map g l').
Proof.
  intros H. unfold covariance.
  rewrite (mean_perm (map f l) (map f l')), (mean_perm (map g l) (map g l'))
    by by apply Permutation_map.
  rewrite !zip_with_map_same, !length_map, (Permutation_length H). f_equal.
  apply vsum_perm. by apply Permutation_map.
Qed.

Lemma column_fst k (rows : list (list Qc * list Qc)) :
  column k (map fst rows) = map (λ p, nth k p.1 0) rows.
Proof. unfold column. by rewrite map_map. Qed.

Lemma column_snd k (rows : list (list Qc * list Qc)) :
  column k (map snd rows) = map (λ p, nth k p.2 0) rows.
Proof. unfold column. by rewrite map_map. Qed.

Lemma cross_cov_spec_perm dim (rows rows' : list (list Qc * list Qc)) j :
  rows ≡ₚ rows' →
  cross_cov_spec dim (map fst rows) (map snd rows) j =
  cross_cov_spec dim (map fst rows') (map snd rows') j.
Proof.
  intros H. unfold cross_cov_spec. apply map_ext. intros k.
  rewrite !column_fst, !column_snd. by apply covariance_perm.
Qed.

Lemma var_grad_spec_perm n w (rows rows' : list (list Qc * list Qc)) :
  rect n w (map snd rows) → rect n w (map snd rows') → (0 < n)%nat →
  rows ≡ₚ rows' →
  var_grad_spec (map snd rows) = var_grad_spec (map snd rows').
Proof.
  intros HG HG' Hn H. unfold var_grad_spec.
  rewrite !(rect_ncols n w) by done.
  apply map_ext. intros k. apply map_ext. intros l.
  rewrite !column_snd. by apply covariance_perm.
Qed.

(** The adjusted sample row by row. *)
Lemma adjusted_spec_rows V dim (rows : list (list Qc * list Qc)) :
  adjusted_spec V dim (map fst rows) (map snd rows) =
  map (λ p, map (λ j, nth j p.1 0 +
                      dot (coef_spec V dim (map fst rows) (map snd rows) j) p.2)
                (seq 0 dim)) rows.
Proof.
  set (h := λ p : list Qc * list Qc, map (λ j, nth j p.1 0 +
              dot (coef_spec V dim (map fst rows) (map snd rows) j) p.2) (seq 0 dim)).
  transitivity (map h (map (λ i, nth i rows ([], [])) (seq 0 (length rows))));
    [|by rewrite <- (as_tab ([], []) rows)].
  unfold adjusted_spec. rewrite length_map, map_map.
  apply tab_ext. intros i Hi. apply tab_ext. intros j Hj.
  unfold entry. by rewrite !(nth_map_lt _ _ _ (([], []) : list Qc * list Qc)) by done.
Qed.

Lemma zip_fst_map {A B C} (f : A * B → C) (rows : list (A * B)) :
  zip (map fst rows) (map f rows) = map (λ p, (p.1, f p)) rows.
Proof. induction rows as [|p rows IH]; [done|]. cbn. by rewrite IH. Qed.

(** X18: the control-variate pass does not depend on the order of the
    draws: on a chain whose (draw, gradient) pairs are permuted it
    succeeds as well, and each draw receives the same adjusted row. *)
Theorem adjustment_permutation_equivariant st st' rows rows' lo :
  fitted st (map fst rows) (map snd rows) →
  fitted st' (map fst rows') (map snd rows') →
  n_iters (self st') = n_iters (self st) → d (self st') = d (self st) →
  (2 ≤ n_iters (self st))%nat →
  rows ≡ₚ rows' →
  (postprocess_adjust st).2 = Ok lo →
  ∃ lo' A A',
    (postprocess_adjust st').2 = Ok lo' ∧
    heap (postprocess_adjust st).1 !! lo = Some A ∧
    heap (postprocess_adjust st').1 !! lo' = Some A' ∧
    zip (map fst rows) A ≡ₚ zip (map fst rows') A'.
Proof.
  intros Hfit Hfit' Hn' Hd' Hn Hperm Hlo.
  destruct (adjustment_succeeded st _ _ lo Hfit Hn Hlo) as (V & HVinv & HV & Hinv & HA).
  pose proof (fitted_live _ _ _ Hfit') as Hlive'.
  destruct Hfit as (_ & _ & HSr & HGr).
  destruct Hfit' as (HS' & HG' & HSr' & HGr').
  rewrite Hn', Hd' in HSr', HGr'.
  set (n := n_iters (self st)) in *. set (dim := d (self st)) in *.
  assert (Hd1 : dim ≠ 1%nat).
  { intros Hd1. rewrite Hd1 in HGr.
    by rewrite (inv_single_variable _ _ HGr Hn) in HVinv. }
  assert (HVinv' : np_linalg_inv (np_cov (map snd rows')) = Ok V).
  { rewrite (np_cov_spec n dim) by done.
    rewrite <- (var_grad_spec_perm n dim rows rows') by (done || lia).
    by rewrite <- (np_cov_spec n dim) by done. }
  exists (fresh (dom (heap st'))), (adjusted_spec V dim (map fst rows) (map snd rows)),
         (adjusted_spec V dim (map fst rows') (map snd rows')).
  rewrite (postprocess_adjust_run st' Hlive'), HS', HG', Hn', Hd'.
  cbn [default from_option id fst snd with_heap heap]. fold n dim.
  rewrite (adjust_code_spec n dim _ _ V) by done.
  cbn [fst snd mbind outcome_bind obind]. rewrite lookup_insert_eq.
  split; [done|]. split; [done|]. split; [done|].
  rewrite !adjusted_spec_rows.
  rewrite !zip_fst_map.
  assert (Hcoef : ∀ j, coef_spec V dim (map fst rows') (map snd rows') j =
                       coef_spec V dim (map fst rows) (map snd rows) j).
  { intros j. unfold coef_spec. by rewrite (cross_cov_spec_perm dim rows rows'). }
  rewrite (map_ext (λ p : list Qc * list Qc, (p.1, map (λ j, nth j p.1 0 +
             dot (coef_spec V dim (map fst rows') (map snd rows') j) p.2) (seq 0 dim)))
           (λ p, (p.1, map (λ j, nth j p.1 0 +
             dot (coef_spec V dim (map fst rows) (map snd rows) j) p.2) (seq 0 dim)))).
  - by apply Permutation_map.
  - intros p. f_equal. apply map_ext. intros j. by rewrite Hcoef.
Qed.

Lemma ex_rows_fitted : fitted ex_state (map fst ex_rows) (map snd ex_rows).
Proof. exact ex_fitted. Defined.

Lemma ex_rows_swapped_fitted :
  fitted ex_state_chain_swapped (map fst ex_rows_swapped) (map snd ex_rows_swapped).
Proof.
  split; [reflexivity|]. split; [reflexivity|].
  split; (split; [reflexivity | repeat constructor]).
Defined.

Lemma adjustment_permutation_equivariant_witness :
  ∃ lo lo' A A',
    (postprocess_adjust ex_state).2 = Ok lo ∧
    (postprocess_adjust ex_state_chain_swapped).2 = Ok lo' ∧
    heap (postprocess_adjust ex_state).1 !! lo = Some A ∧
    heap (postprocess_adjust ex_state_chain_swapped).1 !! lo' = Some A' ∧
    zip (map fst ex_rows) A ≡ₚ zip (map fst ex_rows_swapped) A'.
Proof.
  destruct (postprocess_adjust ex_state).2 as [lo| |] eqn:Hlo.
  2,3: (exfalso; vm_compute in Hlo; discriminate Hlo).
  assert (Hn : (2 ≤ n_iters (self ex_state))%nat) by (cbn; lia).
  assert (Hp : ex_rows ≡ₚ ex_rows_swapped) by apply perm_swap.
  destruct (adjustment_permutation_equivariant ex_state ex_state_chain_swapped
              ex_rows ex_rows_swapped lo ex_rows_fitted ex_rows_swapped_fitted
              eq_refl eq_refl Hn Hp Hlo) as (lo' & A & A' & H1 & H2 & H3 & H4).
  exists lo, lo', A, A'. split; [reflexivity|]. exact (conj H1 (conj H2 (conj H3 H4))).
Defined.
